(** * RCAN registry: Robot URI grammar and registry synchronisation

    A shallow embedding of the RURI parser/serialiser ([parseRURI],
    [buildRURI], [ruriToHttpUrl], [validateManifest],
    [manifestToRegistryData]), of the sync script ([fetchManifest],
    [manifestToYaml], [getNextRRN], [findExistingByRURI], [syncRURI],
    [main]) and of the badge endpoint ([getStaticPaths],
    [generateBadgeSVG], [GET]), followed by the properties established
    about them.

    Conventions of the embedding.
    - A JavaScript string is a [string]; each [ascii] stands for one code
      unit in the range 0..255.
    - A regular expression literal is a [regex] term run by a backtracking
      matcher with greedy quantifiers and capture groups, in the priority
      order of [RegExp.prototype.exec].
    - The record store (the robots directory) is an ordered list of
      (file name, content) pairs; the order is the one [readdirSync]
      reports, that of the names, and a file that is created takes its
      place in it.
    - A port or a sequence number is an integer of less than 22 digits,
      a [Z] or an [N], which a template literal prints in full.
    - The network and the clock are arguments: [fetch] maps a URL to the
      outcome of [fetchManifest], [today] is the ISO calendar date. *)

From Stdlib Require Import String Ascii List ZArith NArith Bool Lia.
Import ListNotations.
Open Scope string_scope.

(** ** JavaScript string primitives *)

Module JsString.

Definition code (c : ascii) : N := N_of_ascii c.

Definition between (lo hi c : ascii) : bool :=
  ((code lo <=? code c) && (code c <=? code hi))%N.

Definition is_lower (c : ascii) : bool := between "a" "z" c.
Definition is_upper (c : ascii) : bool := between "A" "Z" c.
Definition is_digit (c : ascii) : bool := between "0" "9" c.

(** ASCII case mapping.  Code units above 127 are left alone: the
    canonicalisation of an ignore-case match never maps such a unit to an
    ASCII one, and every pattern below is ASCII. *)
Definition to_upper (c : ascii) : ascii :=
  if is_lower c then ascii_of_N (code c - 32) else c.
Definition to_lower (c : ascii) : ascii :=
  if is_upper c then ascii_of_N (code c + 32) else c.

(** WhiteSpace and LineTerminator code units below 256:
    TAB, LF, VT, FF, CR, SP and NBSP. *)
Definition is_space (c : ascii) : bool :=
  let n := code c in
  ((9 <=? n) && (n <=? 13) || (n =? 32) || (n =? 160))%N.

Fixpoint all_chars (p : ascii -> bool) (s : string) : bool :=
  match s with
  | EmptyString => true
  | String c s' => p c && all_chars p s'
  end.

Fixpoint drop (n : nat) (s : string) : string :=
  match n, s with
  | O, _ => s
  | S n', String _ s' => drop n' s'
  | S _, EmptyString => EmptyString
  end.

Fixpoint take (n : nat) (s : string) : string :=
  match n, s with
  | S n', String c s' => String c (take n' s')
  | _, _ => EmptyString
  end.

(** [s.startsWith(p)] *)
Fixpoint startsWith (s p : string) {struct p} : bool :=
  match p, s with
  | EmptyString, _ => true
  | String a p', String b s' => Ascii.eqb a b && startsWith s' p'
  | String _ _, EmptyString => false
  end.

(** [s.endsWith(p)] *)
Definition endsWith (s p : string) : bool :=
  (String.length p <=? String.length s)%nat
  && String.eqb (drop (String.length s - String.length p) s) p.

(** [s.includes(p)] *)
Fixpoint includes (s p : string) : bool :=
  startsWith s p ||
  match s with
  | EmptyString => false
  | String _ s' => includes s' p
  end.

(** [s.replace(p, r)] for a string pattern: the first occurrence only. *)
Fixpoint replace (s p r : string) : string :=
  if startsWith s p then r ++ drop (String.length p) s
  else match s with
       | EmptyString => EmptyString
       | String c s' => String c (replace s' p r)
       end.

Fixpoint trimStart (s : string) : string :=
  match s with
  | String c s' => if is_space c then trimStart s' else s
  | EmptyString => EmptyString
  end.

Fixpoint trimEnd (s : string) : string :=
  match s with
  | EmptyString => EmptyString
  | String c s' =>
      match trimEnd s' with
      | EmptyString => if is_space c then EmptyString else String c EmptyString
      | t => String c t
      end
  end.

(** [s.trim()] *)
Definition trim (s : string) : string := trimEnd (trimStart s).

Fixpoint repeat_char (c : ascii) (n : nat) : string :=
  match n with
  | O => EmptyString
  | S n' => String c (repeat_char c n')
  end.

(** [s.padStart(n, c)] for a one-character filler. *)
Definition padStart (s : string) (n : nat) (c : ascii) : string :=
  repeat_char c (n - String.length s) ++ s.

(** [lines.join(sep)] *)
Fixpoint join (sep : string) (l : list string) : string :=
  match l with
  | [] => EmptyString
  | [x] => x
  | x :: rest => x ++ sep ++ join sep rest
  end.

Definition digit_char (d : N) : ascii := ascii_of_N (48 + d).

(** Decimal digits, most significant first; [fuel] bounds the number of
    divisions by ten. *)
Fixpoint digits_of (fuel : nat) (n : N) : string :=
  match fuel with
  | O => String (digit_char (n mod 10)) EmptyString
  | S fuel' =>
      if (n <? 10)%N then String (digit_char n) EmptyString
      else digits_of fuel' (n / 10) ++ String (digit_char (n mod 10)) EmptyString
  end.

(** [String(n)] for a non-negative integer: a number has no more decimal
    digits than binary ones. *)
Definition N_to_string (n : N) : string :=
  digits_of (N.to_nat (N.log2 n)) n.

(** [String(z)] for an integer-valued number. *)
Definition Z_to_string (z : Z) : string :=
  match z with
  | Z0 => "0"
  | Zpos p => N_to_string (Npos p)
  | Zneg p => String "-" (N_to_string (Npos p))
  end.

Definition digit_value (c : ascii) : N := code c - 48.

(** Value of the longest prefix of decimal digits, [None] when there is
    none. *)
Fixpoint digits_prefix (s : string) (acc : option N) : option N :=
  match s with
  | String c s' =>
      if is_digit c
      then digits_prefix s'
             (Some (10 * match acc with Some a => a | None => 0 end
                    + digit_value c)%N)
      else acc
  | EmptyString => acc
  end.

(** [parseInt(s, 10)]; [None] is NaN. *)
Definition parseInt (s : string) : option Z :=
  match trimStart s with
  | String "-" s' => option_map (fun n => (- Z.of_N n)%Z) (digits_prefix s' None)
  | String "+" s' => option_map Z.of_N (digits_prefix s' None)
  | s' => option_map Z.of_N (digits_prefix s' None)
  end.

End JsString.
Import JsString.

(** ** Regular expressions *)

Module Regex.

(** Members of a bracketed class; [\d] is [[Range "0" "9"]]. *)
Inductive item : Type :=
| Range (lo hi : ascii)
| Single (c : ascii).

Definition cset := list item.

(** The fragment of the pattern language the sources use: quantifiers
    [*] and [{lo,hi}] are applied to classes only, [?] to any
    sub-pattern. *)
Inductive regex : Type :=
| Eps
| Chr (c : ascii)
| Cls (cs : cset)
| Star (cs : cset)
| Rep (cs : cset) (lo hi : nat)
| Seq (r1 r2 : regex)
| Opt (r : regex)
| Group (i : nat) (r : regex)
| Bol
| Eol.

Definition in_item (it : item) (c : ascii) : bool :=
  match it with
  | Range lo hi => between lo hi c
  | Single a => Ascii.eqb a c
  end.

Definition in_cset (cs : cset) (c : ascii) : bool :=
  existsb (fun it => in_item it c) cs.

(** Class membership; with the [i] flag a character belongs to the class
    when one of its two cases does. *)
Definition member (ic : bool) (cs : cset) (c : ascii) : bool :=
  if ic then in_cset cs (to_upper c) || in_cset cs (to_lower c)
  else in_cset cs c.

(** Literal comparison, through the canonical (upper case) form under
    the [i] flag. *)
Definition same_char (ic : bool) (a c : ascii) : bool :=
  if ic then Ascii.eqb (to_upper a) (to_upper c) else Ascii.eqb a c.

Definition Caps := list (nat * string).

Fixpoint capture (i : nat) (caps : Caps) : option string :=
  match caps with
  | [] => None
  | (j, s) :: rest => if Nat.eqb i j then Some s else capture i rest
  end.

(** Text consumed between two points of the input, the second a suffix
    of the first. *)
Definition consumed (s s' : string) : string :=
  take (String.length s - String.length s') s.

Section Matcher.

Variable ic : bool.
(** Length of the whole input, to recognise its start. *)
Variable n : nat.

(** Greedy [p*]: the longest run first, then shorter ones. *)
Fixpoint star {A} (p : ascii -> bool) (s : string)
         (k : string -> option A) : option A :=
  match s with
  | String c s' =>
      if p c
      then match star p s' k with
           | Some r => Some r
           | None => k s
           end
      else k s
  | EmptyString => k s
  end.

(** Greedy [p{0,hi}]. *)
Fixpoint upto {A} (p : ascii -> bool) (hi : nat) (s : string)
         (k : string -> option A) : option A :=
  match hi with
  | O => k s
  | S hi' =>
      match s with
      | String c s' =>
          if p c
          then match upto p hi' s' k with
               | Some r => Some r
               | None => k s
               end
          else k s
      | EmptyString => k s
      end
  end.

(** [p{lo}]. *)
Fixpoint exactly {A} (p : ascii -> bool) (lo : nat) (s : string)
         (k : string -> option A) : option A :=
  match lo with
  | O => k s
  | S lo' =>
      match s with
      | String c s' => if p c then exactly p lo' s' k else None
      | EmptyString => None
      end
  end.

(** The matcher, in continuation-passing style: [k] is what remains of
    the pattern; the first alternative that lets [k] succeed wins. *)
Fixpoint run (r : regex) (s : string) (caps : Caps)
         (k : string -> Caps -> option Caps) : option Caps :=
  match r with
  | Eps => k s caps
  | Chr a =>
      match s with
      | String c s' => if same_char ic a c then k s' caps else None
      | EmptyString => None
      end
  | Cls cs =>
      match s with
      | String c s' => if member ic cs c then k s' caps else None
      | EmptyString => None
      end
  | Star cs => star (member ic cs) s (fun s' => k s' caps)
  | Rep cs lo hi =>
      exactly (member ic cs) lo s
        (fun s1 => upto (member ic cs) (hi - lo) s1 (fun s' => k s' caps))
  | Seq r1 r2 => run r1 s caps (fun s' caps' => run r2 s' caps' k)
  | Opt r' =>
      match run r' s caps k with
      | Some res => Some res
      | None => k s caps
      end
  | Group i r' =>
      run r' s caps (fun s' caps' => k s' ((i, consumed s s') :: caps'))
  | Bol => if Nat.eqb (String.length s) n then k s caps else None
  | Eol =>
      match s with
      | EmptyString => k s caps
      | String _ _ => None
      end
  end.

(** Leftmost match: every start offset is tried in turn. *)
Fixpoint search (r : regex) (s : string) : option Caps :=
  match run r s [] (fun _ caps => Some caps) with
  | Some caps => Some caps
  | None =>
      match s with
      | String _ s' => search r s'
      | EmptyString => None
      end
  end.

End Matcher.

(** [s.match(re)] for a regular expression without the [g] flag: the
    capture groups of the leftmost match, [None] for [null]. *)
Definition exec (ic : bool) (r : regex) (s : string) : option Caps :=
  search ic (String.length s) r s.

(** A sequence of pattern elements. *)
Fixpoint seq (l : list regex) : regex :=
  match l with
  | [] => Eps
  | [r] => r
  | r :: rest => Seq r (seq rest)
  end.

(** A literal, character by character. *)
Fixpoint lit (s : string) : list regex :=
  match s with
  | EmptyString => []
  | String c s' => Chr c :: lit s'
  end.

End Regex.
Import Regex.

(** ** Values received from the network *)

Module Js.

(** A JSON number, by what the code observes of it: its rendering in a
    template literal and its sign. *)
Record JsNumber : Type := {
  num_string : string;
  num_sign : comparison
}.

Definition num_of_Z (z : Z) : JsNumber :=
  {| num_string := Z_to_string z; num_sign := (z ?= 0)%Z |}.

#[local] Unset Elimination Schemes.
Inductive JsValue : Type :=
| JUndefined
| JNull
| JBool (b : bool)
| JNum (x : JsNumber)
| JStr (s : string)
| JArr (items : list JsValue)
| JObj (fields : list (string * JsValue)).
#[local] Set Elimination Schemes.

Inductive Exn : Type :=
| TypeError
| FetchError (message : string).

Inductive Result (A : Type) : Type :=
| Ok (a : A)
| Throw (e : Exn).
Arguments Ok {A} a.
Arguments Throw {A} e.

Definition bind {A B} (r : Result A) (f : A -> Result B) : Result B :=
  match r with
  | Ok a => f a
  | Throw e => Throw e
  end.

Notation "x <- r ;; k" := (bind r (fun x => k))
  (at level 61, r at next level, right associativity).

Fixpoint lookup (key : string) (fields : list (string * JsValue)) : option JsValue :=
  match fields with
  | [] => None
  | (k, v) :: rest => if String.eqb k key then Some v else lookup key rest
  end.

(** [v.key], for the property names the sources read.  None of them is
    inherited from a prototype except [length] of strings and arrays. *)
Definition get (v : JsValue) (key : string) : Result JsValue :=
  match v with
  | JUndefined | JNull => Throw TypeError
  | JObj fields =>
      Ok (match lookup key fields with Some x => x | None => JUndefined end)
  | JArr items =>
      Ok (if String.eqb key "length"
          then JNum (num_of_Z (Z.of_nat (List.length items)))
          else JUndefined)
  | JStr s =>
      Ok (if String.eqb key "length"
          then JNum (num_of_Z (Z.of_nat (String.length s)))
          else JUndefined)
  | JBool _ | JNum _ => Ok JUndefined
  end.

(** [v?.key] *)
Definition get_opt (v : JsValue) (key : string) : JsValue :=
  match v with
  | JUndefined | JNull => JUndefined
  | _ => match get v key with Ok x => x | Throw _ => JUndefined end
  end.

Definition truthy (v : JsValue) : bool :=
  match v with
  | JUndefined | JNull => false
  | JBool b => b
  | JNum x => match num_sign x with Eq => false | _ => true end
  | JStr s => negb (String.eqb s EmptyString)
  | JArr _ | JObj _ => true
  end.

(** [typeof v === 'string'] *)
Definition is_string (v : JsValue) : bool :=
  match v with
  | JStr _ => true
  | _ => false
  end.

(** [typeof v === 'object'] *)
Definition is_object (v : JsValue) : bool :=
  match v with
  | JNull | JArr _ | JObj _ => true
  | _ => false
  end.

(** [v === s] for a string literal [s]. *)
Definition strict_eq_string (v : JsValue) (s : string) : bool :=
  match v with
  | JStr t => String.eqb t s
  | _ => false
  end.

(** [`${v}`].  A plain object renders through [Object.prototype.toString]
    unless it carries a [toString] property of its own, which is never
    callable here and makes the conversion throw; an array renders the
    join of its elements. *)
Fixpoint to_string (v : JsValue) : Result string :=
  match v with
  | JUndefined => Ok "undefined"
  | JNull => Ok "null"
  | JBool true => Ok "true"
  | JBool false => Ok "false"
  | JNum x => Ok (num_string x)
  | JStr s => Ok s
  | JArr items =>
      (fix elems (l : list JsValue) : Result string :=
         match l with
         | [] => Ok EmptyString
         | x :: rest =>
             s <- match x with
                  | JUndefined | JNull => Ok EmptyString
                  | _ => to_string x
                  end ;;
             match rest with
             | [] => Ok s
             | _ => r <- elems rest ;; Ok (s ++ "," ++ r)
             end
         end) items
  | JObj fields =>
      match lookup "toString" fields with
      | Some _ => Throw TypeError
      | None => Ok "[object Object]"
      end
  end.

(** [[...v]] *)
Definition spread (v : JsValue) : Result (list JsValue) :=
  match v with
  | JArr items => Ok items
  | JStr s => Ok (map (fun c => JStr (String c EmptyString)) (list_ascii_of_string s))
  | _ => Throw TypeError
  end.

Fixpoint mapM {A B} (f : A -> Result B) (l : list A) : Result (list B) :=
  match l with
  | [] => Ok []
  | x :: rest => y <- f x ;; ys <- mapM f rest ;; Ok (y :: ys)
  end.

End Js.
Import Js.

(** ** The RURI library *)

Module Ruri.

Definition alnum : cset := [Range "a" "z"; Range "0" "9"].
Definition alnum_dot_dash : cset := [Range "a" "z"; Range "0" "9"; Single "."; Single "-"].
Definition alnum_dash : cset := [Range "a" "z"; Range "0" "9"; Single "-"].
Definition alnum_slash_dash : cset := [Range "a" "z"; Range "0" "9"; Single "/"; Single "-"].
Definition hex : cset := [Range "0" "9"; Range "a" "f"].
Definition alpha : cset := [Range "a" "z"].
Definition digit : cset := [Range "0" "9"].

(** [[a-z0-9][...]*[a-z0-9]] *)
Definition label (inner : cset) : regex := seq [Cls alnum; Star inner; Cls alnum].

(** [[0-9a-f]{8}(?:-[0-9a-f]{4}-[0-9a-f]{4}-[0-9a-f]{4}-[0-9a-f]{12})?] *)
Definition device_id : regex :=
  seq [Rep hex 8 8;
       Opt (seq [Chr "-"; Rep hex 4 4; Chr "-"; Rep hex 4 4;
                 Chr "-"; Rep hex 4 4; Chr "-"; Rep hex 12 12])].

(** [\/?[a-z][a-z0-9/-]*] *)
Definition capability_path : regex :=
  seq [Opt (Chr "/"); Cls alpha; Star alnum_slash_dash].

(** The optional port: a colon and group 5, [\d{1,5}]. *)
Definition port_part : regex := Opt (seq [Chr ":"; Group 5 (Rep digit 1 5)]).

(** Group 6, optional: the capability path. *)
Definition capability_part : regex := Opt (Group 6 capability_path).

(** The pattern of [RURI_REGEX]; it carries the [i] flag. *)
Definition RURI_REGEX : regex :=
  seq ([Bol] ++ lit "rcan://" ++
       [Group 1 (label alnum_dot_dash); Chr "/";
        Group 2 (label alnum_dash); Chr "/";
        Group 3 (label alnum_dash); Chr "/";
        Group 4 device_id;
        port_part;
        capability_part;
        Eol]).

Record ParsedRURI : Type := {
  raw : string;
  registry : string;
  manufacturer : string;
  model : string;
  deviceId : string;
  port : option Z;
  capability : option string
}.

Record RURIValidationResult : Type := {
  valid : bool;
  error : option string;
  parsed : option ParsedRURI
}.

Definition failure (msg : string) : RURIValidationResult :=
  {| valid := false; error := Some msg; parsed := None |}.

(** A group that takes part in every match. *)
Definition group (i : nat) (m : Caps) : string :=
  match capture i m with
  | Some s => s
  | None => EmptyString
  end.

(** [c.replace(/^\//, '')] *)
Definition strip_slash (c : string) : string :=
  match c with
  | String "/" rest => rest
  | _ => c
  end.

(** [capability?.replace(/^\//, '') || undefined] *)
Definition capability_of (m : Caps) : option string :=
  match capture 6 m with
  | None => None
  | Some c =>
      match strip_slash c with
      | EmptyString => None
      | c' => Some c'
      end
  end.

(** [port ? parseInt(port, 10) : undefined].  Group 5 holds digits only,
    so [parseInt] never yields NaN here. *)
Definition port_of (m : Caps) : option Z :=
  match capture 5 m with
  | None | Some EmptyString => None
  | Some p => parseInt p
  end.

(** [portNum < 1 || portNum > 65535] *)
Definition port_out_of_range (m : Caps) : bool :=
  match capture 5 m with
  | None | Some EmptyString => false
  | Some p =>
      match parseInt p with
      | Some portNum => (portNum <? 1)%Z || (portNum >? 65535)%Z
      | None => false
      end
  end.

Definition parseRURI (ruri : string) : RURIValidationResult :=
  match ruri with
  | EmptyString => failure "RURI cannot be empty"
  | _ =>
      let trimmedRuri := trim ruri in
      if negb (startsWith trimmedRuri "rcan://")
      then failure "RURI must start with rcan://"
      else
        match exec true RURI_REGEX trimmedRuri with
        | None => failure "Invalid RURI format"
        | Some m =>
            if port_out_of_range m
            then failure "Port must be between 1 and 65535"
            else
              {| valid := true;
                 error := None;
                 parsed := Some {| raw := trimmedRuri;
                                   registry := group 1 m;
                                   manufacturer := group 2 m;
                                   model := group 3 m;
                                   deviceId := group 4 m;
                                   port := port_of m;
                                   capability := capability_of m |} |}
        end
  end.

(** The argument of [buildRURI]. *)
Record RURIParts : Type := {
  p_registry : string;
  p_manufacturer : string;
  p_model : string;
  p_deviceId : string;
  p_port : option Z;
  p_capability : option string
}.

Definition parts_of (p : ParsedRURI) : RURIParts :=
  {| p_registry := registry p;
     p_manufacturer := manufacturer p;
     p_model := model p;
     p_deviceId := deviceId p;
     p_port := port p;
     p_capability := capability p |}.

(** The port, when there is one, is printed as a template literal prints
    an integer of less than 22 digits: in full. *)
Definition buildRURI (parts : RURIParts) : string :=
  let ruri := "rcan://" ++ p_registry parts ++ "/" ++ p_manufacturer parts
              ++ "/" ++ p_model parts ++ "/" ++ p_deviceId parts in
  let ruri :=
    match p_port parts with
    | Some 0%Z | None => ruri
    | Some n => ruri ++ ":" ++ Z_to_string n
    end in
  match p_capability parts with
  | None | Some EmptyString => ruri
  | Some c => ruri ++ "/" ++ c
  end.

(** [${protocol}://${parsed.registry}:${port}/.well-known/rcan-manifest.json] *)
Definition manifest_url (p : ParsedRURI) : string :=
  let port :=
    match port p with
    | Some 0%Z | None => 8080%Z
    | Some n => n
    end in
  let protocol := if String.eqb (registry p) "localhost" then "http" else "https" in
  protocol ++ "://" ++ registry p ++ ":" ++ Z_to_string port
  ++ "/.well-known/rcan-manifest.json".

(** The argument is a string to parse or an already parsed value; [None]
    is [null]. *)
Definition ruriToHttpUrl (ruri : string + ParsedRURI) : option string :=
  let parsed :=
    match ruri with
    | inl s => parsed (parseRURI s)
    | inr p => Some p
    end in
  match parsed with
  | None => None
  | Some p => Some (manifest_url p)
  end.

(** [validateManifest]: a type guard over an untyped value.  Past the
    first test the value is neither [null] nor [undefined], so reading a
    property of it cannot throw. *)
Definition validateManifest (manifest : JsValue) : bool :=
  if negb (truthy manifest) || negb (is_object manifest) then false
  else if negb (is_string (get_opt manifest "ruri")) then false
  else if negb (is_string (get_opt manifest "name")) then false
  else if negb (is_string (get_opt manifest "manufacturer")) then false
  else if negb (is_string (get_opt manifest "model")) then false
  else true.

(** [parseRURI(manifest.ruri).parsed] on an untyped argument: a falsy
    value takes the empty-input exit, any other value that is not a
    string has no [trim] method. *)
Definition parse_field (v : JsValue) : Result (option ParsedRURI) :=
  match v with
  | JStr s => Ok (parsed (parseRURI s))
  | _ => if truthy v then Throw TypeError else Ok None
  end.

Section RegistryData.

(** [new Date().toISOString().split('T')[0]] *)
Variable today : string.

Definition manifestToRegistryData (manifest : JsValue) (rrn : string)
  : Result JsValue :=
  ruri <- get manifest "ruri" ;;
  _ <- parse_field ruri ;;
  name <- get manifest "name" ;;
  manufacturer <- get manifest "manufacturer" ;;
  model <- get manifest "model" ;;
  description <- get manifest "description" ;;
  description <-
    (if truthy description then Ok description
     else r <- to_string ruri ;;
          Ok (JStr ("Robot registered via RCAN protocol from " ++ r))) ;;
  status <- get manifest "status" ;;
  links <- get manifest "links" ;;
  specs <- get manifest "specs" ;;
  owner <- get manifest "owner" ;;
  capabilities <- get manifest "capabilities" ;;
  tags <- (if truthy capabilities then spread capabilities else Ok []) ;;
  Ok (JObj
        [("rrn", JStr rrn);
         ("name", name);
         ("manufacturer", manufacturer);
         ("model", model);
         ("description", description);
         ("status", JStr (if strict_eq_string status "offline"
                          then "retired" else "active"));
         ("ruri", ruri);
         ("urdf_url", get_opt links "urdf");
         ("github_url", get_opt links "github");
         ("website", get_opt links "website");
         ("specs", if truthy specs
                   then JObj [("weight_kg", get_opt specs "weight_kg");
                              ("dimensions", get_opt specs "dimensions");
                              ("dof", get_opt specs "dof");
                              ("sensors", get_opt specs "sensors");
                              ("compute", get_opt specs "compute");
                              ("ros_version", get_opt specs "ros_version")]
                   else JUndefined);
         ("owner", if truthy owner
                   then JObj [("name", get_opt owner "name");
                              ("type", get_opt owner "type")]
                   else JUndefined);
         ("tags", JArr (JStr "rcan-registered" :: tags));
         ("submitted_by", JStr "rcan-auto-register");
         ("submitted_date", JStr today)]).

End RegistryData.

End Ruri.

(** ** The sync script *)

Module Sync.

Import Ruri.

(** The robots directory: file names with their contents, in the order
    [readdirSync] lists them, which is the order of the names, code unit
    by code unit.  It holds regular files only. *)
Definition Store := list (string * string).

Definition readdirSync (st : Store) : list string := map fst st.

(** A file that exists keeps its place in the listing when it is
    written again. *)
Fixpoint overwrite (st : Store) (file content : string) : Store :=
  match st with
  | [] => []
  | (f, c) :: rest =>
      if String.eqb f file then (f, content) :: rest
      else (f, c) :: overwrite rest file content
  end.

(** A new file is listed at the place of its name: before the first
    name that is greater. *)
Fixpoint insert (st : Store) (file content : string) : Store :=
  match st with
  | [] => [(file, content)]
  | (f, c) :: rest =>
      if String.ltb file f then (file, content) :: (f, c) :: rest
      else (f, c) :: insert rest file content
  end.

Definition writeFileSync (st : Store) (file content : string) : Store :=
  if existsb (String.eqb file) (readdirSync st)
  then overwrite st file content
  else insert st file content.

Definition dq : string := String "034" EmptyString.
Definition nl : string := String "010" EmptyString.

(** The script keeps its own copy of [RURI_REGEX], the same literal, and
    a [parseRURI] without the checks of the library's. *)
Definition parseRURI (ruri : string) : option ParsedRURI :=
  match exec true RURI_REGEX (trim ruri) with
  | None => None
  | Some m =>
      Some {| raw := trim ruri;
              registry := group 1 m;
              manufacturer := group 2 m;
              model := group 3 m;
              deviceId := group 4 m;
              port := port_of m;
              capability := capability_of m |}
  end.

(** The script's [ruriToHttpUrl] takes a parsed value only and builds the
    same URL. *)
Definition ruriToHttpUrl (parsed : ParsedRURI) : string :=
  let port :=
    match port parsed with
    | Some 0%Z | None => 8080%Z
    | Some n => n
    end in
  let protocol :=
    if String.eqb (registry parsed) "localhost" then "http" else "https" in
  protocol ++ "://" ++ registry parsed ++ ":" ++ Z_to_string port
  ++ "/.well-known/rcan-manifest.json".

(** [/^RRN-\d{8}\.yaml$/] *)
Definition RRN_FILE : regex :=
  seq ([Bol] ++ lit "RRN-" ++ [Rep digit 8 8] ++ lit ".yaml" ++ [Eol]).

(** [/RRN-(\d{8})\.yaml/] *)
Definition RRN_NUMBER : regex :=
  seq (lit "RRN-" ++ [Group 1 (Rep digit 8 8)] ++ lit ".yaml").

(** Numbers of the allocator: an integer, or [None] for NaN. *)
Definition number_to_string (x : option Z) : string :=
  match x with
  | Some z => Z_to_string z
  | None => "NaN"
  end.

Definition max2 (x y : option Z) : option Z :=
  match x, y with
  | Some a, Some b => Some (Z.max a b)
  | _, _ => None
  end.

(** [rrns.length > 0 ? Math.max(...rrns) : 0] *)
Definition max_or_zero (rrns : list (option Z)) : option Z :=
  match rrns with
  | [] => Some 0%Z
  | x :: rest => fold_left max2 rest x
  end.

(** [parseInt(f.match(/RRN-(\d{8})\.yaml/)?.[1] || '0', 10)] *)
Definition rrn_number (f : string) : option Z :=
  parseInt
    match exec false RRN_NUMBER f with
    | None => "0"
    | Some m =>
        match capture 1 m with
        | None | Some EmptyString => "0"
        | Some d => d
        end
    end.

Definition is_rrn_file (f : string) : bool :=
  match exec false RRN_FILE f with
  | Some _ => true
  | None => false
  end.

Definition getNextRRN (st : Store) : string :=
  let files := readdirSync st in
  let rrns := map rrn_number (filter is_rrn_file files) in
  let maxRRN := max_or_zero rrns in
  let nextNum :=
    padStart (number_to_string (option_map (fun m => (m + 1)%Z) maxRRN)) 8 "0" in
  "RRN-" ++ nextNum.

(** [`ruri: "${ruri}"`] *)
Definition ruri_line (ruri : string) : string := "ruri: " ++ dq ++ ruri ++ dq.

Fixpoint first_with (needle : string) (files : Store) : option string :=
  match files with
  | [] => None
  | (file, content) :: rest =>
      if includes content needle
      then Some (replace file ".yaml" EmptyString)
      else first_with needle rest
  end.

Definition findExistingByRURI (st : Store) (ruri : string) : option string :=
  first_with (ruri_line ruri) (filter (fun e => endsWith (fst e) ".yaml") st).

Section Script.

(** [fetchManifest]: the parsed body of a successful response, or the
    error it throws. *)
Variable fetch : string -> Result JsValue.

(** [new Date().toISOString().split('T')[0]] *)
Variable today : string.

(** Whether a string converts to a number above zero. *)
Variable positive_numeral : string -> bool.

(** [v > 0] *)
Definition positive (v : JsValue) : Result bool :=
  match v with
  | JUndefined | JNull => Ok false
  | JBool b => Ok b
  | JNum x => Ok (match num_sign x with Gt => true | _ => false end)
  | JStr s => Ok (positive_numeral s)
  | JArr _ => s <- to_string v ;; Ok (positive_numeral s)
  | JObj _ => _ <- to_string v ;; Ok false
  end.

(** The elements [v.forEach] visits under the guard
    [v && v.length > 0]; only an array has a [forEach] to call. *)
Definition guarded_items (v : JsValue) : Result (list JsValue) :=
  if truthy v
  then len <- get v "length" ;;
       pos <- positive len ;;
       if pos
       then match v with
            | JArr items => Ok items
            | _ => Throw TypeError
            end
       else Ok []
  else Ok [].

(** [if (v) lines.push(`${label}"${v}"`)], or without the quotes. *)
Definition when_set (label : string) (quoted : bool) (v : JsValue)
  : Result (list string) :=
  if truthy v
  then s <- to_string v ;;
       Ok [if quoted then label ++ dq ++ s ++ dq else label ++ s]
  else Ok [].

Definition list_block (label : string) (v : JsValue) : Result (list string) :=
  items <- guarded_items v ;;
  match items with
  | [] => Ok []
  | _ => ls <- mapM (fun x => s <- to_string x ;; Ok ("    - " ++ dq ++ s ++ dq)) items ;;
         Ok (label :: ls)
  end.

(** The [lines] array of [manifestToYaml]. *)
Definition yaml_lines (manifest : JsValue) (rrn : string)
  : Result (list string) :=
  name <- (v <- get manifest "name" ;; to_string v) ;;
  manufacturer <- (v <- get manifest "manufacturer" ;; to_string v) ;;
  model <- (v <- get manifest "model" ;; to_string v) ;;
  description <-
    (v <- get manifest "description" ;;
     if truthy v then to_string v else Ok "Robot registered via RCAN protocol") ;;
  status <- get manifest "status" ;;
  links <- get manifest "links" ;;
  urdf <- when_set "urdf_url: " true (get_opt links "urdf") ;;
  github <- when_set "github_url: " true (get_opt links "github") ;;
  website <- when_set "website: " true (get_opt links "website") ;;
  specs <- get manifest "specs" ;;
  specs_block <-
    (if truthy specs
     then weight <- when_set "  weight_kg: " false (get_opt specs "weight_kg") ;;
          dimensions <- when_set "  dimensions: " true (get_opt specs "dimensions") ;;
          dof <- when_set "  dof: " false (get_opt specs "dof") ;;
          compute <- when_set "  compute: " true (get_opt specs "compute") ;;
          ros <- list_block "  ros_version:" (get_opt specs "ros_version") ;;
          sensors <- list_block "  sensors:" (get_opt specs "sensors") ;;
          Ok (["specs:"] ++ weight ++ dimensions ++ dof ++ compute ++ ros
              ++ sensors ++ [EmptyString])%list
     else Ok []) ;;
  owner <- get manifest "owner" ;;
  owner_block <-
    (if truthy owner
     then oname <- (v <- get owner "name" ;; to_string v) ;;
          otype <- (v <- get owner "type" ;; to_string v) ;;
          Ok ["owner:"; "  name: " ++ dq ++ oname ++ dq;
              "  type: " ++ dq ++ otype ++ dq; EmptyString]
     else Ok []) ;;
  ruri <- (v <- get manifest "ruri" ;; to_string v) ;;
  capabilities <- get manifest "capabilities" ;;
  more <- (if truthy capabilities then spread capabilities else Ok []) ;;
  tags <- mapM (fun t => s <- to_string t ;; Ok ("  - " ++ dq ++ s ++ dq))
            (JStr "rcan-synced" :: more) ;;
  let head :=
    ["rrn: " ++ dq ++ rrn ++ dq;
     "name: " ++ dq ++ name ++ dq;
     "manufacturer: " ++ dq ++ manufacturer ++ dq;
     "model: " ++ dq ++ model ++ dq;
     "description: " ++ dq ++ description ++ dq;
     "status: " ++ dq
       ++ (if strict_eq_string status "offline" then "retired" else "active")
       ++ dq;
     EmptyString] in
  let foot :=
    [ruri_line ruri; EmptyString;
     "submitted_by: " ++ dq ++ "rcan-auto-sync" ++ dq;
     "submitted_date: " ++ dq ++ today ++ dq;
     "tags:"] in
  Ok (head ++ urdf ++ github ++ website ++ [EmptyString]
      ++ specs_block ++ owner_block ++ foot ++ tags)%list.

Definition manifestToYaml (manifest : JsValue) (rrn : string) : Result string :=
  lines <- yaml_lines manifest rrn ;;
  Ok (join nl lines ++ nl).

(** What one call of [syncRURI] reports on the console. *)
Inductive Outcome : Type :=
| InvalidFormat
| Failed (e : Exn)
| DryRun (update : bool) (rrn : string) (yamlContent : string)
| Written (update : bool) (rrn : string).

(** [existingRRN || getNextRRN(robotsDir)]: an empty name is falsy. *)
Definition found (existingRRN : option string) : bool :=
  match existingRRN with
  | None | Some EmptyString => false
  | Some _ => true
  end.

Definition syncRURI (ruri : string) (st : Store) (dryRun : bool)
  : Store * Outcome :=
  match parseRURI ruri with
  | None => (st, InvalidFormat)
  | Some parsed =>
      let url := ruriToHttpUrl parsed in
      let attempt :=
        manifest <- fetch url ;;
        _ <- (v <- get manifest "name" ;; to_string v) ;;
        let existingRRN := findExistingByRURI st ruri in
        let rrn :=
          match existingRRN with
          | None | Some EmptyString => getNextRRN st
          | Some e => e
          end in
        yamlContent <- manifestToYaml manifest rrn ;;
        Ok (found existingRRN, rrn, yamlContent) in
      match attempt with
      | Throw e => (st, Failed e)
      | Ok (update, rrn, yamlContent) =>
          if dryRun then (st, DryRun update rrn yamlContent)
          else (writeFileSync st (rrn ++ ".yaml") yamlContent,
                Written update rrn)
      end
  end.

End Script.

End Sync.

(** ** Notions used in the statements *)

Import Ruri Sync.

Module Props.

(** [r] does not begin with a character satisfying [p]. *)
Definition stops (p : ascii -> bool) (r : string) : bool :=
  match r with
  | EmptyString => true
  | String c _ => negb (p c)
  end.

(** Value of a digit string read from an accumulator. *)
Fixpoint dval (s : string) (acc : N) : N :=
  match s with
  | EmptyString => acc
  | String c s' => dval s' (10 * acc + digit_value c)
  end.

(** What the pattern [r] denotes, without any order among the
    alternatives: [r] takes the input from [s] to its suffix [s'] and the
    captures from [caps] to [caps']. *)
Fixpoint matches (ic : bool) (n : nat) (r : regex) (s s' : string)
         (caps caps' : Caps) : Prop :=
  match r with
  | Eps => s' = s /\ caps' = caps
  | Chr a => exists c, s = String c s' /\ same_char ic a c = true /\ caps' = caps
  | Cls cs => exists c, s = String c s' /\ member ic cs c = true /\ caps' = caps
  | Star cs =>
      exists w, s = w ++ s' /\ all_chars (member ic cs) w = true /\ caps' = caps
  | Rep cs lo hi =>
      exists w, s = w ++ s' /\ all_chars (member ic cs) w = true
                /\ lo <= String.length w <= lo + (hi - lo) /\ caps' = caps
  | Seq r1 r2 =>
      exists s1 c1, matches ic n r1 s s1 caps c1 /\ matches ic n r2 s1 s' c1 caps'
  | Opt r1 => matches ic n r1 s s' caps caps' \/ (s' = s /\ caps' = caps)
  | Group i r1 =>
      exists c1, matches ic n r1 s s' caps c1 /\ caps' = (i, consumed s s') :: c1
  | Bol => String.length s = n /\ s' = s /\ caps' = caps
  | Eol => s = EmptyString /\ s' = s /\ caps' = caps
  end.

(** [t] is [p] up to the case of its letters when [ic] is set, [p]
    itself otherwise. *)
Fixpoint same_text (ic : bool) (p t : string) : bool :=
  match p, t with
  | EmptyString, EmptyString => true
  | String a p', String b t' => same_char ic a b && same_text ic p' t'
  | _, _ => false
  end.

Definition case_variant (s t : string) : bool := same_text true s t.

(** Shapes of the components of the grammar. *)
Definition label_shape (inner : cset) (w : string) : Prop :=
  exists a mid z,
    w = String a (mid ++ String z EmptyString)
    /\ member true alnum a = true
    /\ all_chars (member true inner) mid = true
    /\ member true alnum z = true.

Definition hexes (k : nat) (w : string) : Prop :=
  String.length w = k /\ all_chars (member true hex) w = true.

Definition uuid_tail (t : string) : Prop :=
  exists a b c d,
    t = "-" ++ a ++ "-" ++ b ++ "-" ++ c ++ "-" ++ d
    /\ hexes 4 a /\ hexes 4 b /\ hexes 4 c /\ hexes 12 d.

Definition device_shape (w : string) : Prop :=
  exists h t, w = h ++ t /\ hexes 8 h /\ (t = EmptyString \/ uuid_tail t).

Definition port_shape (d : string) : Prop :=
  all_chars (member true digit) d = true /\ 1 <= String.length d <= 5.

Definition name_shape (c : string) : Prop :=
  exists a rest,
    c = String a rest
    /\ member true alpha a = true
    /\ all_chars (member true alnum_slash_dash) rest = true.

Definition path_shape (c : string) : Prop :=
  name_shape c \/ exists c', c = String "/" c' /\ name_shape c'.

(** The text of the six groups of a match. *)
Record Pieces : Type := {
  pc_registry : string;
  pc_manufacturer : string;
  pc_model : string;
  pc_device : string;
  pc_port : option string;
  pc_path : option string
}.

Definition pieces_ok (x : Pieces) : Prop :=
  label_shape alnum_dot_dash (pc_registry x)
  /\ label_shape alnum_dash (pc_manufacturer x)
  /\ label_shape alnum_dash (pc_model x)
  /\ device_shape (pc_device x)
  /\ (forall d, pc_port x = Some d -> port_shape d)
  /\ (forall c, pc_path x = Some c -> path_shape c).

Definition opt_text (lead : string) (o : option string) : string :=
  match o with
  | Some t => lead ++ t
  | None => EmptyString
  end.

Definition assemble (scheme : string) (x : Pieces) : string :=
  scheme ++ pc_registry x ++ "/" ++ pc_manufacturer x ++ "/" ++ pc_model x
  ++ "/" ++ pc_device x ++ opt_text ":" (pc_port x)
  ++ opt_text EmptyString (pc_path x).

Definition opt_capture (i : nat) (o : option string) : Caps :=
  match o with
  | Some t => [(i, t)]
  | None => []
  end.

Definition captures_of (x : Pieces) : Caps :=
  (opt_capture 6 (pc_path x) ++ opt_capture 5 (pc_port x)
   ++ [(4, pc_device x); (3, pc_model x); (2, pc_manufacturer x);
       (1, pc_registry x)])%list.

(** [[a-z][a-z0-9/-]*]: a capability path without its leading slash. *)
Definition capability_name : regex := seq [Cls alpha; Star alnum_slash_dash].

(** [w] is, from end to end, an instance of the sub-pattern [r] of the
    grammar (the [i] flag set). *)
Definition whole (r : regex) (w : string) : bool :=
  match run true (String.length w) r w []
          (fun s' caps =>
             match s' with
             | EmptyString => Some caps
             | String _ _ => None
             end) with
  | Some _ => true
  | None => false
  end.

(** A component set that [RURI_REGEX] takes: every component is an
    instance of its part of the pattern, so that authority and slugs
    have two characters or more, and the port lies in 1..65535. *)
Definition valid_parts (c : RURIParts) : bool :=
  whole (label alnum_dot_dash) (p_registry c)
  && whole (label alnum_dash) (p_manufacturer c)
  && whole (label alnum_dash) (p_model c)
  && whole device_id (p_deviceId c)
  && match p_port c with
     | None => true
     | Some n => (1 <=? n)%Z && (n <=? 65535)%Z
     end
  && match p_capability c with
     | None => true
     | Some name => whole capability_name name
     end.

(** The grammar in the words of the specification, section 4.1: a label
    (the authority, a slug) is made of the characters allowed in it,
    letters of either case, and starts and ends with a letter or a
    digit.  No length is asked for. *)
Definition starts_with_char (p : ascii -> bool) (w : string) : bool :=
  match w with
  | EmptyString => false
  | String a _ => p a
  end.

Fixpoint ends_with_char (p : ascii -> bool) (w : string) : bool :=
  match w with
  | EmptyString => false
  | String a EmptyString => p a
  | String _ rest => ends_with_char p rest
  end.

Definition spec_label (inner : cset) (w : string) : bool :=
  starts_with_char (member true alnum) w
  && all_chars (member true inner) w
  && ends_with_char (member true alnum) w.

(** A component set that is valid by the specification: its labels are
    [spec_label]s; device id, port and capability are as in
    [valid_parts], where the code and the specification agree. *)
Definition spec_valid_parts (c : RURIParts) : bool :=
  spec_label alnum_dot_dash (p_registry c)
  && spec_label alnum_dash (p_manufacturer c)
  && spec_label alnum_dash (p_model c)
  && whole device_id (p_deviceId c)
  && match p_port c with
     | None => true
     | Some n => (1 <=? n)%Z && (n <=? 65535)%Z
     end
  && match p_capability c with
     | None => true
     | Some name => whole capability_name name
     end.

(** Authority and slugs of two characters or more. *)
Definition long_labels (c : RURIParts) : bool :=
  (2 <=? String.length (p_registry c))%nat
  && (2 <=? String.length (p_manufacturer c))%nat
  && (2 <=? String.length (p_model c))%nat.

(** The parsed value that carries the components [c] and the text [s]. *)
Definition parsed_as (s : string) (c : RURIParts) : ParsedRURI :=
  {| raw := s;
     registry := p_registry c;
     manufacturer := p_manufacturer c;
     model := p_model c;
     deviceId := p_deviceId c;
     port := p_port c;
     capability := p_capability c |}.

Definition accepted (p : ParsedRURI) : RURIValidationResult :=
  {| valid := true; error := None; parsed := Some p |}.

(** No white space anywhere. *)
Definition solid (s : string) : bool :=
  all_chars (fun c => negb (is_space c)) s.

(** The pieces [buildRURI] writes for the components [c]. *)
Definition pieces_of (c : RURIParts) : Pieces :=
  {| pc_registry := p_registry c;
     pc_manufacturer := p_manufacturer c;
     pc_model := p_model c;
     pc_device := p_deviceId c;
     pc_port := match p_port c with
                | Some 0%Z | None => None
                | Some n => Some (Z_to_string n)
                end;
     pc_path := match p_capability c with
                | None | Some EmptyString => None
                | Some name => Some ("/" ++ name)
                end |}.

(** White space only. *)
Definition blank (w : string) : bool := all_chars is_space w.

(** Case variants of optional texts, of capture lists and of results. *)
Definition opt_variant (o o' : option string) : Prop :=
  match o, o' with
  | Some s, Some t => case_variant s t = true
  | None, None => True
  | _, _ => False
  end.

Definition caps_variant (c c' : Caps) : Prop :=
  Forall2 (fun e e' => fst e = fst e' /\ case_variant (snd e) (snd e') = true)
          c c'.

Definition result_variant (r r' : option Caps) : Prop :=
  match r, r' with
  | Some c, Some c' => caps_variant c c'
  | None, None => True
  | _, _ => False
  end.

(** The same components up to the case of their letters. *)
Definition same_components (p q : ParsedRURI) : Prop :=
  case_variant (raw p) (raw q) = true
  /\ case_variant (registry p) (registry q) = true
  /\ case_variant (manufacturer p) (manufacturer q) = true
  /\ case_variant (model p) (model q) = true
  /\ case_variant (deviceId p) (deviceId q) = true
  /\ port p = port q
  /\ opt_variant (capability p) (capability q).

(** The record identifier with sequence number [k], and its file. *)
Definition rrn (k : N) : string := "RRN-" ++ padStart (N_to_string k) 8 "0".
Definition rrn_file (k : N) : string := rrn k ++ ".yaml".

(** The files [findExistingByRURI] reads. *)
Definition is_yaml (e : string * string) : bool := endsWith (fst e) ".yaml".

(** A file of the store that [findExistingByRURI] takes for a record of
    the source [ruri]. *)
Definition record_of (ruri : string) (e : string * string) : bool :=
  endsWith (fst e) ".yaml" && includes (snd e) (ruri_line ruri).

Definition records_for (st : Store) (ruri : string) : nat :=
  List.length (filter (record_of ruri) st).

(** A file name that is not a YAML file, or is a non-empty identifier
    followed by the extension, the identifier being what
    [findExistingByRURI] makes of the name. *)
Definition record_name (f : string) : bool :=
  negb (endsWith f ".yaml")
  || (negb (String.eqb (replace f ".yaml" EmptyString) EmptyString)
      && String.eqb (replace f ".yaml" EmptyString ++ ".yaml") f).

(** A directory: distinct file names, each a [record_name]. *)
Definition store_ok (st : Store) : Prop :=
  NoDup (readdirSync st) /\ forallb record_name (readdirSync st) = true.

(** A listing in the order of its names, each less than the next. *)
Fixpoint sorted (l : list string) : bool :=
  match l with
  | a :: (b :: _) as rest => String.ltb a b && sorted rest
  | _ => true
  end.

(** The identifier [syncRURI] settles on. *)
Definition chosen (st : Store) (ruri : string) : string :=
  match findExistingByRURI st ruri with
  | None | Some EmptyString => getNextRRN st
  | Some e => e
  end.

(** The manifests [fetch] serves for the target [ruri] carry that very
    string in their [ruri] field. *)
Definition echoes (fetch : string -> Result JsValue) (ruri : string) : Prop :=
  forall p m,
    Sync.parseRURI ruri = Some p ->
    fetch (Sync.ruriToHttpUrl p) = Ok m ->
    get m "ruri" = Ok (JStr ruri).

(** No dot in a string. *)
Definition dotless (s : string) : bool :=
  all_chars (fun c => negb (Ascii.eqb "." c)) s.

(** The end-to-end example. *)
Definition arm_bot : string := "rcan://example.com/acme/arm-bot/deadbeef".

Definition arm_bot_manifest : JsValue :=
  JObj [("ruri", JStr arm_bot); ("name", JStr "ArmBot");
        ("manufacturer", JStr "Acme"); ("model", JStr "arm-bot");
        ("status", JStr "offline"); ("capabilities", JArr [JStr "grasp"])].

Definition quoted (s : string) : string := dq ++ s ++ dq.

Definition arm_bot_lines (today : string) : list string :=
  ["rrn: " ++ quoted "RRN-00000001";
   "name: " ++ quoted "ArmBot";
   "manufacturer: " ++ quoted "Acme";
   "model: " ++ quoted "arm-bot";
   "description: " ++ quoted "Robot registered via RCAN protocol";
   "status: " ++ quoted "retired";
   EmptyString;
   EmptyString;
   "ruri: " ++ quoted arm_bot;
   EmptyString;
   "submitted_by: " ++ quoted "rcan-auto-sync";
   "submitted_date: " ++ quoted today;
   "tags:";
   "  - " ++ quoted "rcan-synced";
   "  - " ++ quoted "grasp"].

Definition arm_bot_yaml (today : string) : string :=
  join nl (arm_bot_lines today) ++ nl.

(** The same robot answering with its device id in upper case. *)
Definition upper_case_manifest : JsValue :=
  JObj [("ruri", JStr "rcan://example.com/acme/arm-bot/DEADBEEF");
        ("name", JStr "ArmBot");
        ("manufacturer", JStr "Acme"); ("model", JStr "arm-bot")].

(** A manifest without a name. *)
Definition nameless_manifest : JsValue :=
  JObj [("ruri", JStr arm_bot);
        ("manufacturer", JStr "Acme"); ("model", JStr "arm-bot")].

Definition example_parts : RURIParts :=
  {| p_registry := "example.com";
     p_manufacturer := "acme";
     p_model := "arm-bot";
     p_deviceId := "deadbeef";
     p_port := Some 8080%Z;
     p_capability := Some "arm/grasp" |}.

(** Component sets with a slug, and with an authority, of one letter. *)
Definition short_slug : RURIParts :=
  {| p_registry := "example.com";
     p_manufacturer := "a";
     p_model := "arm-bot";
     p_deviceId := "deadbeef";
     p_port := None;
     p_capability := None |}.

Definition short_authority : RURIParts :=
  {| p_registry := "x";
     p_manufacturer := "acme";
     p_model := "arm-bot";
     p_deviceId := "deadbeef";
     p_port := Some 8080%Z;
     p_capability := None |}.

(** A directory with two records and another file. *)
Definition example_store : Store :=
  [("RRN-00000003.yaml", "a"); ("RRN-00000007.yaml", "c"); ("notes.txt", "b")].

(** A run of calls of [syncRURI], each with its own network, date and
    target, all with the same dry-run flag. *)
Definition Call : Type := ((string -> Result JsValue) * string * string)%type.

Fixpoint sync_all (pn : string -> bool) (calls : list Call) (st : Store)
         (dryRun : bool) : Store :=
  match calls with
  | [] => st
  | (fetch, today, ruri) :: rest =>
      sync_all pn rest (fst (syncRURI fetch today pn ruri st dryRun)) dryRun
  end.

End Props.
Import Props.

(** ** The manifest interface *)

Module Manifest.

(** A field declared with [?]: absent, or of the declared type. *)
Definition optional (p : JsValue -> bool) (v : JsValue) : bool :=
  match v with
  | JUndefined => true
  | _ => p v
  end.

Definition is_number (v : JsValue) : bool :=
  match v with
  | JNum _ => true
  | _ => false
  end.

(** [string[]] *)
Definition is_strings (v : JsValue) : bool :=
  match v with
  | JArr items => forallb is_string items
  | _ => false
  end.

(** A union of string literals. *)
Definition one_of (l : list string) (v : JsValue) : bool :=
  match v with
  | JStr s => existsb (String.eqb s) l
  | _ => false
  end.

Definition is_record (v : JsValue) : bool :=
  match v with
  | JObj _ => true
  | _ => false
  end.

(** The interface [RobotManifest] of the sync script, as a predicate on
    the values a response body can hold.  The library declares the same
    interface with one more optional field, [discovery], that no function
    reads. *)
Definition RobotManifest (m : JsValue) : bool :=
  is_record m
  && is_string (get_opt m "ruri")
  && is_string (get_opt m "name")
  && is_string (get_opt m "manufacturer")
  && is_string (get_opt m "model")
  && optional is_string (get_opt m "description")
  && optional is_string (get_opt m "version")
  && optional is_strings (get_opt m "capabilities")
  && optional (one_of ["active"; "idle"; "busy"; "error"; "offline"])
       (get_opt m "status")
  && optional
       (fun specs =>
          is_record specs
          && optional is_number (get_opt specs "weight_kg")
          && optional is_string (get_opt specs "dimensions")
          && optional is_number (get_opt specs "dof")
          && optional is_strings (get_opt specs "sensors")
          && optional is_string (get_opt specs "compute")
          && optional is_strings (get_opt specs "ros_version"))
       (get_opt m "specs")
  && optional
       (fun links =>
          is_record links
          && optional is_string (get_opt links "urdf")
          && optional is_string (get_opt links "github")
          && optional is_string (get_opt links "website")
          && optional is_string (get_opt links "documentation"))
       (get_opt m "links")
  && optional
       (fun owner =>
          is_record owner
          && is_string (get_opt owner "name")
          && one_of ["individual"; "company"; "research"; "community"]
               (get_opt owner "type")
          && optional is_string (get_opt owner "contact"))
       (get_opt m "owner").

End Manifest.
Import Manifest.

(** ** The entry point of the sync script *)

Module Cli.

(** What [fetch] resolves to, as far as [fetchManifest] looks at it:
    [json] is the outcome of parsing the body. *)
Record HttpResponse : Type := {
  ok : bool;
  status : N;
  statusText : string;
  json : Result JsValue
}.

Section Fetch.

(** [fetch(url, { headers: { 'Accept': 'application/json' } })] *)
Variable http : string -> Result HttpResponse.

Definition fetchManifest (url : string) : Result JsValue :=
  response <- http url ;;
  if negb (ok response)
  then Throw (FetchError ("HTTP " ++ N_to_string (status response) ++ ": "
                          ++ statusText response))
  else json response.

End Fetch.

(** [\s], the white space below 256. *)
Definition space : cset := [Range "009" "013"; Single " "; Single "160"].

(** The class of every code unit but the double quote. *)
Definition not_quote : cset := [Range "000" "!"; Range "#" "255"].

(** The pattern of the scan: [ruri:], any white space, and between two
    double quotes group 1, [rcan://] followed by one or more characters
    other than a double quote (one occurrence, then a starred class). *)
Definition RURI_LINE : regex :=
  seq (lit "ruri:"
       ++ [Star space;
           Chr "034";
           Group 1 (seq (lit "rcan://" ++ [Cls not_quote; Star not_quote]));
           Chr "034"]).

(** [fs.readFileSync(path.join(robotsDir, file), 'utf-8')]; [None] when
    there is no such file, where the call throws. *)
Definition readFileSync (st : Store) (file : string) : option string :=
  match find (fun e => String.eqb (fst e) file) st with
  | Some e => Some (snd e)
  | None => None
  end.

(** [ruriMatch && ruriMatch[1]], the target read from a record. *)
Definition scan_target (content : string) : option string :=
  match exec false RURI_LINE content with
  | None => None
  | Some m =>
      match capture 1 m with
      | None | Some EmptyString => None
      | Some ruri => Some ruri
      end
  end.

(** [args.includes(flag)] *)
Definition has_flag (flag : string) (args : list string) : bool :=
  existsb (String.eqb flag) args.

(** [args[args.indexOf(flag) + 1]], [None] when the flag is absent or
    comes last. *)
Fixpoint after_flag (flag : string) (args : list string) : option string :=
  match args with
  | [] => None
  | a :: rest =>
      if String.eqb a flag then hd_error rest else after_flag flag rest
  end.

(** How the process ends: [Done] after the last line of [main], [Exit1]
    through [process.exit(1)]. *)
Inductive Exit : Type :=
| Done
| Exit1.

(** A run of the script: the directory it leaves ([None] when there is
    none), what each call of [syncRURI] reported, and the exit. *)
Record Run : Type := {
  directory : option Store;
  reports : list Outcome;
  exit : Exit
}.

Section Main.

Variable fetch : string -> Result JsValue.
Variable today : string.
Variable positive_numeral : string -> bool.

(** The loop over the files listed before the first sync.  Each file is
    read when its turn comes, from the directory the earlier syncs have
    left; a read that throws rejects [main], whose handler exits. *)
Fixpoint scan (files : list string) (st : Store) (dryRun : bool) : Run :=
  match files with
  | [] => {| directory := Some st; reports := []; exit := Done |}
  | file :: rest =>
      match readFileSync st file with
      | None => {| directory := Some st; reports := []; exit := Exit1 |}
      | Some content =>
          match scan_target content with
          | Some ruri =>
              let (st1, outcome) :=
                syncRURI fetch today positive_numeral ruri st dryRun in
              let r := scan rest st1 dryRun in
              {| directory := directory r;
                 reports := outcome :: reports r;
                 exit := exit r |}
          | None => scan rest st dryRun
          end
      end
  end.

(** [main], given [process.argv.slice(2)] and the robots directory,
    [None] when it does not exist. *)
Definition main (args : list string) (robotsDir : option Store) : Run :=
  let dryRun := has_flag "--dry-run" args in
  let specificRuri := after_flag "--ruri" args in
  match robotsDir with
  | None => {| directory := None; reports := []; exit := Exit1 |}
  | Some st =>
      match specificRuri with
      | Some (String _ _ as ruri) =>
          let (st1, outcome) :=
            syncRURI fetch today positive_numeral ruri st dryRun in
          {| directory := Some st1; reports := [outcome]; exit := Done |}
      | _ =>
          scan (filter (fun f => endsWith f ".yaml") (readdirSync st)) st dryRun
      end
  end.

End Main.

End Cli.
Import Cli.

(** ** The badge endpoint *)

Module Badge.

Record RobotData : Type := {
  rrn : string;
  name : string;
  status : string
}.

Record Colors : Type := {
  bg : string;
  text : string
}.

Definition statusColors : list (string * Colors) :=
  [("active", {| bg := "#22c55e"; text := "#ffffff" |});
   ("retired", {| bg := "#6b7280"; text := "#ffffff" |});
   ("prototype", {| bg := "#f59e0b"; text := "#000000" |});
   ("concept", {| bg := "#8b5cf6"; text := "#ffffff" |})].

(** The property names an object literal inherits from
    [Object.prototype]. *)
Definition inherited : list string :=
  ["constructor"; "hasOwnProperty"; "isPrototypeOf"; "propertyIsEnumerable";
   "toLocaleString"; "toString"; "valueOf"; "__proto__";
   "__defineGetter__"; "__defineSetter__"; "__lookupGetter__";
   "__lookupSetter__"].

(** What [statusColors[key]] evaluates to when it is not [undefined]: an
    entry of the table, or an inherited member, which has no [bg] and no
    [text]. *)
Inductive Slot : Type :=
| Own (colors : Colors)
| Inherited.

Fixpoint assoc {A} (key : string) (l : list (string * A)) : option A :=
  match l with
  | [] => None
  | (k, v) :: rest => if String.eqb k key then Some v else assoc key rest
  end.

(** [statusColors[key]] *)
Definition statusColors_at (key : string) : option Slot :=
  match assoc key statusColors with
  | Some c => Some (Own c)
  | None => if existsb (String.eqb key) inherited then Some Inherited else None
  end.

(** [statusColors.active] *)
Definition active : Colors := {| bg := "#22c55e"; text := "#ffffff" |}.

(** [`${colors.bg}`] and [`${colors.text}`] *)
Definition bg_of (s : Slot) : string :=
  match s with
  | Own c => bg c
  | Inherited => "undefined"
  end.

Definition text_of (s : Slot) : string :=
  match s with
  | Own c => text c
  | Inherited => "undefined"
  end.

(** The numbers of the layout are multiples of a quarter; they are held
    as counts of quarters.  For strings of fewer than 2^40 code units
    every product, sum and half below is exact in double precision, and
    a template literal prints such a number by its full decimal
    expansion. *)
Definition Quarters := N.

Definition units (n : N) : Quarters := (4 * n)%N.

(** [n * 6.5] *)
Definition times_six_and_a_half (n : N) : Quarters := (26 * n)%N.

(** [x / 2], exact on the widths, whose counts are even. *)
Definition half (x : Quarters) : Quarters := (x / 2)%N.

Definition number_text (x : Quarters) : string :=
  N_to_string (x / 4)
  ++ match (x mod 4)%N with
     | 0%N => EmptyString
     | 1%N => ".25"
     | 2%N => ".5"
     | _ => ".75"
     end.

(** An attribute: the name, an equals sign and the value between double
    quotes. *)
Definition attr (name value : string) : string :=
  name ++ "=" ++ dq ++ value ++ dq.

Definition generateBadgeSVG (robot : RobotData) (style : string)
           (customLabel : option string) : string :=
  let label :=
    match customLabel with
    | None | Some EmptyString => "RCAN"
    | Some l => l
    end in
  let message := rrn robot in
  let status := status robot in
  let colors :=
    match statusColors_at status with
    | Some s => s
    | None => Own active
    end in
  let labelWidth : Quarters := units (N.of_nat (String.length label) * 7 + 10) in
  let messageWidth : Quarters :=
    (times_six_and_a_half (N.of_nat (String.length message)) + units 10)%N in
  let statusWidth : Quarters := units (N.of_nat (String.length status) * 6 + 10) in
  let totalWidth : Quarters := (labelWidth + messageWidth + statusWidth)%N in
  let height : Quarters := units 20 in
  let radius : Quarters :=
    if String.eqb style "flat-square" then units 0
    else if String.eqb style "plastic" then units 4 else units 3 in
  let gradientDef :=
    if String.eqb style "plastic"
    then "<linearGradient " ++ attr "id" "grad" ++ " " ++ attr "x2" "0" ++ " "
         ++ attr "y2" "100%" ++ ">" ++ nl
         ++ "        <stop " ++ attr "offset" "0" ++ " "
         ++ attr "stop-color" "#fff" ++ " " ++ attr "stop-opacity" ".15"
         ++ "/>" ++ nl
         ++ "        <stop " ++ attr "offset" "1" ++ " "
         ++ attr "stop-opacity" ".15" ++ "/>" ++ nl
         ++ "       </linearGradient>"
    else EmptyString in
  let gradientOverlay :=
    if String.eqb style "plastic"
    then "<rect " ++ attr "rx" (number_text radius) ++ " "
         ++ attr "width" (number_text totalWidth) ++ " "
         ++ attr "height" (number_text height) ++ " "
         ++ attr "fill" "url(#grad)" ++ "/>"
    else EmptyString in
  "<svg " ++ attr "xmlns" "http://www.w3.org/2000/svg" ++ " "
  ++ attr "width" (number_text totalWidth) ++ " "
  ++ attr "height" (number_text height) ++ " "
  ++ attr "role" "img" ++ " "
  ++ attr "aria-label" (label ++ ": " ++ message) ++ ">" ++ nl
  ++ "  <title>" ++ label ++ ": " ++ message ++ " (" ++ status ++ ")</title>"
  ++ nl
  ++ "  " ++ gradientDef ++ nl
  ++ "  <clipPath " ++ attr "id" "c" ++ ">" ++ nl
  ++ "    <rect " ++ attr "width" (number_text totalWidth) ++ " "
  ++ attr "height" (number_text height) ++ " "
  ++ attr "rx" (number_text radius) ++ "/>" ++ nl
  ++ "  </clipPath>" ++ nl
  ++ "  <g " ++ attr "clip-path" "url(#c)" ++ ">" ++ nl
  ++ "    <rect " ++ attr "width" (number_text labelWidth) ++ " "
  ++ attr "height" (number_text height) ++ " " ++ attr "fill" "#555" ++ "/>"
  ++ nl
  ++ "    <rect " ++ attr "x" (number_text labelWidth) ++ " "
  ++ attr "width" (number_text messageWidth) ++ " "
  ++ attr "height" (number_text height) ++ " " ++ attr "fill" "#007ec6"
  ++ "/>" ++ nl
  ++ "    <rect " ++ attr "x" (number_text (labelWidth + messageWidth)%N)
  ++ " " ++ attr "width" (number_text statusWidth) ++ " "
  ++ attr "height" (number_text height) ++ " "
  ++ attr "fill" (bg_of colors) ++ "/>" ++ nl
  ++ "    " ++ gradientOverlay ++ nl
  ++ "  </g>" ++ nl
  ++ "  <g " ++ attr "fill" "#fff" ++ " " ++ attr "text-anchor" "middle" ++ " "
  ++ attr "font-family" "Verdana,Geneva,DejaVu Sans,sans-serif" ++ " "
  ++ attr "font-size" "11" ++ ">" ++ nl
  ++ "    <text " ++ attr "x" (number_text (half labelWidth)) ++ " "
  ++ attr "y" "14" ++ " " ++ attr "fill" "#fff" ++ ">" ++ label ++ "</text>"
  ++ nl
  ++ "    <text "
  ++ attr "x" (number_text (labelWidth + half messageWidth)%N) ++ " "
  ++ attr "y" "14" ++ " " ++ attr "fill" "#fff" ++ ">" ++ message ++ "</text>"
  ++ nl
  ++ "    <text "
  ++ attr "x" (number_text (labelWidth + messageWidth + half statusWidth)%N)
  ++ " " ++ attr "y" "14" ++ " " ++ attr "fill" (text_of colors) ++ ">"
  ++ status ++ "</text>" ++ nl
  ++ "  </g>" ++ nl
  ++ "</svg>".

(** An entry of the content collection. *)
Record CollectionEntry : Type := {
  data : RobotData
}.



(** The argument of the handler: [params.rrn], the pairs of
    [url.searchParams] in the order of the query, and [props.robot]. *)
Record APIContext : Type := {
  params_rrn : option string;
  searchParams : list (string * string);
  props_robot : option RobotData
}.

(** A response: its body, its status and the headers the handler sets. *)
Record Response : Type := {
  body : string;
  code : N;
  headers : list (string * string)
}.

(** [url.searchParams.get(key)]: the first value of the key. *)
Definition searchParams_get (q : list (string * string)) (key : string)
  : option string :=
  assoc key q.

(** [url.searchParams.get('style') || 'flat'] *)
Definition style_of (q : list (string * string)) : string :=
  match searchParams_get q "style" with
  | None | Some EmptyString => "flat"
  | Some s => s
  end.

(** [url.searchParams.get('label') || undefined] *)
Definition label_of (q : list (string * string)) : option string :=
  match searchParams_get q "label" with
  | None | Some EmptyString => None
  | Some l => Some l
  end.

Definition svg_response (svg : string) : Response :=
  {| body := svg;
     code := 200;
     headers := [("Content-Type", "image/svg+xml");
                 ("Cache-Control", "public, max-age=86400")] |}.

(** The handler [GET], given what [getCollection('robots')] resolves
    to. *)
Definition GET (robots : list CollectionEntry) (ctx : APIContext) : Response :=
  match props_robot ctx with
  | None =>
      let found :=
        find (fun r =>
                match params_rrn ctx with
                | Some x => String.eqb (rrn (data r)) x
                | None => false
                end) robots in
      match found with
      | None => {| body := "Robot not found"; code := 404; headers := [] |}
      | Some found =>
          let style := style_of (searchParams ctx) in
          let label := label_of (searchParams ctx) in
          svg_response (generateBadgeSVG (data found) style label)
      end
  | Some robot =>
      let style := style_of (searchParams ctx) in
      let label := label_of (searchParams ctx) in
      svg_response (generateBadgeSVG robot style label)
  end.

End Badge.

(** ** Further notions used in the statements *)

Module Terms.

(** [parsed.port || 8080] *)
Definition effective_port (p : ParsedRURI) : Z :=
  match port p with
  | Some 0%Z | None => 8080%Z
  | Some n => n
  end.

(** No double quote in a string. *)
Definition quote_free (s : string) : bool :=
  all_chars (fun c => negb (Ascii.eqb c "034")) s.

(** No occurrence of the text [ruri:] in a string. *)
Definition marker_free (s : string) : bool := negb (includes s "ruri:").

(** A value that [manifestToYaml] renders without the text [ruri:]. *)
Definition rendered_free (v : JsValue) : bool :=
  match v with
  | JStr s => marker_free s
  | JNum x => marker_free (num_string x)
  | JArr items =>
      forallb (fun item =>
                 match item with
                 | JStr s => marker_free s
                 | _ => true
                 end) items
  | _ => true
  end.

(** Lines without the text [ruri:]. *)
Definition all_free (lines : list string) : Prop :=
  Forall (fun line => marker_free line = true) lines.

(** The values that [manifestToYaml] writes before the line of the
    identifier. *)
Definition leading_values (m : JsValue) : list JsValue :=
  [get_opt m "name"; get_opt m "manufacturer"; get_opt m "model";
   get_opt m "description";
   get_opt (get_opt m "links") "urdf";
   get_opt (get_opt m "links") "github";
   get_opt (get_opt m "links") "website";
   get_opt (get_opt m "specs") "weight_kg";
   get_opt (get_opt m "specs") "dimensions";
   get_opt (get_opt m "specs") "dof";
   get_opt (get_opt m "specs") "compute";
   get_opt (get_opt m "specs") "ros_version";
   get_opt (get_opt m "specs") "sensors";
   get_opt (get_opt m "owner") "name";
   get_opt (get_opt m "owner") "type"].

(** An identifier as the pattern of the scan takes it: [rcan://], at
    least one more character, no double quote. *)
Definition scannable (ruri : string) : bool :=
  startsWith ruri "rcan://" && (7 <? String.length ruri)%nat
  && quote_free ruri.

(** A manifest of the interface whose record shows its identifier to the
    scan: the identifier is scannable and nothing rendered before it
    holds the text [ruri:]. *)
Definition plain_manifest (m : JsValue) : bool :=
  RobotManifest m
  && forallb rendered_free (leading_values m)
  && match get_opt m "ruri" with
     | JStr ruri => scannable ruri
     | _ => false
     end.

(** A record whose target, as the scan reads it, is also what the
    lookup searches for. *)
Definition canonical (content : string) : Prop :=
  forall ruri, scan_target content = Some ruri ->
               includes content (ruri_line ruri) = true.

(** What a scan relies on to update in place: a well-formed directory
    whose file names do not hold the text [ruri:] and whose records are
    canonical. *)
Definition scan_ready (st : Store) : Prop :=
  store_ok st
  /\ Forall (fun f => marker_free f = true) (readdirSync st)
  /\ forall f c, In (f, c) st -> endsWith f ".yaml" = true -> canonical c.

(** A report of an update, or of no write at all. *)
Definition no_creation (outcome : Outcome) : Prop :=
  match outcome with
  | Written update _ | DryRun update _ _ => update = true
  | InvalidFormat | Failed _ => True
  end.

(** A name that closes its own quotes and goes on, on a new line, with
    the line of another identifier, left open for the quote that
    [manifestToYaml] adds. *)
Definition planting_name (a planted : string) : string :=
  a ++ dq ++ nl ++ "ruri: " ++ dq ++ planted.

(** A manifest with such a name. *)
Definition planting_manifest : JsValue :=
  JObj [("ruri", JStr arm_bot);
        ("name", JStr (planting_name "ArmBot"
                         "rcan://example.org/evil/bot/0badcafe"));
        ("manufacturer", JStr "Acme"); ("model", JStr "arm-bot")].

(** A manifest that passes [validateManifest] without conforming to the
    interface: its [sensors] are a string. *)
Definition loose_manifest : JsValue :=
  JObj [("ruri", JStr arm_bot); ("name", JStr "ArmBot");
        ("manufacturer", JStr "Acme"); ("model", JStr "arm-bot");
        ("specs", JObj [("sensors", JStr "lidar")])].

End Terms.
Import Terms.

(** ** Writes to the directory *)

Section Writes.

Lemma present_spec (st : Store) (f : string) :
  existsb (String.eqb f) (readdirSync st) = true <-> In f (readdirSync st).
Proof.
  rewrite existsb_exists. split.
  - intros (g & G & E). apply String.eqb_eq in E. now subst.
  - intros H. exists f. split; [exact H | apply String.eqb_refl].
Qed.

Lemma writeFileSync_present (st : Store) (f y : string) :
  In f (readdirSync st) -> writeFileSync st f y = overwrite st f y.
Proof.
  intros H. unfold writeFileSync.
  now rewrite (proj2 (present_spec st f) H).
Qed.

Lemma writeFileSync_absent (st : Store) (f y : string) :
  ~ In f (readdirSync st) -> writeFileSync st f y = insert st f y.
Proof.
  intros H. unfold writeFileSync.
  destruct (existsb (String.eqb f) (readdirSync st)) eqn:E; [|reflexivity].
  apply present_spec in E. contradiction.
Qed.

(** The two cases of a write. *)
Lemma writeFileSync_cases (st : Store) (f y : string) :
  (In f (readdirSync st) /\ writeFileSync st f y = overwrite st f y)
  \/ (~ In f (readdirSync st) /\ writeFileSync st f y = insert st f y).
Proof.
  destruct (in_dec string_dec f (readdirSync st)) as [I | N].
  - left. split; [exact I | now apply writeFileSync_present].
  - right. split; [exact N | now apply writeFileSync_absent].
Qed.

Lemma overwrite_names (st : Store) (f y : string) :
  readdirSync (overwrite st f y) = readdirSync st.
Proof.
  unfold readdirSync. induction st as [|[h c] st IH]; [reflexivity|].
  cbn [overwrite]. destruct (String.eqb h f); cbn [map fst]; [reflexivity|].
  now rewrite IH.
Qed.

Lemma overwrite_length (st : Store) (f y : string) :
  List.length (overwrite st f y) = List.length st.
Proof.
  induction st as [|[h c] st IH]; [reflexivity|].
  cbn [overwrite]. destruct (String.eqb h f); cbn [List.length]; congruence.
Qed.

(** A new file takes one place of the listing and moves no other. *)
Lemma insert_split (st : Store) (f y : string) :
  exists a b, st = (a ++ b)%list /\ insert st f y = (a ++ (f, y) :: b)%list.
Proof.
  induction st as [|[h c] st IH].
  - exists [], []. split; reflexivity.
  - cbn [insert]. destruct (String.ltb f h).
    + exists [], ((h, c) :: st). split; reflexivity.
    + destruct IH as (a & b & E & ->).
      exists ((h, c) :: a), b. split; [|reflexivity].
      cbn [app]. now rewrite <- E.
Qed.

Lemma insert_names_in (st : Store) (f y g : string) :
  In g (readdirSync (insert st f y)) <-> g = f \/ In g (readdirSync st).
Proof.
  destruct (insert_split st f y) as (a & b & -> & ->).
  unfold readdirSync. rewrite !map_app. cbn [map fst].
  rewrite !in_app_iff. cbn [In]. intuition.
Qed.

Lemma insert_length (st : Store) (f y : string) :
  List.length (insert st f y) = S (List.length st).
Proof.
  destruct (insert_split st f y) as (a & b & -> & ->).
  rewrite !length_app. cbn [List.length]. lia.
Qed.

Lemma insert_In (st : Store) (g y f c : string) :
  In (f, c) (insert st g y) <-> (f, c) = (g, y) \/ In (f, c) st.
Proof.
  destruct (insert_split st g y) as (a & b & -> & ->).
  rewrite !in_app_iff. cbn [In]. intuition.
Qed.

Lemma overwrite_In (st : Store) (g y f c : string) :
  In (f, c) (overwrite st g y) -> (f, c) = (g, y) \/ In (f, c) st.
Proof.
  induction st as [|[h d] st IH]; cbn [overwrite]; [intros []|].
  destruct (String.eqb h g) eqn:E.
  - apply String.eqb_eq in E. subst h.
    intros [[= <- <-] | I]; [now left | right; now right].
  - intros [I | I]; [right; now left|].
    destruct (IH I); [now left | right; now right].
Qed.

Lemma ltb_total (a b : string) :
  a <> b -> String.ltb a b = false -> String.ltb b a = true.
Proof.
  unfold String.ltb. intros N. rewrite (String.compare_antisym b a).
  destruct (String.compare a b) eqn:C; try discriminate; [|reflexivity].
  apply String.compare_eq_iff in C. contradiction.
Qed.

Lemma sorted_cons (a : string) (l : list string) :
  sorted (a :: l) = true ->
  sorted l = true /\ (forall b t, l = b :: t -> String.ltb a b = true).
Proof.
  destruct l as [|b t]; [intros _; split; [reflexivity | discriminate]|].
  cbn [sorted]. intros H. apply andb_true_iff in H as [H1 H2].
  split; [exact H2|]. now intros ? ? [= <- <-].
Qed.

(** A new file is listed at the place of its name. *)
Lemma insert_sorted (st : Store) (f y : string) :
  ~ In f (readdirSync st) -> sorted (readdirSync st) = true ->
  sorted (readdirSync (insert st f y)) = true.
Proof.
  induction st as [|[h c] st IH]; [reflexivity|].
  cbn [readdirSync map fst In]. fold (readdirSync st). intros N S.
  cbn [insert]. destruct (String.ltb f h) eqn:L.
  - cbn [readdirSync map fst sorted]. fold (readdirSync st).
    cbn [readdirSync map fst] in S. now rewrite L.
  - cbn [readdirSync map fst]. fold (readdirSync (insert st f y)).
    apply sorted_cons in S as [S1 S2].
    assert (T : sorted (readdirSync (insert st f y)) = true)
      by (apply IH; [tauto | exact S1]).
    assert (Hf : String.ltb h f = true)
      by (apply ltb_total; [intros E; apply N; now left | exact L]).
    destruct st as [|[k d] st]; cbn [insert readdirSync map fst] in *.
    + cbn [sorted]. now rewrite Hf.
    + destruct (String.ltb f k); cbn [map fst sorted] in *.
      * rewrite Hf. exact T.
      * rewrite (S2 k _ eq_refl). exact T.
Qed.

Lemma writeFileSync_sorted (st : Store) (f y : string) :
  sorted (readdirSync st) = true ->
  sorted (readdirSync (writeFileSync st f y)) = true.
Proof.
  intros S. destruct (writeFileSync_cases st f y) as [[I ->] | [N ->]].
  - now rewrite overwrite_names.
  - now apply insert_sorted.
Qed.

Lemma writeFileSync_length (st : Store) (f y : string) :
  List.length (writeFileSync st f y)
  = if existsb (String.eqb f) (readdirSync st)
    then List.length st else S (List.length st).
Proof.
  unfold writeFileSync. destruct (existsb _ _).
  - apply overwrite_length.
  - apply insert_length.
Qed.

Lemma writeFileSync_In (st : Store) (g y f c : string) :
  In (f, c) (writeFileSync st g y) -> (f, c) = (g, y) \/ In (f, c) st.
Proof.
  destruct (writeFileSync_cases st g y) as [[_ ->] | [_ ->]].
  - apply overwrite_In.
  - apply insert_In.
Qed.

(** Reading after a write. *)
Lemma overwrite_read (st : Store) (f y g : string) :
  In f (readdirSync st) ->
  readFileSync (overwrite st f y) g
  = if String.eqb f g then Some y else readFileSync st g.
Proof.
  unfold readFileSync.
  induction st as [|[h c] st IH]; [intros []|].
  cbn [readdirSync map fst In overwrite]. fold (readdirSync st). intros I.
  destruct (String.eqb h f) eqn:E; cbn [find fst snd].
  - apply String.eqb_eq in E. subst h.
    destruct (String.eqb f g); reflexivity.
  - destruct (String.eqb h g) eqn:G.
    + apply String.eqb_eq in G. subst h. now rewrite String.eqb_sym, E.
    + apply IH. destruct I as [I | I]; [|exact I].
      subst h. now rewrite String.eqb_refl in E.
Qed.

Lemma insert_read (st : Store) (f y g : string) :
  ~ In f (readdirSync st) ->
  readFileSync (insert st f y) g
  = if String.eqb f g then Some y else readFileSync st g.
Proof.
  unfold readFileSync.
  induction st as [|[h c] st IH]; cbn [readdirSync map fst In insert].
  - intros _. cbn [find fst snd]. destruct (String.eqb f g); reflexivity.
  - fold (readdirSync st). intros N.
    destruct (String.ltb f h); cbn [find fst snd].
    + destruct (String.eqb f g); reflexivity.
    + destruct (String.eqb h g) eqn:G.
      * apply String.eqb_eq in G. subst h.
        destruct (String.eqb_spec f g) as [-> | _]; [tauto | reflexivity].
      * apply IH. tauto.
Qed.

Lemma readFileSync_write (st : Store) (f y g : string) :
  readFileSync (writeFileSync st f y) g
  = if String.eqb f g then Some y else readFileSync st g.
Proof.
  destruct (writeFileSync_cases st f y) as [[I ->] | [N ->]].
  - now apply overwrite_read.
  - now apply insert_read.
Qed.

Lemma readFileSync_In (st : Store) (f : string) :
  In f (readdirSync st) <-> exists c, readFileSync st f = Some c.
Proof.
  unfold readFileSync.
  induction st as [|[h c] st IH]; cbn [readdirSync map fst In find snd].
  - split; [intros [] | intros [c [=]]].
  - destruct (String.eqb h f) eqn:E.
    + apply String.eqb_eq in E. split; eauto.
    + apply String.eqb_neq in E. rewrite <- IH. tauto.
Qed.

End Writes.

(** * Properties *)

(** ** Strings *)

Section StringFacts.

Lemma append_nil_r (s : string) : s ++ EmptyString = s.
Proof. induction s as [|c s IH]; simpl; [reflexivity | now rewrite IH]. Qed.

Lemma append_assoc (a b c : string) : (a ++ b) ++ c = a ++ b ++ c.
Proof. induction a as [|x a IH]; simpl; [reflexivity | now rewrite IH]. Qed.

Lemma length_append (a b : string) :
  String.length (a ++ b) = String.length a + String.length b.
Proof. induction a as [|x a IH]; simpl; [reflexivity | now rewrite IH]. Qed.

Lemma append_inv_length (a b c d : string) :
  a ++ b = c ++ d -> String.length a = String.length c -> a = c /\ b = d.
Proof.
  revert c; induction a as [|x a IH]; intros [|y c] H L; simpl in *;
    try discriminate; [now split|].
  injection H as -> H. injection L as L.
  destruct (IH c H L) as [-> ->]. now split.
Qed.

Lemma append_inv_head (a b c : string) : a ++ b = a ++ c -> b = c.
Proof. intros H. now destruct (append_inv_length a b a c H eq_refl). Qed.

Lemma append_inv_tail (a b c : string) : a ++ c = b ++ c -> a = b.
Proof.
  intros H. apply (append_inv_length a c b c H).
  apply (f_equal String.length) in H. rewrite !length_append in H. lia.
Qed.

Lemma take_append (a b : string) : take (String.length a) (a ++ b) = a.
Proof. induction a as [|x a IH]; simpl; [now destruct b | now rewrite IH]. Qed.

Lemma drop_append (a b : string) : drop (String.length a) (a ++ b) = b.
Proof. induction a as [|x a IH]; simpl; [reflexivity | exact IH]. Qed.

Lemma consumed_append (w rest : string) : consumed (w ++ rest) rest = w.
Proof.
  unfold consumed. rewrite length_append.
  replace (String.length w + String.length rest - String.length rest)
    with (String.length w) by lia.
  apply take_append.
Qed.

Lemma all_chars_append p (a b : string) :
  all_chars p (a ++ b) = all_chars p a && all_chars p b.
Proof.
  induction a as [|x a IH]; simpl; [reflexivity|].
  now rewrite IH, andb_assoc.
Qed.

Lemma all_chars_impl (p q : ascii -> bool) (s : string) :
  (forall c, p c = true -> q c = true) ->
  all_chars p s = true -> all_chars q s = true.
Proof.
  intros I. induction s as [|c s IH]; simpl; [reflexivity|].
  rewrite !andb_true_iff. intros [H1 H2]. split; auto.
Qed.

Lemma startsWith_append (p s : string) : startsWith (p ++ s) p = true.
Proof.
  induction p as [|c p IH]; simpl; [reflexivity|].
  now rewrite Ascii.eqb_refl, IH.
Qed.

Lemma startsWith_inv (s p : string) :
  startsWith s p = true -> s = p ++ drop (String.length p) s.
Proof.
  revert s; induction p as [|c p IH]; intros s H; simpl in *; [reflexivity|].
  destruct s as [|d s]; [discriminate|].
  apply andb_true_iff in H as [E H]. apply Ascii.eqb_eq in E as ->.
  simpl. now rewrite <- (IH s H).
Qed.

Lemma includes_here (p s : string) : includes (p ++ s) p = true.
Proof.
  destruct p as [|c p]; [destruct s; reflexivity|].
  simpl. now rewrite Ascii.eqb_refl, startsWith_append.
Qed.

Lemma includes_append (a p b : string) : includes (a ++ p ++ b) p = true.
Proof.
  induction a as [|c a IH]; [simpl; apply includes_here|].
  simpl. rewrite IH. apply orb_true_r.
Qed.

Lemma endsWith_append (a p : string) : endsWith (a ++ p) p = true.
Proof.
  unfold endsWith. rewrite length_append.
  replace (String.length a + String.length p - String.length p)
    with (String.length a) by lia.
  rewrite drop_append, String.eqb_refl.
  apply andb_true_iff; split; [apply Nat.leb_le; lia | reflexivity].
Qed.

Lemma take_drop (k : nat) (s : string) : take k s ++ drop k s = s.
Proof.
  revert k; induction s as [|c s IH]; intros [|k]; simpl; try reflexivity.
  now rewrite IH.
Qed.

Lemma split_at (k : nat) (s : string) :
  k <= String.length s ->
  exists a b, s = a ++ b /\ String.length a = k.
Proof.
  intros L. exists (take k s), (drop k s). split; [now rewrite take_drop|].
  revert s L; induction k as [|k IH]; intros [|c s] L; simpl in *;
    try lia; auto with arith.
Qed.

Lemma endsWith_inv (s p : string) :
  endsWith s p = true -> exists a, s = a ++ p.
Proof.
  unfold endsWith. intros H. apply andb_true_iff in H as [_ E].
  apply String.eqb_eq in E.
  exists (take (String.length s - String.length p) s).
  rewrite <- E at 2. symmetry. apply take_drop.
Qed.

(** Two ways of cutting a string after a run of [p]-characters agree. *)
Lemma span_unique p (w1 r1 w2 r2 : string) :
  w1 ++ r1 = w2 ++ r2 ->
  all_chars p w1 = true -> all_chars p w2 = true ->
  stops p r1 = true -> stops p r2 = true ->
  w1 = w2 /\ r1 = r2.
Proof.
  revert w2; induction w1 as [|c w1 IH]; intros [|d w2] E A1 A2 S1 S2;
    simpl in *.
  - now split.
  - subst r1. simpl in S1. apply andb_true_iff in A2 as [A2 _].
    rewrite A2 in S1. discriminate.
  - subst r2. simpl in S2. apply andb_true_iff in A1 as [A1 _].
    rewrite A1 in S2. discriminate.
  - injection E as -> E.
    apply andb_true_iff in A1 as [_ A1]. apply andb_true_iff in A2 as [_ A2].
    destruct (IH w2 E A1 A2 S1 S2) as [-> ->]. now split.
Qed.

End StringFacts.

(** ** The matcher against the denotation of patterns *)

Section MatcherFacts.

Variable ic : bool.
Variable n : nat.

Lemma star_sound {A} p (s : string) (k : string -> option A) res :
  star p s k = Some res ->
  exists w s', s = w ++ s' /\ all_chars p w = true /\ k s' = Some res.
Proof.
  induction s as [|c s IH]; simpl; intros H.
  - exists EmptyString, EmptyString. auto.
  - destruct (p c) eqn:Pc.
    + destruct (star p s k) as [r|] eqn:E.
      * injection H as ->. destruct (IH eq_refl) as (w & s' & -> & W & K).
        exists (String c w), s'. simpl. rewrite Pc. auto.
      * exists EmptyString, (String c s). auto.
    + exists EmptyString, (String c s). auto.
Qed.

Lemma star_here {A} p (s : string) (k : string -> option A) res :
  k s = Some res -> exists res', star p s k = Some res'.
Proof.
  intros K. destruct s as [|c s]; simpl; [eauto|].
  destruct (p c); [|eauto]. destruct (star p s k); eauto.
Qed.

Lemma star_complete {A} p (w s' : string) (k : string -> option A) res :
  all_chars p w = true -> k s' = Some res ->
  exists res', star p (w ++ s') k = Some res'.
Proof.
  induction w as [|c w IH]; simpl; intros W K.
  - eapply star_here; eauto.
  - apply andb_true_iff in W as [Pc W]. rewrite Pc.
    destruct (IH W K) as [r ->]. eauto.
Qed.

Lemma upto_sound {A} p hi (s : string) (k : string -> option A) res :
  upto p hi s k = Some res ->
  exists w s', s = w ++ s' /\ all_chars p w = true
               /\ String.length w <= hi /\ k s' = Some res.
Proof.
  revert s; induction hi as [|hi IH]; intros s; simpl; intros H.
  - exists EmptyString, s. auto.
  - destruct s as [|c s]; [exists EmptyString, EmptyString; simpl; auto with arith|].
    destruct (p c) eqn:Pc.
    + destruct (upto p hi s k) as [r|] eqn:E.
      * injection H as ->. destruct (IH s E) as (w & s' & -> & W & L & K).
        exists (String c w), s'. simpl. rewrite Pc. auto with arith.
      * exists EmptyString, (String c s). simpl. auto with arith.
    + exists EmptyString, (String c s). simpl. auto with arith.
Qed.

Lemma upto_here {A} p hi (s : string) (k : string -> option A) res :
  k s = Some res -> exists res', upto p hi s k = Some res'.
Proof.
  intros K. destruct hi as [|hi]; simpl; [eauto|].
  destruct s as [|c s]; [eauto|].
  destruct (p c); [|eauto]. destruct (upto p hi s k); eauto.
Qed.

Lemma upto_complete {A} p hi (w s' : string) (k : string -> option A) res :
  all_chars p w = true -> String.length w <= hi -> k s' = Some res ->
  exists res', upto p hi (w ++ s') k = Some res'.
Proof.
  revert hi; induction w as [|c w IH]; intros hi W L K.
  - eapply upto_here; eauto.
  - destruct hi as [|hi]; simpl in L; [lia|].
    simpl in *. apply andb_true_iff in W as [Pc W]. rewrite Pc.
    destruct (IH hi W ltac:(lia) K) as [r ->]. eauto.
Qed.

Lemma exactly_sound {A} p lo (s : string) (k : string -> option A) res :
  exactly p lo s k = Some res ->
  exists w s', s = w ++ s' /\ all_chars p w = true
               /\ String.length w = lo /\ k s' = Some res.
Proof.
  revert s; induction lo as [|lo IH]; intros s; simpl; intros H.
  - exists EmptyString, s. auto.
  - destruct s as [|c s]; [discriminate|].
    destruct (p c) eqn:Pc; [|discriminate].
    destruct (IH s H) as (w & s' & -> & W & L & K).
    exists (String c w), s'. simpl. rewrite Pc, L. auto.
Qed.

Lemma exactly_complete {A} p (w s' : string) (k : string -> option A) :
  all_chars p w = true ->
  exactly p (String.length w) (w ++ s') k = k s'.
Proof.
  induction w as [|c w IH]; simpl; intros W; [reflexivity|].
  apply andb_true_iff in W as [Pc W]. rewrite Pc. auto.
Qed.

(** Whatever the matcher returns is a match of the pattern followed by a
    success of the continuation. *)
Lemma run_sound (r : regex) :
  forall s caps k res,
    run ic n r s caps k = Some res ->
    exists s' caps', matches ic n r s s' caps caps' /\ k s' caps' = Some res.
Proof.
  induction r as [|a|cs|cs|cs lo hi|r1 IH1 r2 IH2|r IH|i r IH| |];
    intros s caps k res H; simpl in *.
  - eauto.
  - destruct s as [|c s]; [discriminate|].
    destruct (same_char ic a c) eqn:E; [|discriminate]. eauto 8.
  - destruct s as [|c s]; [discriminate|].
    destruct (member ic cs c) eqn:E; [|discriminate]. eauto 8.
  - apply star_sound in H as (w & s' & -> & W & K). eauto 8.
  - apply exactly_sound in H as (w1 & s1 & -> & W1 & L1 & H).
    apply upto_sound in H as (w2 & s' & -> & W2 & L2 & K).
    exists s', caps. split; [|exact K].
    exists (w1 ++ w2). rewrite append_assoc, all_chars_append, W1, W2.
    rewrite length_append. repeat split; auto; lia.
  - apply IH1 in H as (s1 & c1 & M1 & H).
    apply IH2 in H as (s' & caps' & M2 & K). eauto 8.
  - destruct (run ic n r s caps k) as [x|] eqn:E.
    + injection H as ->. apply IH in E as (s' & caps' & M & K). eauto.
    + eauto 8.
  - apply IH in H as (s' & c1 & M & K). eauto 8.
  - destruct (Nat.eqb_spec (String.length s) n); [|discriminate]. eauto 8.
  - destruct s; [|discriminate]. eauto 8.
Qed.

(** Every match that lets the continuation succeed makes the matcher
    succeed, possibly on an alternative of higher priority. *)
Lemma run_complete (r : regex) :
  forall s s' caps caps' k res,
    matches ic n r s s' caps caps' -> k s' caps' = Some res ->
    exists res', run ic n r s caps k = Some res'.
Proof.
  induction r as [|a|cs|cs|cs lo hi|r1 IH1 r2 IH2|r IH|i r IH| |];
    intros s s' caps caps' k res M K; simpl in *.
  - destruct M as [-> ->]. eauto.
  - destruct M as (c & -> & E & ->). rewrite E. eauto.
  - destruct M as (c & -> & E & ->). rewrite E. eauto.
  - destruct M as (w & -> & W & ->).
    eapply (star_complete _ w s' (fun x => k x caps)); eauto.
  - destruct M as (w & -> & W & [L1 L2] & ->).
    destruct (split_at lo w L1) as (w1 & w2 & -> & L).
    rewrite length_append in L2.
    rewrite all_chars_append in W. apply andb_true_iff in W as [W1 W2].
    rewrite append_assoc. subst lo.
    rewrite exactly_complete by exact W1.
    eapply upto_complete; eauto. lia.
  - destruct M as (s1 & c1 & M1 & M2).
    destruct (IH2 _ _ _ _ _ _ M2 K) as [r' E].
    eapply IH1; eauto.
  - destruct M as [M | [-> ->]].
    + destruct (IH _ _ _ _ _ _ M K) as [r' ->]. eauto.
    + destruct (run ic n r s caps k); eauto.
  - destruct M as (c1 & M & ->). eapply IH; eauto.
  - destruct M as (L & -> & ->). rewrite L, Nat.eqb_refl. eauto.
  - destruct M as (-> & -> & ->). eauto.
Qed.

End MatcherFacts.

Lemma search_sound ic n (r : regex) (s : string) caps :
  search ic n r s = Some caps ->
  exists pre s1 s', s = pre ++ s1 /\ matches ic n r s1 s' [] caps.
Proof.
  induction s as [|c s IH]; simpl; intros H.
  - destruct (run ic n r EmptyString [] (fun _ x => Some x)) eqn:E; [|discriminate].
    injection H as ->. apply run_sound in E as (s' & caps' & M & K).
    injection K as ->. exists EmptyString, EmptyString, s'. auto.
  - destruct (run ic n r (String c s) [] (fun _ x => Some x)) eqn:E.
    + injection H as ->. apply run_sound in E as (s' & caps' & M & K).
      injection K as ->. exists EmptyString, (String c s), s'. auto.
    + destruct (IH H) as (pre & s1 & s' & -> & M).
      exists (String c pre), s1, s'. auto.
Qed.

Lemma exec_complete ic (r : regex) (s s' : string) caps :
  matches ic (String.length s) r s s' [] caps ->
  exists caps', exec ic r s = Some caps'
                /\ exists s'', matches ic (String.length s) r s s'' [] caps'.
Proof.
  intros M. unfold exec.
  destruct (run_complete ic (String.length s) r s s' [] caps
              (fun _ x => Some x) caps M eq_refl) as [res E].
  exists res. split.
  - destruct s; simpl; simpl in E; now rewrite E.
  - apply run_sound in E as (s'' & caps' & M' & K). injection K as ->. eauto.
Qed.

(** ** Decimal numerals *)

(** Statements about a single character are settled by running through
    the 256 code units. *)
Ltac by_cases_on c :=
  destruct c as [[] [] [] [] [] [] [] []]; vm_compute;
  try reflexivity; try discriminate; auto.

Section DecimalFacts.

Lemma digit_not_space c : is_digit c = true -> is_space c = false.
Proof. by_cases_on c. Qed.

Lemma digit_not_sign c :
  is_digit c = true -> c <> "-"%char /\ c <> "+"%char.
Proof. by_cases_on c; intros _; split; discriminate. Qed.

Lemma digit_char_spec (d : N) :
  (d < 10)%N ->
  is_digit (digit_char d) = true /\ digit_value (digit_char d) = d.
Proof.
  intros H.
  assert (C : (d = 0 \/ d = 1 \/ d = 2 \/ d = 3 \/ d = 4 \/ d = 5
               \/ d = 6 \/ d = 7 \/ d = 8 \/ d = 9)%N) by lia.
  repeat (destruct C as [-> | C]; [now vm_compute|]). subst d. now vm_compute.
Qed.

Lemma digits_prefix_some (s : string) (a : N) :
  all_chars is_digit s = true ->
  digits_prefix s (Some a) = Some (dval s a).
Proof.
  revert a; induction s as [|c s IH]; intros a H; simpl in *; [reflexivity|].
  apply andb_true_iff in H as [D H]. rewrite D. apply IH, H.
Qed.

Lemma digits_prefix_none (c : ascii) (s : string) :
  all_chars is_digit (String c s) = true ->
  digits_prefix (String c s) None = Some (dval (String c s) 0).
Proof.
  simpl. intros H. apply andb_true_iff in H as [D H]. rewrite D.
  now apply digits_prefix_some.
Qed.

Lemma digits_prefix_stop (s r : string) (a : N) :
  all_chars is_digit s = true -> stops is_digit r = true ->
  digits_prefix (s ++ r) (Some a) = Some (dval s a).
Proof.
  revert a; induction s as [|c s IH]; intros a H S.
  - destruct r as [|c r]; [reflexivity|].
    cbn [append digits_prefix stops] in *.
    destruct (is_digit c); [discriminate S | reflexivity].
  - cbn [append digits_prefix all_chars] in *.
    apply andb_true_iff in H as [D H]. rewrite D. now apply IH.
Qed.

Lemma dval_append (a b : string) (acc : N) :
  dval (a ++ b) acc = dval b (dval a acc).
Proof. revert acc; induction a as [|c a IH]; intros acc; simpl; auto. Qed.

Lemma dval_zeros (k : nat) (s : string) :
  dval (repeat_char "0" k ++ s) 0 = dval s 0.
Proof. induction k as [|k IH]; simpl; auto. Qed.

Lemma digits_of_digits (fuel : nat) (n : N) :
  all_chars is_digit (digits_of fuel n) = true.
Proof.
  revert n; induction fuel as [|fuel IH]; intros n; simpl.
  - destruct (digit_char_spec (n mod 10)) as [-> _]; [|reflexivity].
    apply N.mod_lt. lia.
  - destruct (N.ltb_spec n 10).
    + simpl. now destruct (digit_char_spec n H) as [-> _].
    + rewrite all_chars_append, IH. simpl.
      destruct (digit_char_spec (n mod 10)) as [-> _]; [|reflexivity].
      apply N.mod_lt. lia.
Qed.

Lemma digits_of_value (fuel : nat) (n : N) :
  (n < 10 * 2 ^ N.of_nat fuel)%N -> dval (digits_of fuel n) 0 = n.
Proof.
  revert n; induction fuel as [|fuel IH]; intros n H.
  - simpl in *. rewrite N.mod_small by lia.
    destruct (digit_char_spec n) as [_ ->]; lia.
  - cbn [digits_of]. destruct (N.ltb_spec n 10) as [L|L].
    + simpl. destruct (digit_char_spec n) as [_ ->]; lia.
    + rewrite dval_append, IH.
      * cbn [dval]. destruct (digit_char_spec (n mod 10)) as [_ ->].
        { apply N.mod_lt. lia. }
        symmetry. apply N.div_mod'.
      * rewrite Nat2N.inj_succ, N.pow_succ_r' in H.
        apply N.Div0.div_lt_upper_bound. lia.
Qed.

Lemma digits_of_length (fuel : nat) :
  forall (n : N) (k : nat),
    (n < 10 ^ N.of_nat (S k))%N ->
    1 <= String.length (digits_of fuel n) <= S k.
Proof.
  induction fuel as [|fuel IH]; intros n k H.
  - simpl. lia.
  - cbn [digits_of]. destruct (N.ltb_spec n 10) as [L|L].
    + simpl. lia.
    + rewrite length_append. simpl.
      destruct k as [|k].
      * change (10 ^ N.of_nat 1)%N with 10%N in H. lia.
      * assert (n / 10 < 10 ^ N.of_nat (S k))%N.
        { apply N.Div0.div_lt_upper_bound.
          rewrite (Nat2N.inj_succ (S k)), N.pow_succ_r' in H. lia. }
        specialize (IH _ _ H0). lia.
Qed.

Lemma N_to_string_digits (n : N) : all_chars is_digit (N_to_string n) = true.
Proof. apply digits_of_digits. Qed.

Lemma N_to_string_value (n : N) : dval (N_to_string n) 0 = n.
Proof.
  apply digits_of_value. rewrite N2Nat.id.
  destruct n as [|p]; [reflexivity|].
  pose proof (N.log2_spec (N.pos p) eq_refl) as [_ H].
  rewrite N.pow_succ_r' in H. lia.
Qed.

Lemma N_to_string_length (n : N) (k : nat) :
  (n < 10 ^ N.of_nat (S k))%N -> 1 <= String.length (N_to_string n) <= S k.
Proof. apply digits_of_length. Qed.

Lemma N_to_string_cons (n : N) :
  exists c s, N_to_string n = String c s /\ is_digit c = true.
Proof.
  pose proof (N_to_string_digits n) as D.
  pose proof (digits_of_length (N.to_nat (N.log2 n)) n (N.to_nat n)) as L.
  fold (N_to_string n) in L.
  destruct (N_to_string n) as [|c s].
  - simpl in L. assert (n < 10 ^ N.of_nat (S (N.to_nat n)))%N; [|lia].
    rewrite Nat2N.inj_succ, N2Nat.id.
    apply N.lt_le_trans with (2 ^ N.succ n)%N.
    + apply N.lt_trans with (2 ^ n)%N; [apply N.pow_gt_lin_r; lia|].
      apply N.pow_lt_mono_r; lia.
    + apply N.pow_le_mono_l. lia.
  - simpl in D. apply andb_true_iff in D as [D _]. eauto.
Qed.

(** [parseInt] reads back what [String] prints, also behind a padding of
    zeros. *)
Lemma parseInt_digits (s : string) :
  s <> EmptyString -> all_chars is_digit s = true ->
  parseInt s = Some (Z.of_N (dval s 0)).
Proof.
  intros NE D. destruct s as [|c s]; [congruence|].
  pose proof D as D'. simpl in D'. apply andb_true_iff in D' as [Dc _].
  unfold parseInt. cbn [trimStart]. rewrite (digit_not_space c Dc).
  destruct (digit_not_sign c Dc) as [M P].
  transitivity (option_map Z.of_N (digits_prefix (String c s) None)).
  { clear - M P. destruct c as [[] [] [] [] [] [] [] []];
      try reflexivity; congruence. }
  now rewrite digits_prefix_none by exact D.
Qed.

Lemma parseInt_N_to_string (n : N) : parseInt (N_to_string n) = Some (Z.of_N n).
Proof.
  destruct (N_to_string_cons n) as (c & s & E & _).
  rewrite parseInt_digits.
  - now rewrite N_to_string_value.
  - rewrite E. discriminate.
  - apply N_to_string_digits.
Qed.

Lemma parseInt_padded (n : N) (k : nat) :
  parseInt (padStart (N_to_string n) k "0") = Some (Z.of_N n).
Proof.
  unfold padStart. rewrite parseInt_digits.
  - now rewrite dval_zeros, N_to_string_value.
  - destruct (N_to_string_cons n) as (c & s & -> & _).
    destruct (k - _); discriminate.
  - rewrite all_chars_append, N_to_string_digits, andb_true_r.
    generalize (k - String.length (N_to_string n)).
    intros j; induction j; simpl; auto.
Qed.

End DecimalFacts.

(** ** Allocation of record identifiers *)

Section Allocation.

Lemma member_digit c : member false digit c = is_digit c.
Proof. unfold member, digit, in_cset. simpl. apply orb_false_r. Qed.

Lemma all_member_digit (s : string) :
  all_chars (member false digit) s = all_chars is_digit s.
Proof.
  induction s as [|c s IH]; cbn [all_chars]; [reflexivity|].
  now rewrite IH, member_digit.
Qed.

Lemma dval_shift (s : string) (acc : N) :
  (dval s acc = acc * 10 ^ N.of_nat (String.length s) + dval s 0)%N.
Proof.
  revert acc; induction s as [|c s IH]; intros acc.
  - simpl. lia.
  - cbn [dval String.length]. rewrite IH, (IH (10 * 0 + digit_value c)%N).
    rewrite Nat2N.inj_succ, N.pow_succ_r'. lia.
Qed.

Lemma digit_value_bound c : is_digit c = true -> (digit_value c < 10)%N.
Proof. by_cases_on c. Qed.

Lemma digit_char_value c : is_digit c = true -> digit_char (digit_value c) = c.
Proof. by_cases_on c. Qed.

Lemma dval_bound (s : string) :
  all_chars is_digit s = true -> (dval s 0 < 10 ^ N.of_nat (String.length s))%N.
Proof.
  induction s as [|c s IH]; intros D.
  - simpl. lia.
  - cbn [all_chars] in D. apply andb_true_iff in D as [Dc D].
    cbn [dval String.length]. rewrite dval_shift.
    rewrite Nat2N.inj_succ, N.pow_succ_r'.
    pose proof (digit_value_bound c Dc). specialize (IH D). nia.
Qed.

(** Digit strings of one length with one value are the same string. *)
Lemma dval_inj (a b : string) :
  String.length a = String.length b ->
  all_chars is_digit a = true -> all_chars is_digit b = true ->
  dval a 0 = dval b 0 -> a = b.
Proof.
  revert b; induction a as [|x a IH]; intros [|y b] L Da Db E;
    try discriminate; [reflexivity|].
  cbn [all_chars] in Da, Db.
  apply andb_true_iff in Da as [Dx Da]. apply andb_true_iff in Db as [Dy Db].
  injection L as L. cbn [dval] in E.
  rewrite (dval_shift a), (dval_shift b), <- L in E.
  pose proof (dval_bound a Da). pose proof (dval_bound b Db) as Hb.
  rewrite <- L in Hb.
  pose proof (digit_value_bound x Dx). pose proof (digit_value_bound y Dy).
  remember (10 ^ N.of_nat (String.length a))%N as P.
  remember (digit_value x) as dx. remember (digit_value y) as dy.
  assert (Ex : dx = dy).
  { destruct (N.lt_trichotomy dx dy) as [T | [T | T]]; [exfalso | exact T | exfalso].
    - assert ((dx + 1) * P <= dy * P)%N by (apply N.mul_le_mono_r; lia). lia.
    - assert ((dy + 1) * P <= dx * P)%N by (apply N.mul_le_mono_r; lia). lia. }
  assert (Ea : dval a 0 = dval b 0) by (subst dy; lia).
  subst dx dy.
  rewrite (IH b L Da Db Ea).
  now rewrite <- (digit_char_value x Dx), <- (digit_char_value y Dy), Ex.
Qed.

Lemma padded_length (k : N) :
  (k < 10 ^ 8)%N -> String.length (padStart (N_to_string k) 8 "0") = 8.
Proof.
  intros H. unfold padStart. rewrite length_append.
  pose proof (N_to_string_length k 7 H).
  assert (R : forall j, String.length (repeat_char "0" j) = j)
    by (induction j; simpl; auto).
  rewrite R. lia.
Qed.

Lemma padded_digits (k : N) (j : nat) :
  all_chars is_digit (padStart (N_to_string k) j "0") = true.
Proof.
  unfold padStart. rewrite all_chars_append, N_to_string_digits, andb_true_r.
  generalize (j - String.length (N_to_string k)).
  intros i; induction i; simpl; auto.
Qed.

Lemma padded_value (k : N) (j : nat) :
  dval (padStart (N_to_string k) j "0") 0 = k.
Proof. unfold padStart. now rewrite dval_zeros, N_to_string_value. Qed.

(** Eight digits are the padded rendering of their value. *)
Lemma padded_of_digits (d : string) :
  String.length d = 8 -> all_chars is_digit d = true ->
  (dval d 0 < 10 ^ 8)%N /\ padStart (N_to_string (dval d 0)) 8 "0" = d.
Proof.
  intros L D. pose proof (dval_bound d D) as B. rewrite L in B.
  split; [exact B|].
  apply dval_inj.
  - now rewrite padded_length.
  - apply padded_digits.
  - exact D.
  - apply padded_value.
Qed.

Lemma rrn_file_shape (k : N) :
  rrn_file k = "RRN-" ++ padStart (N_to_string k) 8 "0" ++ ".yaml".
Proof. unfold rrn_file, rrn. now rewrite append_assoc. Qed.

Lemma is_rrn_file_intro (d : string) :
  String.length d = 8 -> all_chars is_digit d = true ->
  is_rrn_file ("RRN-" ++ d ++ ".yaml") = true.
Proof.
  intros L D. unfold is_rrn_file.
  destruct (exec_complete false RRN_FILE ("RRN-" ++ d ++ ".yaml") EmptyString [])
    as (caps & -> & _); [|reflexivity].
  cbn [RRN_FILE seq lit app matches].
  repeat (eexists; eexists; split;
          [first [ split; [reflexivity | split; reflexivity]
                 | eexists; split; [reflexivity | split; reflexivity] ] |]).
  eexists; eexists; split.
  { exists d. split; [reflexivity|]. rewrite all_member_digit, D, L.
    repeat split; lia. }
  repeat (eexists; eexists; split;
          [eexists; split; [reflexivity | split; reflexivity] |]).
  repeat split.
Qed.

Lemma is_rrn_file_inv (f : string) :
  is_rrn_file f = true ->
  exists d, f = "RRN-" ++ d ++ ".yaml"
            /\ String.length d = 8 /\ all_chars is_digit d = true.
Proof.
  unfold is_rrn_file, exec. intros H.
  destruct (search false (String.length f) RRN_FILE f) as [caps|] eqn:E;
    [clear H | discriminate].
  apply search_sound in E as (pre & s1 & s' & -> & M).
  cbn [RRN_FILE seq lit app matches] in M.
  repeat match type of M with
         | exists _, _ => destruct M as (? & M)
         | _ /\ _ => let H := fresh "H" in destruct M as (H & M)
         end.
  repeat match goal with
         | H : exists _, _ |- _ => destruct H as (? & H)
         | H : _ /\ _ |- _ => destruct H
         end.
  subst. rewrite length_append in *.
  destruct pre; [|simpl in *; lia].
  repeat match goal with
         | H : same_char false _ _ = true |- _ =>
             apply Ascii.eqb_eq in H; subst
         end.
  match goal with
  | H : all_chars (member false digit) ?w = true |- _ =>
      exists w; rewrite all_member_digit in H
  end.
  simpl. repeat split; auto. lia.
Qed.

Lemma rrn_number_intro (d : string) :
  String.length d = 8 -> all_chars is_digit d = true ->
  rrn_number ("RRN-" ++ d ++ ".yaml") = Some (Z.of_N (dval d 0)).
Proof.
  intros L D. unfold rrn_number.
  destruct (exec_complete false RRN_NUMBER ("RRN-" ++ d ++ ".yaml")
              EmptyString [(1, d)]) as (caps & -> & s'' & M).
  - cbn [RRN_NUMBER seq lit app matches].
    repeat (eexists; eexists; split;
            [eexists; split; [reflexivity | split; reflexivity] |]).
    eexists; eexists; split.
    { eexists. split.
      - exists d. split; [reflexivity|]. rewrite all_member_digit, D, L.
        repeat split; lia.
      - now rewrite consumed_append. }
    repeat (eexists; eexists; split;
            [eexists; split; [reflexivity | split; reflexivity] |]).
    eexists; split; [reflexivity | split; reflexivity].
  - cbn [RRN_NUMBER seq lit app matches] in M.
    repeat match type of M with
           | exists _, _ => destruct M as (? & M)
           | _ /\ _ => let H := fresh "H" in destruct M as (H & M)
           end.
    repeat match goal with
           | H : exists _, _ |- _ => destruct H as (? & H)
           | H : _ /\ _ |- _ => destruct H
           end.
    subst.
    match goal with
    | H : _ ++ _ = String _ _ |- _ =>
        simpl in H; injection H as _ _ _ _ H;
        apply append_inv_length in H as [<- _]; [|lia]
    end.
    rewrite consumed_append. simpl.
    destruct d as [|c d]; [discriminate|].
    now rewrite parseInt_digits.
Qed.

Lemma rrn_file_matches (k : N) :
  (k < 10 ^ 8)%N ->
  is_rrn_file (rrn_file k) = true
  /\ rrn_number (rrn_file k) = Some (Z.of_N k).
Proof.
  intros H. rewrite rrn_file_shape. split.
  - apply is_rrn_file_intro; [now apply padded_length | apply padded_digits].
  - rewrite rrn_number_intro, padded_value;
      [reflexivity | now apply padded_length | apply padded_digits].
Qed.

Lemma rrn_file_char (f : string) :
  is_rrn_file f = true -> exists k, (k < 10 ^ 8)%N /\ f = rrn_file k.
Proof.
  intros H. apply is_rrn_file_inv in H as (d & -> & L & D).
  destruct (padded_of_digits d L D) as [B E].
  exists (dval d 0). split; [exact B|].
  now rewrite rrn_file_shape, E.
Qed.

Lemma Z_to_string_of_N (m : N) : Z_to_string (Z.of_N m) = N_to_string m.
Proof. now destruct m. Qed.

Lemma fold_max2_le (n : N) (l : list (option Z)) (x : N) :
  (x <= n)%N ->
  (forall y, In y l -> exists k, y = Some (Z.of_N k) /\ (k <= n)%N) ->
  exists m, fold_left max2 l (Some (Z.of_N x)) = Some (Z.of_N m)
            /\ (x <= m <= n)%N
            /\ (forall k, In (Some (Z.of_N k)) l -> (k <= m)%N).
Proof.
  revert x; induction l as [|y l IH]; intros x X A; simpl.
  - exists x. repeat split; try lia.
  - destruct (A y (or_introl eq_refl)) as (k & -> & K).
    cbn [max2]. rewrite <- N2Z.inj_max.
    destruct (IH (N.max x k)) as (m & -> & M & U); [lia | auto with datatypes|].
    exists m. repeat split; try lia.
    intros j [J | J]; [|auto].
    injection J as J. apply N2Z.inj in J. lia.
Qed.

Lemma max_or_zero_spec (n : N) (l : list (option Z)) :
  (forall y, In y l -> exists k, y = Some (Z.of_N k) /\ (k <= n)%N) ->
  n = 0%N \/ In (Some (Z.of_N n)) l ->
  max_or_zero l = Some (Z.of_N n).
Proof.
  intros A B. destruct l as [|y l]; simpl.
  - destruct B as [-> | []]. reflexivity.
  - destruct (A y (or_introl eq_refl)) as (x & -> & X).
    destruct (fold_max2_le n l x X) as (m & -> & M & U); [auto with datatypes|].
    do 2 f_equal.
    destruct B as [-> | [B | B]].
    + lia.
    + injection B as B. apply N2Z.inj in B. lia.
    + specialize (U n B). lia.
Qed.

(** The allocator returns the successor of the highest sequence number
    among the files named like records. *)
Lemma getNextRRN_max (st : Store) (n : N) :
  (forall k, (k < 10 ^ 8)%N -> In (rrn_file k) (readdirSync st) -> (k <= n)%N) ->
  n = 0%N \/ ((n < 10 ^ 8)%N /\ In (rrn_file n) (readdirSync st)) ->
  getNextRRN st = rrn (n + 1).
Proof.
  intros A B. unfold getNextRRN.
  rewrite (max_or_zero_spec n).
  - cbn [option_map number_to_string].
    replace (Z.of_N n + 1)%Z with (Z.of_N (n + 1)) by lia.
    now rewrite Z_to_string_of_N.
  - intros y Y. apply in_map_iff in Y as (f & <- & F).
    apply filter_In in F as [F R].
    destruct (rrn_file_char f R) as (k & K & ->).
    exists k. split; [now apply rrn_file_matches | auto].
  - destruct B as [B | [B1 B2]]; [now left | right].
    apply in_map_iff. exists (rrn_file n). split.
    + now apply rrn_file_matches.
    + apply filter_In. split; [exact B2 | now apply rrn_file_matches].
Qed.

End Allocation.

(** ** The grammar of [RURI_REGEX] *)

Section Grammar.

Variable n : nat.

Lemma same_char_slash c : same_char true "/" c = true -> c = "/"%char.
Proof. by_cases_on c. Qed.

Lemma same_char_dash c : same_char true "-" c = true -> c = "-"%char.
Proof. by_cases_on c. Qed.

Lemma same_char_colon c : same_char true ":" c = true -> c = ":"%char.
Proof. by_cases_on c. Qed.

Lemma seq_cons (r : regex) (l : list regex) :
  l <> [] -> seq (r :: l) = Seq r (seq l).
Proof. destruct l; [congruence | reflexivity]. Qed.

Lemma lit_app_nonempty (p : string) (r : regex) (rest : list regex) :
  (lit p ++ r :: rest)%list <> [].
Proof. destruct (lit p); discriminate. Qed.

(** A literal prefix of a sequence. *)
Lemma lit_inv ic (p : string) (r : regex) (rest : list regex) :
  forall s s' c c',
    matches ic n (seq (lit p ++ r :: rest)%list) s s' c c' ->
    exists pre s1,
      s = pre ++ s1 /\ same_text ic p pre = true
      /\ matches ic n (seq (r :: rest)) s1 s' c c'.
Proof.
  induction p as [|a p IH]; intros s s' c c' M.
  - exists EmptyString, s. auto.
  - cbn [lit app] in M.
    rewrite seq_cons in M by apply lit_app_nonempty. cbn [matches] in M.
    destruct M as (s1 & c1 & (x & -> & Ex & ->) & M).
    apply IH in M as (pre & s2 & -> & P & M).
    exists (String x pre), s2. simpl. rewrite Ex, P. auto.
Qed.

Lemma lit_intro ic (p pre : string) (r : regex) (rest : list regex) :
  forall s1 s' c c',
    same_text ic p pre = true ->
    matches ic n (seq (r :: rest)) s1 s' c c' ->
    matches ic n (seq (lit p ++ r :: rest)%list) (pre ++ s1) s' c c'.
Proof.
  revert pre; induction p as [|a p IH]; intros [|x pre] s1 s' c c' P M;
    try discriminate; [exact M|].
  cbn [same_text] in P. apply andb_true_iff in P as [Ex P].
  cbn [lit app].
  rewrite seq_cons by apply lit_app_nonempty. cbn [matches].
  exists (pre ++ s1), c. split; [exists x; auto|]. now apply IH.
Qed.

Lemma label_inv (inner : cset) (s s' : string) (c c' : Caps) :
  matches true n (label inner) s s' c c' ->
  exists w, s = w ++ s' /\ label_shape inner w /\ c' = c.
Proof.
  unfold label. cbn [seq matches].
  intros (s1 & c1 & (a & -> & A & ->) & s2 & c2 & (mid & -> & Mid & ->)
          & (z & -> & Z & ->)).
  exists (String a (mid ++ String z EmptyString)). split; [|split].
  - simpl. now rewrite append_assoc.
  - exists a, mid, z. auto.
  - reflexivity.
Qed.

Lemma label_intro (inner : cset) (w s' : string) (c : Caps) :
  label_shape inner w -> matches true n (label inner) (w ++ s') s' c c.
Proof.
  intros (a & mid & z & -> & A & Mid & Z). unfold label. cbn [seq matches].
  exists (mid ++ String z s'), c. split.
  - exists a. simpl. now rewrite append_assoc.
  - exists (String z s'), c. split; [exists mid; auto | exists z; auto].
Qed.

Lemma device_inv (s s' : string) (c c' : Caps) :
  matches true n device_id s s' c c' ->
  exists w, s = w ++ s' /\ device_shape w /\ c' = c.
Proof.
  unfold device_id. cbn [seq matches].
  intros (s1 & c1 & (h & -> & H & Lh & ->) & [T | [-> ->]]).
  - destruct T as
      (s2 & c2 & (x1 & -> & X1 & ->) &
       s3 & c3 & (a & -> & A & La & ->) &
       s4 & c4 & (x2 & -> & X2 & ->) &
       s5 & c5 & (b & -> & B & Lb & ->) &
       s6 & c6 & (x3 & -> & X3 & ->) &
       s7 & c7 & (d & -> & D & Ld & ->) &
       s8 & c8 & (x4 & -> & X4 & ->) &
       (e & -> & E & Le & ->)).
    apply same_char_dash in X1, X2, X3, X4. subst.
    exists (h ++ "-" ++ a ++ "-" ++ b ++ "-" ++ d ++ "-" ++ e).
    split; [|split; [|reflexivity]].
    + repeat (rewrite ?append_assoc; simpl). reflexivity.
    + exists h, ("-" ++ a ++ "-" ++ b ++ "-" ++ d ++ "-" ++ e).
      split; [reflexivity|]. split; [split; [lia | exact H]|].
      right. exists a, b, d, e. unfold hexes. repeat split; auto; lia.
  - exists h. split; [reflexivity|]. split; [|reflexivity].
    exists h, EmptyString. rewrite append_nil_r.
    split; [reflexivity|]. split; [split; [lia | exact H] | now left].
Qed.

Lemma device_intro (w s' : string) (c : Caps) :
  device_shape w -> matches true n device_id (w ++ s') s' c c.
Proof.
  intros (h & t & -> & [Lh H] & T). unfold device_id. cbn [seq matches].
  exists (t ++ s'), c. split.
  { exists h. rewrite append_assoc. repeat split; auto; lia. }
  destruct T as [-> | (a & b & d & e & -> & [La A] & [Lb B] & [Ld D] & [Le E])].
  - right. auto.
  - left.
    exists (a ++ "-" ++ b ++ "-" ++ d ++ "-" ++ e ++ s'), c. split.
    { exists "-"%char. repeat (rewrite ?append_assoc; simpl). auto. }
    exists ("-" ++ b ++ "-" ++ d ++ "-" ++ e ++ s'), c. split.
    { exists a. repeat split; auto; lia. }
    exists (b ++ "-" ++ d ++ "-" ++ e ++ s'), c. split.
    { exists "-"%char. auto. }
    exists ("-" ++ d ++ "-" ++ e ++ s'), c. split.
    { exists b. repeat split; auto; lia. }
    exists (d ++ "-" ++ e ++ s'), c. split.
    { exists "-"%char. auto. }
    exists ("-" ++ e ++ s'), c. split.
    { exists d. repeat split; auto; lia. }
    exists (e ++ s'), c. split.
    { exists "-"%char. auto. }
    exists e. repeat split; auto; lia.
Qed.

Lemma port_part_inv (s s' : string) (c c' : Caps) :
  matches true n port_part s s' c c' ->
  exists o, (forall d, o = Some d -> port_shape d)
            /\ s = opt_text ":" o ++ s' /\ c' = (opt_capture 5 o ++ c)%list.
Proof.
  unfold port_part. cbn [seq matches].
  intros [(s1 & c1 & (x & -> & X & ->) & (c2 & (w & -> & W & L & ->) & ->))
         | [-> ->]].
  - apply same_char_colon in X as ->. exists (Some w). split; [|split].
    + intros d [= <-]. split; [exact W | lia].
    + reflexivity.
    + now rewrite consumed_append.
  - exists None. split; [discriminate | auto].
Qed.

Lemma port_part_intro (o : option string) (s' : string) (c : Caps) :
  (forall d, o = Some d -> port_shape d) ->
  matches true n port_part (opt_text ":" o ++ s') s' c (opt_capture 5 o ++ c)%list.
Proof.
  intros O. unfold port_part. cbn [seq matches].
  destruct o as [d|]; [left | right; auto].
  destruct (O d eq_refl) as [D L].
  exists (d ++ s'), c. split; [exists ":"%char; auto|].
  exists c. split; [|simpl; now rewrite consumed_append].
  exists d. repeat split; auto; lia.
Qed.

Lemma capability_part_inv (s s' : string) (c c' : Caps) :
  matches true n capability_part s s' c c' ->
  exists o, (forall p, o = Some p -> path_shape p)
            /\ s = opt_text EmptyString o ++ s'
            /\ c' = (opt_capture 6 o ++ c)%list.
Proof.
  unfold capability_part, capability_path. cbn [seq matches].
  intros [(c1 & (s1 & c2 & Sl & s2 & c3 & (a & -> & A & ->)
                 & (w & -> & W & ->)) & ->)
         | [-> ->]].
  - destruct Sl as [(x & -> & X & ->) | [<- ->]].
    + apply same_char_slash in X as ->.
      exists (Some (String "/" (String a w))). split; [|split].
      * intros p [= <-]. right. exists (String a w). split; [reflexivity|].
        exists a, w. auto.
      * reflexivity.
      * cbn [opt_capture app]. do 2 f_equal.
        apply (consumed_append (String "/" (String a w)) s').
    + exists (Some (String a w)). split; [|split].
      * intros p [= <-]. left. exists a, w. auto.
      * reflexivity.
      * cbn [opt_capture app]. do 2 f_equal.
        apply (consumed_append (String a w) s').
  - exists None. split; [discriminate | auto].
Qed.

Lemma capability_part_intro (o : option string) (s' : string) (c : Caps) :
  (forall p, o = Some p -> path_shape p) ->
  matches true n capability_part (opt_text EmptyString o ++ s') s' c
    (opt_capture 6 o ++ c)%list.
Proof.
  intros O. unfold capability_part, capability_path. cbn [seq matches].
  destruct o as [p|]; [left | right; auto].
  exists c. split; [|simpl; now rewrite consumed_append].
  destruct (O p eq_refl) as [(a & w & -> & A & W)
                            | (p' & -> & a & w & -> & A & W)].
  - exists (String a w ++ s'), c. split; [right; auto|].
    exists (w ++ s'), c. split; [exists a; auto | exists w; auto].
  - exists (String a w ++ s'), c. split; [left; exists "/"%char; auto|].
    exists (w ++ s'), c. split; [exists a; auto | exists w; auto].
Qed.

End Grammar.

(** Every match of [RURI_REGEX] cuts the input into the scheme and the
    six pieces, and captures exactly those. *)
Lemma ruri_inv (n : nat) (s s' : string) (m : Caps) :
  matches true n RURI_REGEX s s' [] m ->
  exists pre x,
    s = assemble pre x /\ case_variant "rcan://" pre = true
    /\ pieces_ok x /\ m = captures_of x
    /\ s' = EmptyString /\ String.length s = n.
Proof.
  unfold RURI_REGEX. cbn [app]. rewrite seq_cons by apply lit_app_nonempty.
  cbn [matches]. intros (s0 & c0 & (L & -> & ->) & M).
  apply lit_inv in M as (pre & s1 & -> & P & M).
  cbn [seq matches] in M.
  destruct M as
    (s2 & c2 & (c1 & M1 & ->) &
     s3 & c3 & (x1 & -> & X1 & ->) &
     s4 & c4 & (c5 & M2 & ->) &
     s5 & c6 & (x2 & -> & X2 & ->) &
     s6 & c7 & (c8 & M3 & ->) &
     s7 & c9 & (x3 & -> & X3 & ->) &
     s8 & c10 & (c11 & M4 & ->) &
     s9 & c12 & M5 &
     s10 & c13 & M6 &
     (-> & -> & ->)).
  apply same_char_slash in X1, X2, X3. subst x1 x2 x3.
  apply label_inv in M1 as (reg & -> & R & ->).
  apply label_inv in M2 as (man & -> & Ma & ->).
  apply label_inv in M3 as (mdl & -> & Md & ->).
  apply device_inv in M4 as (dev & -> & Dv & ->).
  apply port_part_inv in M5 as (po & Po & -> & ->).
  apply capability_part_inv in M6 as (co & Co & -> & ->).
  exists pre,
    {| pc_registry := reg; pc_manufacturer := man; pc_model := mdl;
       pc_device := dev; pc_port := po; pc_path := co |}.
  rewrite !consumed_append.
  split; [|split; [exact P | split; [|split; [|split; [reflexivity | exact L]]]]].
  - unfold assemble. cbn [pc_registry pc_manufacturer pc_model pc_device
                           pc_port pc_path].
    now rewrite append_nil_r.
  - unfold pieces_ok. cbn. auto 8.
  - reflexivity.
Qed.

Lemma ruri_intro (pre : string) (x : Pieces) :
  case_variant "rcan://" pre = true -> pieces_ok x ->
  matches true (String.length (assemble pre x)) RURI_REGEX
    (assemble pre x) EmptyString [] (captures_of x).
Proof.
  intros P (R & Ma & Md & Dv & Po & Co).
  unfold RURI_REGEX. cbn [app]. rewrite seq_cons by apply lit_app_nonempty.
  cbn [matches]. exists (assemble pre x), []. split; [auto|].
  unfold assemble. apply lit_intro; [exact P|].
  cbn [seq matches].
  eexists; eexists; split.
  { eexists. split; [apply label_intro, R | rewrite consumed_append; reflexivity]. }
  eexists; eexists; split; [exists "/"%char; split; [reflexivity | auto]|].
  eexists; eexists; split.
  { eexists. split; [apply label_intro, Ma | rewrite consumed_append; reflexivity]. }
  eexists; eexists; split; [exists "/"%char; split; [reflexivity | auto]|].
  eexists; eexists; split.
  { eexists. split; [apply label_intro, Md | rewrite consumed_append; reflexivity]. }
  eexists; eexists; split; [exists "/"%char; split; [reflexivity | auto]|].
  eexists; eexists; split.
  { eexists. split; [apply device_intro, Dv | rewrite consumed_append; reflexivity]. }
  eexists; eexists; split; [apply port_part_intro, Po|].
  eexists; eexists; split.
  { rewrite <- (append_nil_r (opt_text EmptyString (pc_path x))).
    apply capability_part_intro, Co. }
  unfold captures_of. auto.
Qed.

(** ** The cut of an identifier into pieces is unique *)

Section Unambiguous.

Lemma alnum_in_dot_dash c :
  member true alnum c = true -> member true alnum_dot_dash c = true.
Proof. by_cases_on c. Qed.

Lemma alnum_in_dash c :
  member true alnum c = true -> member true alnum_dash c = true.
Proof. by_cases_on c. Qed.

Lemma alpha_not_digit c :
  member true alpha c = true -> member true digit c = false.
Proof. by_cases_on c. Qed.

Lemma label_chars (inner : cset) (w : string) :
  (forall c, member true alnum c = true -> member true inner c = true) ->
  label_shape inner w -> all_chars (member true inner) w = true.
Proof.
  intros I (a & mid & z & -> & A & Mid & Z).
  cbn [all_chars]. rewrite all_chars_append. cbn [all_chars].
  now rewrite (I a A), Mid, (I z Z).
Qed.

Lemma path_first (c : string) :
  path_shape c ->
  exists ch r, c = String ch r
               /\ (ch = "/"%char \/ member true alpha ch = true).
Proof.
  intros [(a & r & -> & A & _) | (c' & -> & _)]; eauto.
Qed.

(** What follows the device id starts with a colon, a slash or a
    letter, unless it is empty. *)
Lemma tail_first (po co : option string) :
  (forall c, co = Some c -> path_shape c) ->
  opt_text ":" po ++ opt_text EmptyString co = EmptyString
  \/ exists ch r,
       opt_text ":" po ++ opt_text EmptyString co = String ch r
       /\ (ch = ":"%char \/ ch = "/"%char \/ member true alpha ch = true).
Proof.
  intros Co. destruct po as [d|]; [right; simpl; eauto 6|].
  destruct co as [c|]; [|now left].
  destruct (path_first c (Co c eq_refl)) as (ch & r & -> & H).
  right. exists ch, r. simpl. intuition.
Qed.

Lemma hexes_length k w : hexes k w -> String.length w = k.
Proof. now intros [L _]. Qed.

Lemma uuid_tail_length t : uuid_tail t -> String.length t = 28.
Proof.
  intros (a & b & c & d & -> & [La _] & [Lb _] & [Lc _] & [Ld _]).
  repeat (rewrite ?length_append; simpl). lia.
Qed.

Lemma uuid_tail_first t : uuid_tail t -> exists r, t = String "-" r.
Proof. intros (a & b & c & d & -> & _). simpl. eauto. Qed.

Lemma device_cut (u v ru rv : string) (po po' co co' : option string) :
  device_shape u -> device_shape v ->
  (forall c, co = Some c -> path_shape c) ->
  (forall c, co' = Some c -> path_shape c) ->
  ru = opt_text ":" po ++ opt_text EmptyString co ->
  rv = opt_text ":" po' ++ opt_text EmptyString co' ->
  u ++ ru = v ++ rv -> u = v /\ ru = rv.
Proof.
  intros (h & t & -> & [Lh _] & T) (h' & t' & -> & [Lh' _] & T') Co Co' Ru Rv E.
  rewrite !append_assoc in E.
  apply append_inv_length in E as [<- E]; [|lia].
  assert (bad : forall (t r r' : string) po co,
             (forall c, co = Some c -> path_shape c) ->
             uuid_tail t ->
             t ++ r = opt_text ":" po ++ opt_text EmptyString co -> False).
  { intros t0 r r' po0 co0 C0 U0 E0.
    destruct (uuid_tail_first _ U0) as (q & ->).
    destruct (tail_first po0 co0 C0) as [Z | (ch & q' & Z & F)];
      rewrite Z in E0; [discriminate|].
    injection E0 as <- _.
    destruct F as [F | [F | F]]; discriminate. }
  destruct T as [-> | T], T' as [-> | T'].
  - simpl in E. subst. now rewrite !append_nil_r.
  - exfalso. simpl in E. subst ru rv.
    eapply (bad t' _ EmptyString po co Co T'). symmetry. exact E.
  - exfalso. simpl in E. subst ru rv.
    eapply (bad t _ EmptyString po' co' Co' T). exact E.
  - apply append_inv_length in E as [<- E];
      [auto | now rewrite !uuid_tail_length].
Qed.

Lemma port_cut (po po' co co' : option string) :
  (forall d, po = Some d -> port_shape d) ->
  (forall d, po' = Some d -> port_shape d) ->
  (forall c, co = Some c -> path_shape c) ->
  (forall c, co' = Some c -> path_shape c) ->
  opt_text ":" po ++ opt_text EmptyString co
  = opt_text ":" po' ++ opt_text EmptyString co' ->
  po = po' /\ co = co'.
Proof.
  intros Po Po' Co Co' E.
  assert (stop : forall o, (forall c, o = Some c -> path_shape c) ->
                           stops (member true digit) (opt_text EmptyString o) = true).
  { intros [c|] C; [|reflexivity].
    destruct (path_first c (C c eq_refl)) as (ch & r & -> & [-> | F]);
      cbn [opt_text append stops];
      [reflexivity | now rewrite (alpha_not_digit ch F)]. }
  assert (nocolon : forall o r, (forall c, o = Some c -> path_shape c) ->
                                opt_text EmptyString o = String ":" r -> False).
  { intros [c|] r C; simpl; [|discriminate].
    destruct (path_first c (C c eq_refl)) as (ch & q & -> & [-> | F]);
      intros [= ]; subst; discriminate. }
  assert (same : forall o o', (forall c, o = Some c -> path_shape c) ->
                              (forall c, o' = Some c -> path_shape c) ->
                              opt_text EmptyString o = opt_text EmptyString o' ->
                              o = o').
  { intros [c|] [c'|] C C'; simpl; intros X; try congruence.
    - destruct (path_first c (C c eq_refl)) as (ch & q & -> & _). discriminate.
    - destruct (path_first c' (C' c' eq_refl)) as (ch & q & -> & _). discriminate. }
  destruct po as [d|], po' as [d'|]; simpl in E.
  - injection E as E.
    destruct (Po d eq_refl) as [D _]. destruct (Po' d' eq_refl) as [D' _].
    apply span_unique with (p := member true digit) in E as [-> E];
      [split; [reflexivity | now apply same] | auto ..].
  - exact (False_ind _ (nocolon co' _ Co' (eq_sym E))).
  - exact (False_ind _ (nocolon co _ Co E)).
  - split; [reflexivity | now apply same].
Qed.

Lemma pieces_unique (pre pre' : string) (x y : Pieces) :
  assemble pre x = assemble pre' y ->
  String.length pre = String.length pre' ->
  pieces_ok x -> pieces_ok y -> x = y.
Proof.
  intros E L (R & Ma & Md & Dv & Po & Co) (R' & Ma' & Md' & Dv' & Po' & Co').
  unfold assemble in E.
  apply append_inv_length in E as [_ E]; [|exact L].
  apply span_unique with (p := member true alnum_dot_dash) in E as [E1 E];
    [| apply label_chars; auto using alnum_in_dot_dash
     | apply label_chars; auto using alnum_in_dot_dash
     | reflexivity | reflexivity].
  injection E as E.
  apply span_unique with (p := member true alnum_dash) in E as [E2 E];
    [| apply label_chars; auto using alnum_in_dash
     | apply label_chars; auto using alnum_in_dash
     | reflexivity | reflexivity].
  injection E as E.
  apply span_unique with (p := member true alnum_dash) in E as [E3 E];
    [| apply label_chars; auto using alnum_in_dash
     | apply label_chars; auto using alnum_in_dash
     | reflexivity | reflexivity].
  injection E as E.
  apply (device_cut _ _ _ _ (pc_port x) (pc_port y) (pc_path x) (pc_path y)
           Dv Dv' Co Co' eq_refl eq_refl) in E as [E4 E].
  apply port_cut in E as [E5 E6]; auto.
  destruct x, y. simpl in *. congruence.
Qed.

(** On an identifier assembled from well-shaped pieces the matcher
    returns those pieces. *)
Lemma exec_assemble (pre : string) (x : Pieces) :
  case_variant "rcan://" pre = true -> pieces_ok x ->
  exec true RURI_REGEX (assemble pre x) = Some (captures_of x).
Proof.
  intros P X.
  destruct (exec_complete true RURI_REGEX (assemble pre x) EmptyString
              (captures_of x) (ruri_intro pre x P X))
    as (caps & -> & s'' & M).
  apply ruri_inv in M as (pre' & y & E & P' & Y & -> & _ & _).
  assert (L : forall a b, same_text true a b = true ->
                          String.length a = String.length b).
  { induction a as [|c a IH]; intros [|d b] H; try discriminate; auto.
    simpl in H. apply andb_true_iff in H as [_ H]. simpl. auto. }
  rewrite (pieces_unique pre pre' x y E); auto.
  now rewrite <- (L _ _ P), <- (L _ _ P').
Qed.

Lemma exec_inv (s : string) (m : Caps) :
  exec true RURI_REGEX s = Some m ->
  exists pre x,
    s = assemble pre x /\ case_variant "rcan://" pre = true
    /\ pieces_ok x /\ m = captures_of x.
Proof.
  unfold exec. intros H.
  apply search_sound in H as (pre0 & s1 & s' & -> & M).
  apply ruri_inv in M as (pre & x & -> & P & X & -> & _ & L).
  rewrite length_append in L.
  destruct pre0; [|simpl in L; lia].
  exists pre, x. auto.
Qed.

End Unambiguous.

(** ** Parsing what [buildRURI] writes *)

Section RoundTrip.

Lemma whole_iff (r : regex) (w : string) :
  whole r w = true <->
  exists caps, matches true (String.length w) r w EmptyString [] caps.
Proof.
  unfold whole. split.
  - destruct (run _ _ _ _ _ _) as [res|] eqn:E; [intros _ | discriminate].
    apply run_sound in E as (s' & caps & M & K).
    destruct s'; [eauto | discriminate].
  - intros (caps & M).
    destruct (run_complete true _ r w EmptyString [] caps
                (fun s' caps => match s' with
                                | EmptyString => Some caps
                                | String _ _ => None
                                end) caps M eq_refl) as [res ->].
    reflexivity.
Qed.

Lemma whole_label (inner : cset) (w : string) :
  whole (label inner) w = true <-> label_shape inner w.
Proof.
  rewrite whole_iff. split.
  - intros (caps & M). apply label_inv in M as (w' & E & S & _).
    rewrite append_nil_r in E. now subst.
  - intros S. exists []. rewrite <- (append_nil_r w) at 2.
    now apply label_intro.
Qed.

Lemma whole_device (w : string) :
  whole device_id w = true <-> device_shape w.
Proof.
  rewrite whole_iff. split.
  - intros (caps & M). apply device_inv in M as (w' & E & S & _).
    rewrite append_nil_r in E. now subst.
  - intros S. exists []. rewrite <- (append_nil_r w) at 2.
    now apply device_intro.
Qed.

Lemma whole_name (w : string) :
  whole capability_name w = true <-> name_shape w.
Proof.
  rewrite whole_iff. unfold capability_name. cbn [seq matches]. split.
  - intros (caps & s1 & c1 & (a & -> & A & ->) & (r & -> & R & ->)).
    exists a, r. now rewrite append_nil_r.
  - intros (a & r & -> & A & R). exists [], r, []. split.
    + exists a. auto.
    + exists r. now rewrite append_nil_r.
Qed.

Lemma member_true_digit c : member true digit c = is_digit c.
Proof. by_cases_on c. Qed.

Lemma all_member_true_digit (s : string) :
  all_chars (member true digit) s = all_chars is_digit s.
Proof.
  induction s as [|c s IH]; cbn [all_chars]; [reflexivity|].
  now rewrite IH, member_true_digit.
Qed.

Lemma port_text_shape (n : Z) :
  (1 <= n <= 65535)%Z -> port_shape (Z_to_string n).
Proof.
  intros H. destruct n as [|p|p]; try lia. cbn [Z_to_string].
  split.
  - rewrite all_member_true_digit. apply N_to_string_digits.
  - apply (N_to_string_length (N.pos p) 4). simpl. lia.
Qed.

Lemma pieces_of_ok (c : RURIParts) :
  valid_parts c = true -> pieces_ok (pieces_of c).
Proof.
  unfold valid_parts. rewrite !andb_true_iff.
  intros [[[[[R Ma] Md] Dv] Po] Co].
  unfold pieces_ok, pieces_of.
  cbn [pc_registry pc_manufacturer pc_model pc_device pc_port pc_path].
  split; [now apply whole_label|].
  split; [now apply whole_label|].
  split; [now apply whole_label|].
  split; [now apply whole_device|].
  split.
  - intros d E. destruct (p_port c) as [[|p|p]|]; try discriminate.
    injection E as <-. apply (port_text_shape (Z.pos p)). lia.
  - intros p E. destruct (p_capability c) as [[|a name]|]; try discriminate.
    injection E as <-. right. exists (String a name).
    split; [reflexivity | now apply whole_name].
Qed.

Lemma build_assemble (c : RURIParts) :
  buildRURI c = assemble "rcan://" (pieces_of c).
Proof.
  unfold buildRURI, assemble, pieces_of.
  cbn [pc_registry pc_manufacturer pc_model pc_device pc_port pc_path].
  destruct (p_port c) as [[|p|p]|], (p_capability c) as [[|a name]|];
    cbn [opt_text]; repeat (rewrite ?append_assoc, ?append_nil_r; simpl);
    reflexivity.
Qed.

(** Trimming leaves a string without white space alone. *)
Lemma trimStart_solid (s : string) : solid s = true -> trimStart s = s.
Proof.
  destruct s as [|c s]; [reflexivity|]. unfold solid. cbn [all_chars trimStart].
  intros H. apply andb_true_iff in H as [H _].
  now destruct (is_space c).
Qed.

Lemma trimEnd_solid (s : string) : solid s = true -> trimEnd s = s.
Proof.
  unfold solid. induction s as [|c s IH]; [reflexivity|].
  cbn [all_chars trimEnd]. intros H. apply andb_true_iff in H as [Hc H].
  rewrite (IH H). destruct s; [|reflexivity].
  now destruct (is_space c).
Qed.

Lemma trim_solid (s : string) : solid s = true -> trim s = s.
Proof.
  intros H. unfold trim. rewrite (trimStart_solid s H). now apply trimEnd_solid.
Qed.

Lemma solid_append (a b : string) : solid (a ++ b) = solid a && solid b.
Proof. apply all_chars_append. Qed.

Lemma member_solid (cs : cset) (w : string) :
  (forall c, member true cs c = true -> is_space c = false) ->
  all_chars (member true cs) w = true -> solid w = true.
Proof.
  intros I. apply all_chars_impl. intros c H. now rewrite (I c H).
Qed.

Lemma dot_dash_not_space c :
  member true alnum_dot_dash c = true -> is_space c = false.
Proof. by_cases_on c. Qed.

Lemma dash_not_space c :
  member true alnum_dash c = true -> is_space c = false.
Proof. by_cases_on c. Qed.

Lemma slash_dash_not_space c :
  member true alnum_slash_dash c = true -> is_space c = false.
Proof. by_cases_on c. Qed.

Lemma hex_not_space c : member true hex c = true -> is_space c = false.
Proof. by_cases_on c. Qed.

Lemma alpha_not_space c : member true alpha c = true -> is_space c = false.
Proof. by_cases_on c. Qed.

Lemma true_digit_not_space c :
  member true digit c = true -> is_space c = false.
Proof. by_cases_on c. Qed.

Lemma name_solid (w : string) : name_shape w -> solid w = true.
Proof.
  intros (a & r & -> & A & R). unfold solid. cbn [all_chars].
  rewrite (alpha_not_space a A).
  apply (member_solid _ _ slash_dash_not_space R).
Qed.

Lemma pieces_solid (pre : string) (x : Pieces) :
  solid pre = true -> pieces_ok x -> solid (assemble pre x) = true.
Proof.
  intros P (R & Ma & Md & Dv & Po & Co). unfold assemble.
  rewrite !solid_append, P.
  rewrite (member_solid _ _ dot_dash_not_space
             (label_chars _ _ alnum_in_dot_dash R)).
  rewrite (member_solid _ _ dash_not_space (label_chars _ _ alnum_in_dash Ma)).
  rewrite (member_solid _ _ dash_not_space (label_chars _ _ alnum_in_dash Md)).
  assert (D : solid (pc_device x) = true).
  { destruct Dv as (h & t & -> & [_ H] & T). rewrite solid_append.
    rewrite (member_solid _ _ hex_not_space H).
    destruct T as [-> | (a & b & c & d & -> & [_ A] & [_ B] & [_ C] & [_ D])];
      [reflexivity|].
    rewrite !solid_append.
    now rewrite (member_solid _ _ hex_not_space A),
      (member_solid _ _ hex_not_space B), (member_solid _ _ hex_not_space C),
      (member_solid _ _ hex_not_space D). }
  rewrite D.
  assert (O : solid (opt_text ":" (pc_port x)) = true).
  { destruct (pc_port x) as [d|]; [|reflexivity].
    destruct (Po d eq_refl) as [Dg _]. cbn [opt_text]. rewrite solid_append.
    now rewrite (member_solid _ _ true_digit_not_space Dg). }
  rewrite O.
  assert (C : solid (opt_text EmptyString (pc_path x)) = true).
  { destruct (pc_path x) as [p|]; [|reflexivity].
    destruct (Co p eq_refl) as [N | (p' & -> & N)]; cbn [opt_text append].
    - now apply name_solid.
    - unfold solid. cbn [all_chars]. fold (solid p').
      now rewrite (name_solid p' N). }
  now rewrite C.
Qed.

Lemma capture_pieces (x : Pieces) :
  capture 1 (captures_of x) = Some (pc_registry x)
  /\ capture 2 (captures_of x) = Some (pc_manufacturer x)
  /\ capture 3 (captures_of x) = Some (pc_model x)
  /\ capture 4 (captures_of x) = Some (pc_device x)
  /\ capture 5 (captures_of x) = pc_port x
  /\ capture 6 (captures_of x) = pc_path x.
Proof.
  unfold captures_of.
  destruct (pc_port x), (pc_path x); repeat split; reflexivity.
Qed.

(** The result of the library's [parseRURI] on an identifier made of
    well-shaped pieces. *)
Lemma parse_assemble (x : Pieces) :
  pieces_ok x ->
  let m := captures_of x in
  Ruri.parseRURI (assemble "rcan://" x)
  = if port_out_of_range m
    then failure "Port must be between 1 and 65535"
    else accepted {| raw := assemble "rcan://" x;
                     registry := pc_registry x;
                     manufacturer := pc_manufacturer x;
                     model := pc_model x;
                     deviceId := pc_device x;
                     port := port_of m;
                     capability := capability_of m |}.
Proof.
  intros X m. unfold Ruri.parseRURI.
  rewrite (trim_solid _ (pieces_solid "rcan://" x eq_refl X)).
  rewrite (exec_assemble "rcan://" x eq_refl X). fold m.
  destruct (capture_pieces x) as (C1 & C2 & C3 & C4 & _).
  unfold group. fold m in C1, C2, C3, C4. rewrite C1, C2, C3, C4.
  unfold assemble at 1 2. simpl. reflexivity.
Qed.

(** The library's parser reads back every valid component set. *)
Lemma parse_build (c : RURIParts) :
  valid_parts c = true ->
  Ruri.parseRURI (buildRURI c) = accepted (parsed_as (buildRURI c) c).
Proof.
  intros V. pose proof (pieces_of_ok c V) as X.
  rewrite build_assemble, (parse_assemble _ X).
  destruct (capture_pieces (pieces_of c)) as (_ & _ & _ & _ & C5 & C6).
  unfold port_out_of_range, port_of, capability_of. rewrite C5, C6.
  clear C5 C6 X.
  unfold valid_parts in V. rewrite !andb_true_iff in V.
  destruct V as [[[[[_ _] _] _] Po] Co].
  destruct c as [reg man mdl dev po co]. unfold parsed_as, pieces_of.
  cbn [p_registry p_manufacturer p_model p_deviceId p_port p_capability
       pc_registry pc_manufacturer pc_model pc_device pc_port pc_path] in *.
  assert (Q : co = None \/ exists a name, co = Some (String a name)).
  { destruct co as [[|a name]|]; [discriminate Co | eauto | auto]. }
  assert (P : po = None
              \/ exists p a r,
                   po = Some (Z.pos p) /\ N_to_string (N.pos p) = String a r
                   /\ (Z.pos p <? 1)%Z || (Z.pos p >? 65535)%Z = false).
  { destruct po as [[|p|p]|]; try discriminate Po; [right | now left].
    destruct (N_to_string_cons (N.pos p)) as (a & r & E & _).
    exists p, a, r. repeat split; auto.
    apply andb_true_iff in Po as [_ Po]. apply Z.leb_le in Po.
    apply orb_false_iff. split; [apply Z.ltb_ge | rewrite Z.gtb_ltb; apply Z.ltb_ge];
      lia. }
  destruct P as [-> | (p & a & r & -> & E & Rg)],
           Q as [-> | (b & name & ->)];
    cbn [Z_to_string opt_text strip_slash append]; try reflexivity.
  - pose proof (parseInt_N_to_string (N.pos p)) as PI.
    rewrite E in *. rewrite PI. cbn [Z.of_N]. now rewrite Rg.
  - pose proof (parseInt_N_to_string (N.pos p)) as PI.
    rewrite E in *. rewrite PI. cbn [Z.of_N]. now rewrite Rg.
Qed.

(** Whatever the library's parser returns is a valid component set. *)
Lemma parse_valid (s : string) (p : ParsedRURI) :
  parsed (Ruri.parseRURI s) = Some p -> valid_parts (parts_of p) = true.
Proof.
  unfold Ruri.parseRURI. destruct s as [|c0 s0]; [discriminate|].
  destruct (negb _); [discriminate|].
  destruct (exec true RURI_REGEX _) as [m|] eqn:E; [|discriminate].
  destruct (port_out_of_range m) eqn:Rg; [discriminate|].
  cbn [parsed]. intros [= <-].
  apply exec_inv in E as (pre & x & _ & _ & X & ->).
  destruct (capture_pieces x) as (C1 & C2 & C3 & C4 & C5 & C6).
  destruct X as (R & Ma & Md & Dv & Po & Co).
  unfold valid_parts, parts_of, group, port_of, capability_of.
  cbn [registry manufacturer model deviceId port capability
       p_registry p_manufacturer p_model p_deviceId p_port p_capability].
  unfold port_out_of_range in Rg. rewrite C5 in Rg.
  rewrite C1, C2, C3, C4, C5, C6.
  apply whole_label in R, Ma, Md. apply whole_device in Dv.
  rewrite R, Ma, Md, Dv. cbn [andb].
  apply andb_true_iff. split.
  - destruct (pc_port x) as [d|]; [|reflexivity].
    destruct (Po d eq_refl) as [D L].
    destruct d as [|a d]; [simpl in L; lia|].
    rewrite all_member_true_digit in D.
    rewrite parseInt_digits in * by (auto; discriminate).
    apply orb_false_iff in Rg as [R1 R2].
    apply Z.ltb_ge in R1. rewrite Z.gtb_ltb in R2. apply Z.ltb_ge in R2.
    apply andb_true_iff. split; now apply Z.leb_le.
  - destruct (pc_path x) as [c|]; [|reflexivity].
    destruct (Co c eq_refl) as [N | (c' & -> & N)].
    + pose proof N as (a & r & -> & A & _).
      assert (a <> "/"%char) by (intros ->; discriminate).
      replace (strip_slash (String a r)) with (String a r)
        by (destruct a as [[] [] [] [] [] [] [] []]; try reflexivity; congruence).
      now apply whole_name.
    + cbn [strip_slash]. pose proof N as (a & r & -> & _).
      now apply whole_name.
Qed.

(** The labels of the pattern are the labels of the specification that
    have two characters or more. *)
Lemma ends_with_char_snoc (p : ascii -> bool) (mid : string) (z : ascii) :
  ends_with_char p (mid ++ String z EmptyString) = p z.
Proof.
  induction mid as [|a mid IH]; [reflexivity|].
  cbn [append ends_with_char]. rewrite IH.
  destruct mid; reflexivity.
Qed.

Lemma snoc_split (w : string) :
  w <> EmptyString -> exists mid z, w = mid ++ String z EmptyString.
Proof.
  induction w as [|a w IH]; [congruence|]. intros _.
  destruct w as [|b w].
  - exists EmptyString, a. reflexivity.
  - destruct IH as (mid & z & E); [discriminate|].
    exists (String a mid), z. cbn [append]. now rewrite E.
Qed.

Lemma spec_label_iff (inner : cset) (w : string) :
  (forall c, member true alnum c = true -> member true inner c = true) ->
  label_shape inner w
  <-> spec_label inner w = true /\ 2 <= String.length w.
Proof.
  intros I. unfold spec_label. split.
  - intros (a & mid & z & -> & A & Mid & Z). split.
    + cbn [starts_with_char all_chars]. rewrite A, (I a A). cbn [andb].
      rewrite all_chars_append. cbn [all_chars]. rewrite Mid, (I z Z).
      cbn [andb].
      change (String a (mid ++ String z EmptyString))
        with (String a mid ++ String z EmptyString).
      now rewrite ends_with_char_snoc.
    + cbn [String.length]. rewrite length_append. cbn [String.length]. lia.
  - intros [H L]. destruct w as [|a r]; [discriminate H|].
    destruct r as [|b r]; [cbn in L; lia|].
    destruct (snoc_split (String b r)) as (mid & z & E); [discriminate|].
    rewrite E in *. clear E.
    rewrite !andb_true_iff in H. destruct H as [[A All] Z].
    cbn [starts_with_char] in A. cbn [all_chars] in All.
    apply andb_true_iff in All as [_ All].
    rewrite all_chars_append in All. apply andb_true_iff in All as [Mid _].
    change (String a (mid ++ String z EmptyString))
      with (String a mid ++ String z EmptyString) in Z.
    rewrite ends_with_char_snoc in Z.
    exists a, mid, z. auto.
Qed.

Lemma valid_parts_spec (c : RURIParts) :
  valid_parts c = true
  <-> spec_valid_parts c = true /\ long_labels c = true.
Proof.
  unfold valid_parts, spec_valid_parts, long_labels.
  rewrite !andb_true_iff, !Nat.leb_le, !whole_label.
  rewrite (spec_label_iff _ _ alnum_in_dot_dash).
  rewrite !(spec_label_iff _ _ alnum_in_dash).
  tauto.
Qed.

End RoundTrip.

(** ** Trimming *)

Section Trimming.

Lemma trimStart_blank_append (w s : string) :
  blank w = true -> trimStart (w ++ s) = trimStart s.
Proof.
  unfold blank. induction w as [|c w IH]; cbn [all_chars append trimStart];
    [reflexivity|].
  intros H. apply andb_true_iff in H as [-> H]. auto.
Qed.

Lemma trimEnd_blank (w : string) : blank w = true -> trimEnd w = EmptyString.
Proof.
  unfold blank. induction w as [|c w IH]; cbn [all_chars trimEnd];
    [reflexivity|].
  intros H. apply andb_true_iff in H as [-> H]. now rewrite (IH H).
Qed.

Lemma trimEnd_append_blank (s w : string) :
  blank w = true -> trimEnd (s ++ w) = trimEnd s.
Proof.
  intros H. induction s as [|c s IH]; cbn [append trimEnd].
  - now apply trimEnd_blank.
  - now rewrite IH.
Qed.

Lemma trim_append_blank (s w : string) :
  blank w = true -> trim (s ++ w) = trim s.
Proof.
  intros H. unfold trim. induction s as [|c s IH]; cbn [append trimStart].
  - rewrite <- (append_nil_r w), (trimStart_blank_append w EmptyString H).
    reflexivity.
  - destruct (is_space c); [exact IH|].
    apply (trimEnd_append_blank (String c s) w H).
Qed.

(** White space around a string is invisible to [trim]. *)
Lemma trim_padding (w1 s w2 : string) :
  blank w1 = true -> blank w2 = true -> trim (w1 ++ s ++ w2) = trim s.
Proof.
  intros H1 H2. rewrite <- (trim_append_blank s w2 H2).
  unfold trim. now rewrite trimStart_blank_append.
Qed.

End Trimming.

(** ** Case of letters *)

Section CaseFolding.

Lemma lower_of_upper c : to_lower (to_upper c) = to_lower c.
Proof. by_cases_on c. Qed.

Lemma space_of_upper c : is_space (to_upper c) = is_space c.
Proof. by_cases_on c. Qed.

Lemma upper_of_upper c : to_upper (to_upper c) = to_upper c.
Proof. by_cases_on c. Qed.

Lemma digit_of_upper c : is_digit (to_upper c) = true -> to_upper c = c.
Proof. by_cases_on c. Qed.

Lemma upper_of_digit c : is_digit c = true -> to_upper c = c.
Proof. by_cases_on c. Qed.

Lemma upper_slash c : to_upper c = "/"%char -> c = "/"%char.
Proof. by_cases_on c. Qed.

Lemma same_char_upper a b :
  same_char true a b = true <-> to_upper a = to_upper b.
Proof. apply Ascii.eqb_eq. Qed.

Lemma member_variant (cs : cset) a b :
  same_char true a b = true -> member true cs a = member true cs b.
Proof.
  intros H. apply same_char_upper in H. unfold member.
  now rewrite <- (lower_of_upper a), <- (lower_of_upper b), H.
Qed.

Lemma same_char_variant x a b :
  same_char true a b = true -> same_char true x a = same_char true x b.
Proof. intros H. apply same_char_upper in H. unfold same_char. now rewrite H. Qed.

Lemma space_variant a b : same_char true a b = true -> is_space a = is_space b.
Proof.
  intros H. apply same_char_upper in H.
  now rewrite <- (space_of_upper a), <- (space_of_upper b), H.
Qed.

Lemma slash_variant a b :
  same_char true a b = true -> a = "/"%char <-> b = "/"%char.
Proof.
  intros H. apply same_char_upper in H. split; intros ->.
  - apply upper_slash. now rewrite <- H.
  - apply upper_slash. now rewrite H.
Qed.

Lemma digit_variant a b :
  same_char true a b = true -> is_digit a = true -> b = a.
Proof.
  intros H D. apply same_char_upper in H.
  rewrite (upper_of_digit a D) in H. rewrite H.
  symmetry. apply digit_of_upper. now rewrite <- H.
Qed.

Lemma variant_nil_l t : case_variant EmptyString t = true -> t = EmptyString.
Proof. now destruct t. Qed.

Lemma variant_cons_l a s t :
  case_variant (String a s) t = true ->
  exists b t', t = String b t' /\ same_char true a b = true
               /\ case_variant s t' = true.
Proof.
  destruct t as [|b t']; [discriminate|]. unfold case_variant. cbn [same_text].
  intros H. apply andb_true_iff in H as [H1 H2]. eauto.
Qed.

Lemma variant_length s t :
  case_variant s t = true -> String.length s = String.length t.
Proof.
  revert t; induction s as [|a s IH]; intros t H.
  - now rewrite (variant_nil_l t H).
  - apply variant_cons_l in H as (b & t' & -> & _ & H). simpl. auto.
Qed.

Lemma variant_take k s t :
  case_variant s t = true -> case_variant (take k s) (take k t) = true.
Proof.
  revert s t; induction k as [|k IH]; intros s t H.
  - now destruct s, t.
  - destruct s as [|a s].
    + now rewrite (variant_nil_l t H).
    + apply variant_cons_l in H as (b & t' & -> & E & H).
      unfold case_variant. cbn [take same_text]. rewrite E. now apply IH.
Qed.

Lemma variant_consumed s t s1 t1 :
  case_variant s t = true -> case_variant s1 t1 = true ->
  case_variant (consumed s s1) (consumed t t1) = true.
Proof.
  intros H H1. unfold consumed.
  rewrite <- (variant_length s t H), <- (variant_length s1 t1 H1).
  now apply variant_take.
Qed.

Lemma variant_digits d d' :
  case_variant d d' = true -> all_chars is_digit d = true -> d' = d.
Proof.
  revert d'; induction d as [|a d IH]; intros d' H D.
  - now apply variant_nil_l.
  - apply variant_cons_l in H as (b & t & -> & E & H).
    cbn [all_chars] in D. apply andb_true_iff in D as [Da D].
    now rewrite (digit_variant a b E Da), (IH t H D).
Qed.

Lemma trimStart_variant s t :
  case_variant s t = true -> case_variant (trimStart s) (trimStart t) = true.
Proof.
  revert t; induction s as [|a s IH]; intros t H.
  - now rewrite (variant_nil_l t H).
  - pose proof H as H'. apply variant_cons_l in H as (b & t' & -> & E & H).
    cbn [trimStart]. rewrite <- (space_variant a b E).
    destruct (is_space a); auto.
Qed.

Lemma trimEnd_variant s t :
  case_variant s t = true -> case_variant (trimEnd s) (trimEnd t) = true.
Proof.
  revert t; induction s as [|a s IH]; intros t H.
  - now rewrite (variant_nil_l t H).
  - apply variant_cons_l in H as (b & t' & -> & E & H).
    cbn [trimEnd]. specialize (IH t' H).
    rewrite <- (space_variant a b E).
    destruct (trimEnd s) as [|x u].
    + rewrite (variant_nil_l _ IH).
      destruct (is_space a); [reflexivity|].
      unfold case_variant. cbn [same_text]. now rewrite E.
    + apply variant_cons_l in IH as (y & v & -> & Exy & IH).
      unfold case_variant. cbn [same_text]. rewrite E, Exy. exact IH.
Qed.

Lemma trim_variant s t :
  case_variant s t = true -> case_variant (trim s) (trim t) = true.
Proof. intros H. apply trimEnd_variant, trimStart_variant, H. Qed.

(** The matcher on two case variants of one input. *)

Lemma star_variant p (s t : string) (k k' : string -> option Caps) :
  (forall a b, same_char true a b = true -> p a = p b) ->
  case_variant s t = true ->
  (forall s1 t1, case_variant s1 t1 = true -> result_variant (k s1) (k' t1)) ->
  result_variant (star p s k) (star p t k').
Proof.
  intros P. revert t; induction s as [|a s IH]; intros t H K.
  - rewrite (variant_nil_l t H). now apply K.
  - pose proof H as H'. apply variant_cons_l in H as (b & t' & -> & E & H).
    cbn [star]. rewrite <- (P a b E).
    specialize (IH t' H K). specialize (K _ _ H').
    destruct (p a); [|exact K].
    destruct (star p s k), (star p t' k'); try contradiction; auto.
Qed.

Lemma upto_variant p hi (s t : string) (k k' : string -> option Caps) :
  (forall a b, same_char true a b = true -> p a = p b) ->
  case_variant s t = true ->
  (forall s1 t1, case_variant s1 t1 = true -> result_variant (k s1) (k' t1)) ->
  result_variant (upto p hi s k) (upto p hi t k').
Proof.
  intros P. revert s t; induction hi as [|hi IH]; intros s t H K.
  - now apply K.
  - destruct s as [|a s].
    + rewrite (variant_nil_l t H). now apply K.
    + pose proof H as H'. apply variant_cons_l in H as (b & t' & -> & E & H).
      cbn [upto]. rewrite <- (P a b E).
      specialize (IH s t' H K). specialize (K _ _ H').
      destruct (p a); [|exact K].
      destruct (upto p hi s k), (upto p hi t' k'); try contradiction; auto.
Qed.

Lemma exactly_variant p lo (s t : string) (k k' : string -> option Caps) :
  (forall a b, same_char true a b = true -> p a = p b) ->
  case_variant s t = true ->
  (forall s1 t1, case_variant s1 t1 = true -> result_variant (k s1) (k' t1)) ->
  result_variant (exactly p lo s k) (exactly p lo t k').
Proof.
  intros P. revert s t; induction lo as [|lo IH]; intros s t H K.
  - now apply K.
  - destruct s as [|a s].
    + rewrite (variant_nil_l t H). exact I.
    + apply variant_cons_l in H as (b & t' & -> & E & H).
      cbn [exactly]. rewrite <- (P a b E).
      destruct (p a); [now apply IH | exact I].
Qed.

Lemma run_variant (n : nat) (r : regex) :
  forall s t c c' k k',
    case_variant s t = true -> caps_variant c c' ->
    (forall s1 t1 c1 c1',
        case_variant s1 t1 = true -> caps_variant c1 c1' ->
        result_variant (k s1 c1) (k' t1 c1')) ->
    result_variant (run true n r s c k) (run true n r t c' k').
Proof.
  induction r as [|x|cs|cs|cs lo hi|r1 IH1 r2 IH2|r IH|i r IH| |];
    intros s t c c' k k' H C K; cbn [run].
  - now apply K.
  - destruct s as [|a s].
    + rewrite (variant_nil_l t H). exact I.
    + apply variant_cons_l in H as (b & t' & -> & E & H).
      rewrite <- (same_char_variant x a b E).
      destruct (same_char true x a); [now apply K | exact I].
  - destruct s as [|a s].
    + rewrite (variant_nil_l t H). exact I.
    + apply variant_cons_l in H as (b & t' & -> & E & H).
      rewrite <- (member_variant cs a b E).
      destruct (member true cs a); [now apply K | exact I].
  - apply star_variant; auto using member_variant.
  - apply exactly_variant; auto using member_variant.
    intros s1 t1 H1. apply upto_variant; auto using member_variant.
  - apply IH1; auto.
  - specialize (IH s t c c' k k' H C K). specialize (K s t c c' H C).
    destruct (run true n r s c k), (run true n r t c' k');
      try contradiction; auto.
  - apply IH; auto. intros s1 t1 c1 c1' H1 C1. apply K; auto.
    constructor; [|exact C1]. split; [reflexivity|].
    now apply variant_consumed.
  - rewrite <- (variant_length s t H).
    destruct (Nat.eqb _ n); [now apply K | exact I].
  - destruct s as [|a s].
    + rewrite (variant_nil_l t H). now apply K.
    + apply variant_cons_l in H as (b & t' & -> & _ & _). exact I.
Qed.

Lemma search_variant (n : nat) (r : regex) (s t : string) :
  case_variant s t = true ->
  result_variant (search true n r s) (search true n r t).
Proof.
  revert t; induction s as [|a s IH]; intros t H.
  - rewrite (variant_nil_l t H). cbn [search].
    destruct (run _ _ _ _ _ _) as [caps|] eqn:E; [|exact I].
    pose proof (run_variant n r EmptyString EmptyString [] []
                  (fun _ x => Some x) (fun _ x => Some x) eq_refl
                  (Forall2_nil _)) as V.
    rewrite E in V. apply V. auto.
  - pose proof H as H'. apply variant_cons_l in H as (b & t' & -> & E & H).
    cbn [search].
    pose proof (run_variant n r (String a s) (String b t') [] []
                  (fun _ x => Some x) (fun _ x => Some x) H'
                  (Forall2_nil _)) as V.
    specialize (IH t' H).
    destruct (run true n r (String a s) _ _), (run true n r (String b t') _ _);
      try (exfalso; apply V; now auto); try (apply V; now auto); exact IH.
Qed.

Lemma exec_variant (r : regex) (s t : string) :
  case_variant s t = true -> result_variant (exec true r s) (exec true r t).
Proof.
  intros H. unfold exec. rewrite <- (variant_length s t H).
  now apply search_variant.
Qed.

Lemma capture_variant (i : nat) (c c' : Caps) :
  caps_variant c c' -> opt_variant (capture i c) (capture i c').
Proof.
  induction 1 as [|[j u] [j' v] c c' [J V] _ IH]; cbn [capture]; [exact I|].
  simpl in J, V. subst j'. destruct (Nat.eqb i j); [exact V | exact IH].
Qed.

Lemma group_variant (i : nat) (c c' : Caps) :
  caps_variant c c' -> case_variant (group i c) (group i c') = true.
Proof.
  intros C. pose proof (capture_variant i c c' C) as V. unfold group.
  destruct (capture i c), (capture i c'); try contradiction; auto.
Qed.

Lemma strip_slash_other a r : a <> "/"%char -> strip_slash (String a r) = String a r.
Proof.
  intros H. destruct a as [[] [] [] [] [] [] [] []]; try reflexivity; congruence.
Qed.

Lemma strip_slash_variant s t :
  case_variant s t = true ->
  case_variant (strip_slash s) (strip_slash t) = true.
Proof.
  intros H. destruct s as [|a s].
  - now rewrite (variant_nil_l t H).
  - pose proof H as H'. apply variant_cons_l in H as (b & t' & -> & E & H).
    destruct (ascii_dec a "/") as [-> | Na].
    + now rewrite (proj1 (slash_variant _ b E) eq_refl).
    + assert (Nb : b <> "/"%char) by (intros B; apply Na, (slash_variant a b E), B).
      now rewrite (strip_slash_other a s Na), (strip_slash_other b t' Nb).
Qed.

Lemma capability_of_variant (c c' : Caps) :
  caps_variant c c' -> opt_variant (capability_of c) (capability_of c').
Proof.
  intros C. pose proof (capture_variant 6 c c' C) as V. unfold capability_of.
  destruct (capture 6 c) as [u|], (capture 6 c') as [v|]; try contradiction;
    [|exact I].
  apply strip_slash_variant in V.
  destruct (strip_slash u) as [|x u'].
  - now rewrite (variant_nil_l _ V).
  - apply variant_cons_l in V as (y & v' & -> & E & V).
    unfold opt_variant, case_variant. cbn [same_text]. now rewrite E.
Qed.

(** The port group holds digits, which have no case. *)
Lemma port_group_variant (s : string) (m m' : Caps) :
  exec true RURI_REGEX s = Some m -> caps_variant m m' ->
  capture 5 m' = capture 5 m.
Proof.
  intros E C. pose proof (capture_variant 5 m m' C) as V.
  apply exec_inv in E as (pre & x & _ & _ & X & ->).
  destruct (capture_pieces x) as (_ & _ & _ & _ & C5 & _).
  destruct X as (_ & _ & _ & _ & Po & _).
  rewrite C5 in *. destruct (pc_port x) as [d|], (capture 5 m') as [d'|];
    try contradiction; [|reflexivity].
  destruct (Po d eq_refl) as [D _]. rewrite all_member_true_digit in D.
  now rewrite (variant_digits d d' V D).
Qed.

Lemma port_variant (s : string) (m m' : Caps) :
  exec true RURI_REGEX s = Some m -> caps_variant m m' ->
  port_of m' = port_of m /\ port_out_of_range m' = port_out_of_range m.
Proof.
  intros E C. unfold port_of, port_out_of_range.
  now rewrite (port_group_variant s m m' E C).
Qed.

(** The script's parser accepts every case variant of what it accepts. *)
Lemma script_parse_variant (s t : string) (p : ParsedRURI) :
  case_variant s t = true ->
  Sync.parseRURI s = Some p ->
  exists q, Sync.parseRURI t = Some q /\ same_components p q.
Proof.
  intros V. unfold Sync.parseRURI.
  pose proof (trim_variant s t V) as T.
  pose proof (exec_variant RURI_REGEX _ _ T) as X.
  destruct (exec true RURI_REGEX (trim s)) as [m|] eqn:E; [|discriminate].
  destruct (exec true RURI_REGEX (trim t)) as [m'|]; [|contradiction].
  intros [= <-]. eexists. split; [reflexivity|].
  unfold same_components.
  cbn [raw registry manufacturer model deviceId port capability].
  destruct (port_variant _ m m' E X) as [-> _].
  auto 10 using group_variant, capability_of_variant.
Qed.

(** The library's parser does so as long as the scheme keeps its lower
    case. *)
Lemma library_parse_variant (s t : string) (p : ParsedRURI) :
  case_variant s t = true ->
  startsWith (trim t) "rcan://" = true ->
  parsed (Ruri.parseRURI s) = Some p ->
  exists q, Ruri.parseRURI t = accepted q /\ same_components p q.
Proof.
  intros V S. unfold Ruri.parseRURI.
  destruct s as [|a s]; [discriminate|].
  pose proof V as V'. apply variant_cons_l in V' as (b & t' & -> & _ & _).
  pose proof (trim_variant _ _ V) as T.
  pose proof (exec_variant RURI_REGEX _ _ T) as X.
  rewrite S. cbn [negb].
  destruct (negb _); [discriminate|].
  destruct (exec true RURI_REGEX (trim (String a s))) as [m|] eqn:E;
    [|discriminate].
  destruct (exec true RURI_REGEX (trim (String b t'))) as [m'|]; [|contradiction].
  destruct (port_variant _ m m' E X) as [Pp ->].
  destruct (port_out_of_range m); [discriminate|].
  cbn [parsed]. intros [= <-]. eexists. split; [reflexivity|].
  unfold same_components.
  cbn [raw registry manufacturer model deviceId port capability].
  rewrite Pp. auto 10 using group_variant, capability_of_variant.
Qed.

End CaseFolding.

(** ** The store under [syncRURI] *)

Section StoreFacts.

Lemma join_In (sep x : string) (l : list string) :
  In x l -> exists a b, join sep l = a ++ x ++ b.
Proof.
  induction l as [|y l IH]; [contradiction|]. intros [-> | H].
  - destruct l as [|z l].
    + exists EmptyString, EmptyString. simpl. now rewrite append_nil_r.
    + exists EmptyString, (sep ++ join sep (z :: l)). reflexivity.
  - destruct (IH H) as (a & b & E). destruct l as [|z l]; [contradiction|].
    exists (y ++ sep ++ a), b. cbn [join] in *. rewrite E.
    now rewrite !append_assoc.
Qed.

Lemma includes_join (sep x tail : string) (l : list string) :
  In x l -> includes (join sep l ++ tail) x = true.
Proof.
  intros H. destruct (join_In sep x l H) as (a & b & ->).
  rewrite !append_assoc. apply includes_append.
Qed.

Lemma join_app (sep x : string) (before after : list string) :
  before <> [] ->
  join sep (before ++ x :: after)
  = join sep before ++ sep ++ join sep (x :: after).
Proof.
  induction before as [|b [|b' before] IH]; [congruence| |]; intros _.
  - reflexivity.
  - change (join sep ((b :: b' :: before) ++ x :: after))
      with (b ++ sep ++ join sep ((b' :: before) ++ x :: after)).
    rewrite IH by discriminate.
    change (join sep (b :: b' :: before))
      with (b ++ sep ++ join sep (b' :: before)).
    now rewrite !append_assoc.
Qed.




Lemma replace_extension (a : string) :
  dotless a = true -> replace (a ++ ".yaml") ".yaml" EmptyString = a.
Proof.
  unfold dotless. induction a as [|c a IH]; [reflexivity|].
  cbn [all_chars]. intros H. apply andb_true_iff in H as [C H].
  cbn [append replace startsWith].
  destruct (Ascii.eqb "." c); [discriminate|]. cbn [andb].
  now rewrite (IH H).
Qed.

Lemma writeFileSync_names_in (st : Store) (f y g : string) :
  In g (readdirSync (writeFileSync st f y)) <-> g = f \/ In g (readdirSync st).
Proof.
  destruct (writeFileSync_cases st f y) as [[I ->] | [N ->]].
  - rewrite overwrite_names. split; [auto | intros [-> | H]; auto].
  - apply insert_names_in.
Qed.

Lemma insert_NoDup (st : Store) (f y : string) :
  ~ In f (readdirSync st) -> NoDup (readdirSync st) ->
  NoDup (readdirSync (insert st f y)).
Proof.
  induction st as [|[h c] st IH]; cbn [insert readdirSync map fst In].
  - intros _ _. repeat constructor. intros [].
  - fold (readdirSync st). intros N D. inversion D as [|? ? D1 D2]; subst.
    destruct (String.ltb f h); cbn [map fst].
    + fold (readdirSync st). constructor; [exact N | exact D].
    + fold (readdirSync (insert st f y)). constructor; [|apply IH; tauto].
      intros H. apply insert_names_in in H as [-> | H]; tauto.
Qed.

Lemma writeFileSync_NoDup (st : Store) (f y : string) :
  NoDup (readdirSync st) -> NoDup (readdirSync (writeFileSync st f y)).
Proof.
  intros D. destruct (writeFileSync_cases st f y) as [[I ->] | [N ->]].
  - now rewrite overwrite_names.
  - now apply insert_NoDup.
Qed.

Lemma overwrite_again (st : Store) (f y : string) :
  overwrite (overwrite st f y) f y = overwrite st f y.
Proof.
  induction st as [|[h c] st IH]; cbn [overwrite]; [reflexivity|].
  destruct (String.eqb_spec h f) as [-> | Nf]; cbn [overwrite].
  - now rewrite String.eqb_refl.
  - destruct (String.eqb_spec h f); [congruence|]. now rewrite IH.
Qed.

Lemma overwrite_inserted (st : Store) (f y : string) :
  ~ In f (readdirSync st) -> overwrite (insert st f y) f y = insert st f y.
Proof.
  induction st as [|[h c] st IH]; cbn [insert readdirSync map fst In].
  - intros _. cbn [overwrite]. now rewrite String.eqb_refl.
  - fold (readdirSync st). intros N.
    destruct (String.ltb f h); cbn [overwrite].
    + now rewrite String.eqb_refl.
    + destruct (String.eqb_spec h f) as [E | _]; [tauto|].
      rewrite IH; tauto.
Qed.

Lemma writeFileSync_again (st : Store) (f y : string) :
  writeFileSync (writeFileSync st f y) f y = writeFileSync st f y.
Proof.
  assert (I : In f (readdirSync (writeFileSync st f y)))
    by (apply writeFileSync_names_in; now left).
  rewrite (writeFileSync_present _ f y I).
  destruct (writeFileSync_cases st f y) as [[_ ->] | [N ->]].
  - apply overwrite_again.
  - now apply overwrite_inserted.
Qed.

Lemma record_name_spec (f : string) :
  record_name f = true -> endsWith f ".yaml" = true ->
  replace f ".yaml" EmptyString <> EmptyString
  /\ replace f ".yaml" EmptyString ++ ".yaml" = f.
Proof.
  unfold record_name. intros H E. rewrite E in H. cbn [negb orb] in H.
  apply andb_true_iff in H as [H1 H2].
  apply String.eqb_eq in H2. split; [|exact H2].
  intros Z. rewrite Z in H1. discriminate.
Qed.

(** Lookup after the write of a new record. *)
Lemma first_with_created (needle f y : string) (st : Store) :
  first_with needle (filter is_yaml st) = None ->
  endsWith f ".yaml" = true -> includes y needle = true ->
  first_with needle (filter is_yaml (writeFileSync st f y))
  = Some (replace f ".yaml" EmptyString).
Proof.
  intros H F Y. destruct (writeFileSync_cases st f y) as [[I ->] | [_ ->]].
  - induction st as [|[h c] st IH]; [destruct I|]. cbn [overwrite filter].
    cbn [filter] in H. unfold is_yaml at 1 in H. cbn [fst] in H.
    destruct (String.eqb_spec h f) as [-> | Nf]; cbn [filter];
      unfold is_yaml at 1; cbn [fst].
    + rewrite F. cbn [first_with]. now rewrite Y.
    + assert (I' : In f (readdirSync st)) by (destruct I; [contradiction | auto]).
      destruct (endsWith h ".yaml"); [|auto].
      cbn [first_with] in *. destruct (includes c needle); [discriminate | auto].
  - induction st as [|[h c] st IH]; cbn [insert filter].
    + unfold is_yaml at 1. cbn [fst]. rewrite F. cbn [first_with]. now rewrite Y.
    + cbn [filter] in H. unfold is_yaml at 1 in H. cbn [fst] in H.
      destruct (String.ltb f h); cbn [filter]; unfold is_yaml at 1; cbn [fst].
      * rewrite F. cbn [first_with]. now rewrite Y.
      * destruct (endsWith h ".yaml"); [|auto].
        cbn [first_with] in *. destruct (includes c needle); [discriminate | auto].
Qed.

Lemma first_with_In (needle e : string) (l : Store) :
  first_with needle l = Some e ->
  exists g c, In (g, c) l /\ e = replace g ".yaml" EmptyString
              /\ includes c needle = true.
Proof.
  induction l as [|[h c] l IH]; [discriminate|]. cbn [first_with].
  destruct (includes c needle) eqn:I.
  - intros [= <-]. exists h, c. auto with datatypes.
  - intros H. destruct (IH H) as (g & d & G & E & Y).
    exists g, d. auto with datatypes.
Qed.

(** The file of the record that the lookup finds. *)
Lemma first_with_file (needle e : string) (st : Store) :
  forallb record_name (readdirSync st) = true ->
  first_with needle (filter is_yaml st) = Some e ->
  In (e ++ ".yaml") (readdirSync st).
Proof.
  intros Ok H. apply first_with_In in H as (g & c & G & -> & _).
  apply filter_In in G as [G Y]. cbn [fst] in Y.
  assert (Hg : In g (readdirSync st)) by (apply in_map_iff; exists (g, c); auto).
  rewrite forallb_forall in Ok.
  destruct (record_name_spec g (Ok g Hg) Y) as [_ E]. now rewrite E.
Qed.

(** Lookup after the rewrite of the record that was found. *)
Lemma first_with_updated (needle e y : string) (st : Store) :
  forallb record_name (readdirSync st) = true ->
  first_with needle (filter is_yaml st) = Some e ->
  includes y needle = true ->
  first_with needle (filter is_yaml (writeFileSync st (e ++ ".yaml") y))
  = Some e.
Proof.
  intros Ok H Y.
  rewrite (writeFileSync_present _ _ _ (first_with_file _ _ _ Ok H)).
  induction st as [|[h c] st IH]; [discriminate|].
  cbn [readdirSync map fst forallb] in Ok.
  apply andb_true_iff in Ok as [Oh Ok].
  cbn [filter] in H. unfold is_yaml at 1 in H. cbn [fst] in H.
  cbn [overwrite].
  destruct (String.eqb_spec h (e ++ ".yaml")) as [-> | Nf]; cbn [filter];
    unfold is_yaml at 1; cbn [fst].
  - rewrite endsWith_append. cbn [first_with]. rewrite Y.
    destruct (record_name_spec _ Oh (endsWith_append e ".yaml")) as [_ R].
    apply append_inv_tail in R. now rewrite R.
  - destruct (endsWith h ".yaml") eqn:Eh; [|auto].
    cbn [first_with] in *. destruct (includes c needle).
    + injection H as <-. destruct (record_name_spec _ Oh Eh) as [_ R].
      congruence.
    + auto.
Qed.

(** In a well-formed directory the lookup returns a non-empty
    identifier, the name of the file it found less its extension. *)
Lemma findExisting_name (st : Store) (ruri e : string) :
  store_ok st -> findExistingByRURI st ruri = Some e ->
  e <> EmptyString /\ In (e ++ ".yaml") (readdirSync st).
Proof.
  intros [_ Ok] H. unfold findExistingByRURI in H.
  apply first_with_In in H as (g & c & G & -> & _).
  apply filter_In in G as [G Y]. cbn [fst] in Y.
  assert (Hg : In g (readdirSync st)) by (apply in_map_iff; exists (g, c); auto).
  rewrite forallb_forall in Ok.
  destruct (record_name_spec g (Ok g Hg) Y) as [N E].
  split; [exact N | now rewrite E].
Qed.

Lemma no_record_iff (st : Store) (ruri : string) :
  first_with (ruri_line ruri) (filter is_yaml st) = None
  <-> records_for st ruri = 0.
Proof.
  unfold records_for. induction st as [|[h c] st IH]; [now split|].
  cbn [filter]. unfold is_yaml at 1, record_of at 1. cbn [fst snd].
  destruct (endsWith h ".yaml"); cbn [andb]; [|exact IH].
  cbn [first_with]. destruct (includes c (ruri_line ruri)); [|exact IH].
  split; discriminate.
Qed.

Lemma records_created (st : Store) (ruri f y : string) :
  records_for st ruri = 0 ->
  endsWith f ".yaml" = true -> includes y (ruri_line ruri) = true ->
  records_for (writeFileSync st f y) ruri = 1.
Proof.
  unfold records_for. intros H F Y.
  destruct (writeFileSync_cases st f y) as [[I ->] | [_ ->]].
  - induction st as [|[h c] st IH]; [destruct I|]. cbn [overwrite filter].
    cbn [filter] in H.
    destruct (String.eqb_spec h f) as [-> | Nf]; cbn [filter].
    + unfold record_of at 1. cbn [fst snd]. rewrite F, Y. cbn [andb length].
      destruct (record_of ruri (f, c)); [discriminate | now rewrite H].
    + assert (I' : In f (readdirSync st)) by (destruct I; [contradiction | auto]).
      destruct (record_of ruri (h, c)); [discriminate | auto].
  - destruct (insert_split st f y) as (a & b & -> & ->).
    rewrite filter_app in *. cbn [filter]. unfold record_of at 2.
    cbn [fst snd]. rewrite F, Y. cbn [andb].
    rewrite length_app in *. cbn [List.length]. lia.
Qed.

Lemma records_updated (st : Store) (ruri e y : string) :
  store_ok st ->
  first_with (ruri_line ruri) (filter is_yaml st) = Some e ->
  includes y (ruri_line ruri) = true ->
  records_for (writeFileSync st (e ++ ".yaml") y) ruri = records_for st ruri.
Proof.
  unfold records_for. intros [Nd Ok] H Y.
  rewrite (writeFileSync_present _ _ _ (first_with_file _ _ _ Ok H)).
  assert (RO : forall h c, record_of ruri (h, c)
                           = endsWith h ".yaml" && includes c (ruri_line ruri))
    by reflexivity.
  induction st as [|[h c] st IH]; [discriminate|].
  cbn [readdirSync map fst forallb] in Nd, Ok.
  apply andb_true_iff in Ok as [Oh Ok]. inversion Nd as [|? ? N1 N2]; subst.
  cbn [filter] in H. unfold is_yaml at 1 in H. cbn [fst] in H.
  cbn [overwrite].
  destruct (String.eqb_spec h (e ++ ".yaml")) as [-> | Nf]; cbn [filter];
    rewrite !RO.
  - rewrite endsWith_append in *. rewrite Y. cbn [andb first_with] in *.
    destruct (includes c (ruri_line ruri)); [reflexivity|].
    exfalso. apply first_with_In in H as (g & d & G & -> & _).
    apply filter_In in G as [G Yg]. cbn [fst] in Yg.
    assert (Hg : In g (readdirSync st)) by (apply in_map_iff; exists (g, d); auto).
    rewrite forallb_forall in Ok.
    destruct (record_name_spec g (Ok g Hg) Yg) as [_ E].
    rewrite E in N1. exact (N1 Hg).
  - destruct (endsWith h ".yaml") eqn:Eh; cbn [andb]; [|now apply IH].
    cbn [first_with] in H. destruct (includes c (ruri_line ruri)).
    + injection H as <-. destruct (record_name_spec _ Oh Eh) as [_ R].
      congruence.
    + now apply IH.
Qed.

Lemma digit_dotless (s : string) :
  all_chars is_digit s = true -> dotless s = true.
Proof.
  apply all_chars_impl. intros c. by_cases_on c.
Qed.

Lemma rrn_dotless (k : N) : dotless (rrn k) = true.
Proof.
  unfold rrn, dotless. cbn [append all_chars].
  apply (digit_dotless _ (padded_digits k 8)).
Qed.

Lemma max_or_zero_some (l : list (option Z)) :
  (forall y, In y l -> exists k, y = Some (Z.of_N k)) ->
  exists m, max_or_zero l = Some (Z.of_N m).
Proof.
  intros A. destruct l as [|y l]; [now exists 0%N|]. cbn [max_or_zero].
  destruct (A y (or_introl eq_refl)) as (x & ->).
  assert (B : forall y, In y l -> exists k, y = Some (Z.of_N k))
    by auto with datatypes.
  clear A. revert x. induction l as [|z l IH]; intros x; cbn [fold_left]; [eauto|].
  destruct (B z (or_introl eq_refl)) as (k & ->). cbn [max2].
  rewrite <- N2Z.inj_max. apply IH. auto with datatypes.
Qed.

(** The allocator always returns a well-formed identifier. *)
Lemma getNextRRN_shape (st : Store) : exists k, getNextRRN st = rrn k.
Proof.
  unfold getNextRRN.
  destruct (max_or_zero_some
              (map rrn_number (filter is_rrn_file (readdirSync st))))
    as (m & ->).
  - intros y Y. apply in_map_iff in Y as (f & <- & F).
    apply filter_In in F as [_ F].
    destruct (rrn_file_char f F) as (k & K & ->).
    exists k. now apply rrn_file_matches.
  - exists (m + 1)%N. cbn [option_map number_to_string].
    replace (Z.of_N m + 1)%Z with (Z.of_N (m + 1)) by lia.
    now rewrite Z_to_string_of_N.
Qed.

End StoreFacts.

Section SyncFacts.

Variable fetch : string -> Result JsValue.
Variable today : string.
Variable positive_numeral : string -> bool.

Lemma render_name (m : JsValue) (rrn y : string) :
  manifestToYaml today positive_numeral m rrn = Ok y ->
  exists s, (v <- get m "name" ;; to_string v) = Ok s.
Proof.
  unfold manifestToYaml, yaml_lines.
  destruct (v <- get m "name" ;; to_string v) as [s|e]; [eauto | discriminate].
Qed.

(** The rendered record carries the line the lookup searches for. *)
Lemma render_ruri_line (m : JsValue) (rrn y ruri : string) :
  manifestToYaml today positive_numeral m rrn = Ok y -> get m "ruri" = Ok (JStr ruri) ->
  includes y (ruri_line ruri) = true.
Proof.
  unfold manifestToYaml. intros H G.
  destruct (yaml_lines today positive_numeral m rrn) as [ls|] eqn:L;
    [|discriminate].
  cbn [bind] in H. injection H as <-.
  apply includes_join. unfold yaml_lines in L. rewrite G in L.
  repeat match type of L with
         | bind ?r _ = Ok _ =>
             let E := fresh "E" in
             destruct r eqn:E; cbn [bind] in L; [|discriminate]
         end.
  assert (Ok_inj : forall (A : Type) (u v : A), Ok u = Ok v -> u = v)
    by (intros A u v X; now injection X).
  apply Ok_inj in L. apply Ok_inj in E12. subst ls a12.
  do 7 (apply in_or_app; right). apply in_or_app. left. now left.
Qed.

(** What a call does, by cases. *)
Lemma sync_cases (ruri : string) (st : Store) (dryRun : bool) :
  match Sync.parseRURI ruri with
  | None => syncRURI fetch today positive_numeral ruri st dryRun = (st, InvalidFormat)
  | Some p =>
      match fetch (Sync.ruriToHttpUrl p) with
      | Throw e => syncRURI fetch today positive_numeral ruri st dryRun = (st, Failed e)
      | Ok m =>
          let rrn := chosen st ruri in
          let update := found (findExistingByRURI st ruri) in
          match manifestToYaml today positive_numeral m rrn with
          | Throw e => syncRURI fetch today positive_numeral ruri st dryRun = (st, Failed e)
          | Ok y =>
              syncRURI fetch today positive_numeral ruri st dryRun
              = if dryRun then (st, DryRun update rrn y)
                else (writeFileSync st (rrn ++ ".yaml") y, Written update rrn)
          end
      end
  end.
Proof.
  unfold syncRURI, chosen. destruct (Sync.parseRURI ruri) as [p|]; [|reflexivity].
  destruct (fetch (Sync.ruriToHttpUrl p)) as [m|e]; [|reflexivity].
  cbn [bind]. cbv zeta.
  match goal with
  | |- context [manifestToYaml _ _ m ?r] =>
      destruct (manifestToYaml today positive_numeral m r) as [y|e] eqn:Y
  end.
  - destruct (render_name m _ y Y) as (s & ->). cbn [bind].
    reflexivity.
  - unfold manifestToYaml, yaml_lines in Y.
    destruct (v <- get m "name" ;; to_string v) as [s|e0]; cbn [bind] in *;
      [reflexivity | congruence].
Qed.

Lemma sync_written_inv (ruri : string) (st st1 : Store) (u : bool) (rrn : string) :
  syncRURI fetch today positive_numeral ruri st false = (st1, Written u rrn) ->
  exists p m y,
    Sync.parseRURI ruri = Some p /\ fetch (Sync.ruriToHttpUrl p) = Ok m
    /\ manifestToYaml today positive_numeral m rrn = Ok y /\ rrn = chosen st ruri
    /\ u = found (findExistingByRURI st ruri)
    /\ st1 = writeFileSync st (rrn ++ ".yaml") y.
Proof.
  intros H. pose proof (sync_cases ruri st false) as C.
  destruct (Sync.parseRURI ruri) as [p|] eqn:P; [|congruence].
  destruct (fetch (Sync.ruriToHttpUrl p)) as [m|e] eqn:Fe; [|congruence].
  cbv zeta in C. destruct (manifestToYaml today positive_numeral m (chosen st ruri)) as [y|e] eqn:Y;
    [|congruence].
  rewrite C in H. injection H as <- <- <-.
  exists p, m, y. repeat split; auto.
Qed.

Lemma chosen_of_found (st : Store) (ruri e : string) :
  findExistingByRURI st ruri = Some e -> e <> EmptyString ->
  chosen st ruri = e /\ found (findExistingByRURI st ruri) = true.
Proof.
  intros F N. unfold chosen. rewrite F.
  destruct e; [congruence | auto].
Qed.

Lemma writeFileSync_names_same (st : Store) (f y : string) :
  In f (readdirSync st) ->
  readdirSync (writeFileSync st f y) = readdirSync st.
Proof.
  intros I. rewrite (writeFileSync_present _ _ _ I). apply overwrite_names.
Qed.

Lemma writeFileSync_names_ok (st : Store) (f y : string) :
  forallb record_name (readdirSync st) = true -> record_name f = true ->
  forallb record_name (readdirSync (writeFileSync st f y)) = true.
Proof.
  intros A F. rewrite forallb_forall in *. intros g G.
  apply writeFileSync_names_in in G as [-> | G]; auto.
Qed.

Lemma rrn_record_name (k : N) : record_name (rrn k ++ ".yaml") = true.
Proof.
  unfold record_name. rewrite endsWith_append, replace_extension
    by apply rrn_dotless.
  now rewrite String.eqb_refl.
Qed.

(** After the write of a record that carries the line of [ruri], the
    lookup of [ruri] returns the identifier that was written. *)
Lemma lookup_after_write (st : Store) (ruri y : string) :
  store_ok st -> includes y (ruri_line ruri) = true ->
  let rrn := chosen st ruri in
  let st1 := writeFileSync st (rrn ++ ".yaml") y in
  findExistingByRURI st1 ruri = Some rrn /\ rrn <> EmptyString
  /\ store_ok st1
  /\ (records_for st ruri <= 1 -> records_for st1 ruri = 1).
Proof.
  intros Ok Y. cbv zeta.
  destruct (findExistingByRURI st ruri) as [e|] eqn:F.
  - destruct (findExisting_name st ruri e Ok F) as [N I].
    destruct (chosen_of_found st ruri e F N) as [-> _].
    destruct Ok as [Nd Nm].
    split; [|split; [exact N | split; [split|]]].
    + now apply first_with_updated.
    + now apply writeFileSync_NoDup.
    + rewrite forallb_forall in Nm. apply writeFileSync_names_ok; auto.
      now apply forallb_forall.
    + intros L. rewrite records_updated by (auto; now split).
      assert (records_for st ruri <> 0); [|lia].
      intros Z. apply no_record_iff in Z.
      unfold findExistingByRURI in F. fold is_yaml in F. congruence.
  - assert (C : chosen st ruri = getNextRRN st) by (unfold chosen; now rewrite F).
    rewrite C. destruct (getNextRRN_shape st) as (k & ->).
    destruct Ok as [Nd Nm].
    split; [|split; [discriminate | split; [split|]]].
    + pose proof (first_with_created _ (rrn k ++ ".yaml") y st F
                    (endsWith_append _ _) Y) as X.
      rewrite replace_extension in X by apply rrn_dotless. exact X.
    + now apply writeFileSync_NoDup.
    + apply writeFileSync_names_ok; [exact Nm | apply rrn_record_name].
    + intros _. apply records_created; auto using endsWith_append.
      now apply no_record_iff.
Qed.

(** A call for a source that has a record keeps the directory, its
    listing and the record's identifier. *)
Lemma sync_reuses (ruri rrn : string) (st : Store) (dryRun : bool) :
  echoes fetch ruri -> store_ok st ->
  findExistingByRURI st ruri = Some rrn ->
  store_ok (fst (syncRURI fetch today positive_numeral ruri st dryRun))
  /\ findExistingByRURI (fst (syncRURI fetch today positive_numeral ruri st dryRun)) ruri = Some rrn
  /\ readdirSync (fst (syncRURI fetch today positive_numeral ruri st dryRun)) = readdirSync st
  /\ match snd (syncRURI fetch today positive_numeral ruri st dryRun) with
     | Written u r | DryRun u r _ => u = true /\ r = rrn
     | InvalidFormat | Failed _ => True
     end.
Proof.
  intros Ec Ok F. pose proof (sync_cases ruri st dryRun) as C.
  assert (K : forall o,
             match o with
             | Written u r | DryRun u r _ => u = true /\ r = rrn
             | InvalidFormat | Failed _ => True
             end ->
             store_ok (fst (st, o))
             /\ findExistingByRURI (fst (st, o)) ruri = Some rrn
             /\ readdirSync (fst (st, o)) = readdirSync st
             /\ match snd (st, o) with
                | Written u r | DryRun u r _ => u = true /\ r = rrn
                | InvalidFormat | Failed _ => True
                end) by (intros o H; cbn [fst snd]; auto).
  destruct (Sync.parseRURI ruri) as [p|] eqn:P; [|rewrite C; now apply K].
  destruct (fetch (Sync.ruriToHttpUrl p)) as [m|e] eqn:Fe;
    [|rewrite C; now apply K].
  cbv zeta in C.
  destruct (findExisting_name st ruri rrn Ok F) as [N I].
  destruct (chosen_of_found st ruri rrn F N) as [Ch Fo].
  rewrite Ch, Fo in C.
  destruct (manifestToYaml today positive_numeral m rrn) as [y|e] eqn:Y; [|rewrite C; now apply K].
  rewrite C. destruct dryRun; [now apply K|]. cbn [fst snd].
  pose proof (render_ruri_line m rrn y ruri Y (Ec p m P Fe)) as Inc.
  destruct (lookup_after_write st ruri y Ok Inc) as (L & _ & Ok1 & _).
  rewrite Ch in L, Ok1.
  split; [exact Ok1|]. split; [exact L|].
  split; [apply writeFileSync_names_same, I | auto].
Qed.

End SyncFacts.

Lemma sync_all_reuses (pn : string -> bool) (ruri rrn : string)
      (calls : list Call) (dryRun : bool) :
  forall st,
    Forall (fun c => snd c = ruri /\ echoes (fst (fst c)) ruri) calls ->
    store_ok st -> findExistingByRURI st ruri = Some rrn ->
    readdirSync (sync_all pn calls st dryRun) = readdirSync st
    /\ findExistingByRURI (sync_all pn calls st dryRun) ruri = Some rrn.
Proof.
  induction calls as [|[[fetch today] r] calls IH]; intros st A Ok F;
    cbn [sync_all]; [auto|].
  inversion A as [|? ? [R Ec] A']; subst. cbn [fst snd] in *.
  destruct (sync_reuses fetch today pn r rrn st dryRun Ec Ok F)
    as (Ok1 & F1 & Nm & _).
  destruct (IH _ A' Ok1 F1) as [Nm2 F2]. rewrite Nm2, Nm. auto.
Qed.

(** * The properties of the specification *)

(** ** C1: repeated synchronisation of one source *)

(** C1 at its failing input: [syncRURI] looks for a record of the target
    before it allocates, but it looks for the target string while a
    record stores the manifest's own [ruri] field.  When the manifest
    spells the identifier differently, here with the device id in upper
    case, the lookup after the first sync finds nothing: the second sync
    of the same target against the same manifest allocates a second
    identifier and leaves two records of the one robot, both under the
    manifest's spelling. *)
Theorem sync_twice_two_records :
  exists st1 st2,
    syncRURI (fun _ => Ok upper_case_manifest) "2026-01-02" (fun _ => false)
      arm_bot [] false = (st1, Written false "RRN-00000001")
    /\ findExistingByRURI st1 arm_bot = None
    /\ syncRURI (fun _ => Ok upper_case_manifest) "2026-01-02" (fun _ => false)
         arm_bot st1 false = (st2, Written false "RRN-00000002")
    /\ readdirSync st2 = ["RRN-00000001.yaml"; "RRN-00000002.yaml"]
    /\ records_for st2 "rcan://example.com/acme/arm-bot/DEADBEEF" = 2
    /\ records_for st2 arm_bot = 0.
Proof.
  eexists. eexists. split; [vm_compute; reflexivity|].
  split; [vm_compute; reflexivity|].
  split; [vm_compute; reflexivity|].
  split; [vm_compute; reflexivity|].
  split; vm_compute; reflexivity.
Qed.

(** The lookup does find the record when the manifest spells the
    identifier as the target does.  In a directory of distinct,
    well-formed file names, after a sync that wrote a record of such a
    manifest, a second sync on the same day takes the update path with
    the same identifier and writes the same content; the lookup returns
    that identifier; and any number of later syncs of that target,
    whatever manifests of that spelling they fetch, keep the listing and
    the identifier. *)
Lemma sync_twice_same_identifier
        (fetch : string -> Result JsValue) (today : string)
        (pn : string -> bool) (ruri : string) (st st1 : Store)
        (update : bool) (rrn : string) :
  store_ok st ->
  echoes fetch ruri ->
  syncRURI fetch today pn ruri st false = (st1, Written update rrn) ->
  syncRURI fetch today pn ruri st1 false = (st1, Written true rrn)
  /\ findExistingByRURI st1 ruri = Some rrn
  /\ (records_for st ruri <= 1 -> records_for st1 ruri = 1)
  /\ store_ok st1
  /\ forall calls dryRun,
       Forall (fun c => snd c = ruri /\ echoes (fst (fst c)) ruri) calls ->
       readdirSync (sync_all pn calls st1 dryRun) = readdirSync st1
       /\ findExistingByRURI (sync_all pn calls st1 dryRun) ruri = Some rrn.
Proof.
  intros Ok Ec H.
  apply sync_written_inv in H as (p & m & y & P & Fe & Y & -> & -> & ->).
  pose proof (render_ruri_line today pn m _ y ruri Y (Ec p m P Fe)) as Inc.
  destruct (lookup_after_write st ruri y Ok Inc) as (L & N & Ok1 & R).
  split; [|split; [exact L | split; [exact R | split; [exact Ok1|]]]].
  - pose proof (sync_cases fetch today pn ruri
                  (writeFileSync st (chosen st ruri ++ ".yaml") y) false) as C.
    rewrite P, Fe in C. cbv zeta in C.
    destruct (chosen_of_found _ ruri _ L N) as [Ch Fo].
    rewrite Ch, Fo, Y in C. rewrite C. now rewrite writeFileSync_again.
  - intros calls dryRun A. now apply sync_all_reuses.
Qed.

Lemma sync_twice_same_identifier_witness :
  syncRURI (fun _ => Ok arm_bot_manifest) "2026-01-02" (fun _ => false) arm_bot
    [("RRN-00000001.yaml", arm_bot_yaml "2026-01-02")] false
  = ([("RRN-00000001.yaml", arm_bot_yaml "2026-01-02")],
     Written true "RRN-00000001").
Proof.
  refine (proj1 (sync_twice_same_identifier
                   (fun _ => Ok arm_bot_manifest) "2026-01-02" (fun _ => false)
                   arm_bot [] _ false "RRN-00000001" _ _ _)).
  - split; [constructor | reflexivity].
  - intros p m _ [= <-]. reflexivity.
  - vm_compute. reflexivity.
Defined.

(** The condition on the file names is needed there: a file named
    [.yaml] that carries the line of the source yields the empty
    identifier, which [syncRURI] takes for no record, so that every sync
    allocates anew. *)
Lemma empty_identifier_reallocated :
  exists st1 st2,
    syncRURI (fun _ => Ok arm_bot_manifest) "2026-01-02" (fun _ => false)
      arm_bot [(".yaml", ruri_line arm_bot)] false
    = (st1, Written false "RRN-00000001")
    /\ syncRURI (fun _ => Ok arm_bot_manifest) "2026-01-02" (fun _ => false)
         arm_bot st1 false
       = (st2, Written false "RRN-00000002").
Proof.
  eexists. eexists. split; [vm_compute; reflexivity|].
  vm_compute. reflexivity.
Qed.

(** ** C2: validation of manifests *)

(** C2, as stated, fails: a manifest that [validateManifest] rejects is
    rendered and written all the same, its missing name as the text
    [undefined]. *)
Lemma unvalidated_manifest_written :
  validateManifest nameless_manifest = false
  /\ exists y,
       syncRURI (fun _ => Ok nameless_manifest) "2026-01-02" (fun _ => false)
         arm_bot [] false
       = ([("RRN-00000001.yaml", y)], Written false "RRN-00000001")
       /\ includes y ("name: " ++ quoted "undefined") = true.
Proof.
  split; [reflexivity|]. eexists. split; [vm_compute; reflexivity|].
  vm_compute. reflexivity.
Qed.

Lemma validateManifest_spec (m : JsValue) :
  validateManifest m = true <->
  exists fields r n mf md,
    m = JObj fields
    /\ lookup "ruri" fields = Some (JStr r)
    /\ lookup "name" fields = Some (JStr n)
    /\ lookup "manufacturer" fields = Some (JStr mf)
    /\ lookup "model" fields = Some (JStr md).
Proof.
  split.
  - destruct m as [| |b|x|s|l|fields]; try discriminate.
    + unfold validateManifest. cbn [truthy negb orb].
      destruct b; discriminate.
    + unfold validateManifest. cbn [truthy is_object negb orb].
      destruct (num_sign x); discriminate.
    + unfold validateManifest. cbn [truthy is_object negb orb].
      destruct (negb (s =? EmptyString)%string); discriminate.
    + unfold validateManifest, get_opt, get. cbn.
      destruct (lookup "ruri" fields) as [[| | | |r| |]|] eqn:R;
        try discriminate.
      destruct (lookup "name" fields) as [[| | | |n| |]|] eqn:Nm;
        try discriminate.
      destruct (lookup "manufacturer" fields) as [[| | | |mf| |]|] eqn:Mf;
        try discriminate.
      destruct (lookup "model" fields) as [[| | | |md| |]|] eqn:Md;
        try discriminate.
      intros _. exists fields, r, n, mf, md. repeat split; assumption.
  - intros (fields & r & n & mf & md & -> & R & Nm & Mf & Md).
    unfold validateManifest, get_opt, get. cbn. now rewrite R, Nm, Mf, Md.
Qed.

(** C2, amended: [validateManifest] accepts exactly the objects whose
    [ruri], [name], [manufacturer] and [model] are strings, but [syncRURI]
    never calls it.  A failed fetch fails the target without a write.  A
    fetched manifest is written when [manifestToYaml] renders it, and
    fails the target without a write, with the error thrown, when
    [manifestToYaml] throws: so does [null], and so does the manifest
    [loose_manifest], which [validateManifest] accepts, while
    [nameless_manifest], which it rejects, is written. *)
Theorem sync_without_validation
        (fetch : string -> Result JsValue) (today : string)
        (pn : string -> bool) (ruri : string) (st : Store) (p : ParsedRURI) :
  Sync.parseRURI ruri = Some p ->
  (forall m, validateManifest m = true <->
             exists fields r n mf md,
               m = JObj fields
               /\ lookup "ruri" fields = Some (JStr r)
               /\ lookup "name" fields = Some (JStr n)
               /\ lookup "manufacturer" fields = Some (JStr mf)
               /\ lookup "model" fields = Some (JStr md))
  /\ (forall e dryRun,
        fetch (Sync.ruriToHttpUrl p) = Throw e ->
        syncRURI fetch today pn ruri st dryRun = (st, Failed e))
  /\ (forall dryRun,
        fetch (Sync.ruriToHttpUrl p) = Ok JNull ->
        syncRURI fetch today pn ruri st dryRun = (st, Failed TypeError))
  /\ (forall m,
        fetch (Sync.ruriToHttpUrl p) = Ok m ->
        match manifestToYaml today pn m (chosen st ruri) with
        | Ok y =>
            syncRURI fetch today pn ruri st false
            = (writeFileSync st (chosen st ruri ++ ".yaml") y,
               Written (found (findExistingByRURI st ruri)) (chosen st ruri))
        | Throw e => syncRURI fetch today pn ruri st false = (st, Failed e)
        end)
  /\ (validateManifest loose_manifest = true
      /\ (fetch (Sync.ruriToHttpUrl p) = Ok loose_manifest ->
          syncRURI fetch today pn ruri st false = (st, Failed TypeError)))
  /\ (validateManifest nameless_manifest = false
      /\ (fetch (Sync.ruriToHttpUrl p) = Ok nameless_manifest ->
          exists y,
            syncRURI fetch today pn ruri st false
            = (writeFileSync st (chosen st ruri ++ ".yaml") y,
               Written (found (findExistingByRURI st ruri)) (chosen st ruri))
            /\ includes y ("name: " ++ quoted "undefined") = true)).
Proof.
  intros P. split; [exact validateManifest_spec|].
  split; [|split; [|split; [|split]]].
  - intros e dryRun Fe. pose proof (sync_cases fetch today pn ruri st dryRun) as C.
    now rewrite P, Fe in C.
  - intros dryRun Fe. pose proof (sync_cases fetch today pn ruri st dryRun) as C.
    now rewrite P, Fe in C.
  - intros m Fe. pose proof (sync_cases fetch today pn ruri st false) as C.
    rewrite P, Fe in C. exact C.
  - split; [reflexivity|]. intros Fe.
    pose proof (sync_cases fetch today pn ruri st false) as C.
    rewrite P, Fe in C. exact C.
  - split; [reflexivity|]. intros Fe.
    pose proof (sync_cases fetch today pn ruri st false) as C.
    rewrite P, Fe in C. cbv zeta in C.
    assert (Y : exists ls,
               yaml_lines today pn nameless_manifest (chosen st ruri) = Ok ls
               /\ In ("name: " ++ quoted "undefined") ls).
    { eexists. split; [reflexivity|]. right. now left. }
    destruct Y as (ls & Y & I). unfold manifestToYaml in C.
    rewrite Y in C. cbn [bind] in C.
    exists (join nl ls ++ nl). split; [exact C|].
    now apply includes_join.
Qed.

Lemma sync_without_validation_witness :
  syncRURI (fun _ => Throw (FetchError "HTTP 404: Not Found")) "2026-01-02"
    (fun _ => false) arm_bot example_store false
  = (example_store, Failed (FetchError "HTTP 404: Not Found")).
Proof.
  exact (proj1 (proj2 (sync_without_validation
                         (fun _ => Throw (FetchError "HTTP 404: Not Found"))
                         "2026-01-02" (fun _ => false) arm_bot example_store
                         _ eq_refl))
               (FetchError "HTTP 404: Not Found") false eq_refl).
Defined.

(** ** C3: round trip *)

(** C3, as stated, fails: the specification asks of an authority or a
    slug that it start and end with a letter or a digit, which one
    character does, while [RURI_REGEX] asks for two characters.  The
    component sets [short_slug] and [short_authority] are valid by the
    specification, and the strings built from them are refused. *)
Lemma one_character_label_refused :
  spec_valid_parts short_slug = true
  /\ buildRURI short_slug = "rcan://example.com/a/arm-bot/deadbeef"
  /\ Ruri.parseRURI (buildRURI short_slug) = failure "Invalid RURI format"
  /\ spec_valid_parts short_authority = true
  /\ buildRURI short_authority = "rcan://x/acme/arm-bot/deadbeef:8080"
  /\ Ruri.parseRURI (buildRURI short_authority)
     = failure "Invalid RURI format".
Proof. repeat split; vm_compute; reflexivity. Qed.

(** C3, amended: for every component set [c] that is valid by the
    specification and whose authority and slugs have two characters or
    more, and for the components of every value the parser returns,
    parsing [buildRURI c] succeeds and gives back the components of [c],
    with the built string as raw text. *)
Theorem parse_build_round_trip (c : RURIParts) :
  (spec_valid_parts c = true /\ long_labels c = true)
  \/ (exists s p, parsed (Ruri.parseRURI s) = Some p /\ c = parts_of p) ->
  Ruri.parseRURI (buildRURI c) = accepted (parsed_as (buildRURI c) c).
Proof.
  intros [V | (s & p & P & ->)].
  - apply parse_build. now apply valid_parts_spec.
  - apply parse_build. now apply (parse_valid s).
Qed.

Lemma parse_build_round_trip_witness :
  Ruri.parseRURI (buildRURI example_parts)
  = accepted (parsed_as "rcan://example.com/acme/arm-bot/deadbeef:8080/arm/grasp"
                        example_parts).
Proof.
  apply (parse_build_round_trip example_parts). left.
  split; vm_compute; reflexivity.
Defined.

(** ** C4: allocation *)

(** C4: [getNextRRN] returns the highest sequence number among the files
    named [RRN-########.yaml], plus one, padded to eight digits: the first
    identifier in an empty directory, the eighth after the third and the
    seventh; the files so named are those of the identifiers below 10^8,
    and no other file changes the result. *)
Theorem getNextRRN_allocation :
  getNextRRN [] = "RRN-00000001"
  /\ (forall c1 c2,
        getNextRRN [("RRN-00000003.yaml", c1); ("RRN-00000007.yaml", c2)]
        = "RRN-00000008")
  /\ (forall st n,
        (forall k, (k < 10 ^ 8)%N -> In (rrn_file k) (readdirSync st) ->
                   (k <= n)%N) ->
        n = 0%N \/ ((n < 10 ^ 8)%N /\ In (rrn_file n) (readdirSync st)) ->
        getNextRRN st = rrn (n + 1))
  /\ (forall f, is_rrn_file f = true <->
                exists k, (k < 10 ^ 8)%N /\ f = rrn_file k)
  /\ (forall (st1 st2 : Store) f c,
        is_rrn_file f = false ->
        getNextRRN (st1 ++ (f, c) :: st2)%list = getNextRRN (st1 ++ st2)%list).
Proof.
  split; [reflexivity|]. split; [reflexivity|].
  split; [exact getNextRRN_max|]. split.
  - intros f. split; [apply rrn_file_char|].
    intros (k & K & ->). now apply rrn_file_matches.
  - intros st1 st2 f c F. unfold getNextRRN, readdirSync.
    rewrite !map_app, !filter_app. cbn [map filter fst]. now rewrite F.
Qed.

Lemma getNextRRN_allocation_witness :
  getNextRRN example_store = "RRN-00000008".
Proof.
  apply (proj1 (proj2 (proj2 getNextRRN_allocation)) example_store 7%N).
  - assert (E3 : rrn_number "RRN-00000003.yaml" = Some 3%Z)
      by (vm_compute; reflexivity).
    assert (E7 : rrn_number "RRN-00000007.yaml" = Some 7%Z)
      by (vm_compute; reflexivity).
    assert (En : is_rrn_file "notes.txt" = false)
      by (vm_compute; reflexivity).
    intros k K H. unfold example_store, readdirSync in H.
    cbn [map fst In] in H. destruct H as [H | [H | [H | []]]].
    + apply (f_equal rrn_number) in H.
      rewrite (proj2 (rrn_file_matches k K)), E3 in H.
      injection H as H. lia.
    + apply (f_equal rrn_number) in H.
      rewrite (proj2 (rrn_file_matches k K)), E7 in H.
      injection H as H. lia.
    + apply (f_equal is_rrn_file) in H.
      rewrite (proj1 (rrn_file_matches k K)), En in H.
      discriminate.
  - right. split; [reflexivity|]. vm_compute. auto.
Defined.

(** ** C5: the end-to-end example *)




(** ** C6: dry runs *)

(** C6: any run of calls with the dry-run flag set leaves the directory
    as it was, and a dry run reports the identifier and the content the
    same call would write without the flag. *)
Theorem dry_run_purity :
  (forall pn calls st, sync_all pn calls st true = st)
  /\ (forall fetch today pn ruri st,
        match syncRURI fetch today pn ruri st false with
        | (st', Written update rrn) =>
            exists y,
              syncRURI fetch today pn ruri st true
              = (st, DryRun update rrn y)
              /\ st' = writeFileSync st (rrn ++ ".yaml") y
        | (st', outcome) =>
            syncRURI fetch today pn ruri st true = (st, outcome) /\ st' = st
        end).
Proof.
  assert (P : forall fetch today pn ruri st,
             fst (syncRURI fetch today pn ruri st true) = st).
  { intros fetch today pn ruri st.
    pose proof (sync_cases fetch today pn ruri st true) as C.
    destruct (Sync.parseRURI ruri) as [p|]; [|now rewrite C].
    destruct (fetch (Sync.ruriToHttpUrl p)) as [m|e]; [|now rewrite C].
    cbv zeta in C.
    destruct (manifestToYaml today pn m (chosen st ruri)); now rewrite C. }
  split.
  - intros pn calls. induction calls as [|[[fetch today] ruri] calls IH];
      intros st; cbn [sync_all]; [reflexivity|].
    now rewrite P.
  - intros fetch today pn ruri st.
    pose proof (sync_cases fetch today pn ruri st true) as T.
    pose proof (sync_cases fetch today pn ruri st false) as F.
    destruct (Sync.parseRURI ruri) as [p|]; [|rewrite T, F; auto].
    destruct (fetch (Sync.ruriToHttpUrl p)) as [m|e]; [|rewrite T, F; auto].
    cbv zeta in T, F.
    destruct (manifestToYaml today pn m (chosen st ruri)) as [y|e];
      rewrite T, F; eauto.
Qed.

(** ** C7: the rejection set *)

(** C7 at its failing input: a device id of ten hexadecimal digits is
    neither eight digits nor a UUID, yet the parser accepts the
    identifier, keeps the first eight digits as device id and takes the
    other two for a capability. *)
Theorem long_device_id_accepted :
  Ruri.parseRURI "rcan://example.com/acme/arm-bot/deadbeefab"
  = accepted {| raw := "rcan://example.com/acme/arm-bot/deadbeefab";
                registry := "example.com";
                manufacturer := "acme";
                model := "arm-bot";
                deviceId := "deadbeef";
                port := None;
                capability := Some "ab" |}.
Proof. vm_compute. reflexivity. Qed.

(** The rest of the rejection set holds: the empty string, a missing
    scheme, a short device id, a partial UUID and the ports 0 and 65536
    are refused, each with its own message and without a parsed value;
    the ports 1 and 65535 are accepted. *)
Lemma rejection_set :
  Ruri.parseRURI EmptyString = failure "RURI cannot be empty"
  /\ (forall s, s <> EmptyString -> startsWith (trim s) "rcan://" = false ->
                Ruri.parseRURI s = failure "RURI must start with rcan://")
  /\ Ruri.parseRURI "rcan://example.com/acme/arm-bot/deadbee"
     = failure "Invalid RURI format"
  /\ Ruri.parseRURI "rcan://example.com/acme/arm-bot/deadbeef-1234"
     = failure "Invalid RURI format"
  /\ Ruri.parseRURI "rcan://example.com/acme/arm-bot/deadbeef:0"
     = failure "Port must be between 1 and 65535"
  /\ Ruri.parseRURI "rcan://example.com/acme/arm-bot/deadbeef:65536"
     = failure "Port must be between 1 and 65535"
  /\ valid (Ruri.parseRURI "rcan://example.com/acme/arm-bot/deadbeef:1") = true
  /\ valid (Ruri.parseRURI "rcan://example.com/acme/arm-bot/deadbeef:65535") = true
  /\ (forall s, valid (Ruri.parseRURI s) = false ->
                parsed (Ruri.parseRURI s) = None
                /\ In (error (Ruri.parseRURI s))
                      [Some "RURI cannot be empty";
                       Some "RURI must start with rcan://";
                       Some "Invalid RURI format";
                       Some "Port must be between 1 and 65535"]).
Proof.
  split; [reflexivity|]. split.
  { intros s N S. unfold Ruri.parseRURI. destruct s; [congruence|].
    now rewrite S. }
  do 6 (split; [vm_compute; reflexivity|]).
  intros s. unfold Ruri.parseRURI. destruct s as [|c s]; [simpl; auto|].
  destruct (negb _); [simpl; auto|].
  destruct (exec true RURI_REGEX _); [|simpl; auto].
  destruct (port_out_of_range _); [simpl; auto 6 | discriminate].
Qed.

(** ** C8: case of letters *)

(** C8, as stated, fails: the upper-case scheme is a case variant of an
    accepted identifier and is rejected by the check that precedes the
    pattern. *)
Lemma upper_case_scheme_rejected :
  valid (Ruri.parseRURI arm_bot) = true
  /\ case_variant arm_bot "RCAN://example.com/acme/arm-bot/deadbeef" = true
  /\ Ruri.parseRURI "RCAN://example.com/acme/arm-bot/deadbeef"
     = failure "RURI must start with rcan://".
Proof. repeat split; vm_compute; reflexivity. Qed.

(** C8, amended: the library's parser accepts every case variant of an
    accepted string that keeps the scheme [rcan://] in lower case, with
    the same port and the same components up to case; the script's
    parser, which has no scheme check, accepts every case variant. *)
Theorem parse_case_variants (s t : string) (p : ParsedRURI) :
  case_variant s t = true ->
  (startsWith (trim t) "rcan://" = true ->
   parsed (Ruri.parseRURI s) = Some p ->
   exists q, Ruri.parseRURI t = accepted q /\ same_components p q)
  /\ (Sync.parseRURI s = Some p ->
      exists q, Sync.parseRURI t = Some q /\ same_components p q).
Proof.
  intros V. split.
  - intros S P. now apply (library_parse_variant s t p).
  - intros P. now apply (script_parse_variant s t p).
Qed.

Lemma parse_case_variants_witness :
  exists q,
    Ruri.parseRURI "rcan://Example.COM/Acme/ARM-bot/DeadBeef:8080/Arm"
    = accepted q
    /\ same_components
         {| raw := "rcan://example.com/acme/arm-bot/deadbeef:8080/arm";
            registry := "example.com"; manufacturer := "acme";
            model := "arm-bot"; deviceId := "deadbeef";
            port := Some 8080%Z; capability := Some "arm" |} q.
Proof.
  apply (proj1 (parse_case_variants
                  "rcan://example.com/acme/arm-bot/deadbeef:8080/arm"
                  "rcan://Example.COM/Acme/ARM-bot/DeadBeef:8080/Arm" _
                  eq_refl)).
  - reflexivity.
  - vm_compute. reflexivity.
Defined.

(** ** C9: the slash before the capability *)

(** C9 at its failing inputs: the parser accepts a capability that no
    slash separates from the device id, or from the port. *)
Theorem capability_without_slash_accepted :
  Ruri.parseRURI "rcan://example.com/acme/arm-bot/deadbeefgrasp"
  = accepted {| raw := "rcan://example.com/acme/arm-bot/deadbeefgrasp";
                registry := "example.com";
                manufacturer := "acme";
                model := "arm-bot";
                deviceId := "deadbeef";
                port := None;
                capability := Some "grasp" |}
  /\ Ruri.parseRURI "rcan://example.com/acme/arm-bot/deadbeef:8080grasp"
     = accepted {| raw := "rcan://example.com/acme/arm-bot/deadbeef:8080grasp";
                   registry := "example.com";
                   manufacturer := "acme";
                   model := "arm-bot";
                   deviceId := "deadbeef";
                   port := Some 8080%Z;
                   capability := Some "grasp" |}.
Proof. split; vm_compute; reflexivity. Qed.

(** ** C10: trimming *)

(** C10: white space around an accepted string changes nothing: the
    library's parser returns the same result, whose raw text is the
    trimmed string; so does the script's parser.  More generally the
    result for any non-empty string is that for the string with white
    space around it: every test but the one for the empty string looks
    at the trimmed text. *)
Theorem parse_trims_first (w1 s w2 : string) (p : ParsedRURI) :
  blank w1 = true -> blank w2 = true ->
  (parsed (Ruri.parseRURI s) = Some p ->
   Ruri.parseRURI (w1 ++ s ++ w2) = accepted p
   /\ raw p = trim (w1 ++ s ++ w2))
  /\ (Sync.parseRURI s = Some p ->
      Sync.parseRURI (w1 ++ s ++ w2) = Some p
      /\ raw p = trim (w1 ++ s ++ w2))
  /\ (s <> EmptyString ->
      Ruri.parseRURI (w1 ++ s ++ w2) = Ruri.parseRURI s)
  /\ Sync.parseRURI (w1 ++ s ++ w2) = Sync.parseRURI s.
Proof.
  intros B1 B2. pose proof (trim_padding w1 s w2 B1 B2) as T.
  assert (G : s <> EmptyString ->
              Ruri.parseRURI (w1 ++ s ++ w2) = Ruri.parseRURI s).
  { intros N. unfold Ruri.parseRURI. destruct s as [|c s]; [congruence|].
    assert (E : exists d r, w1 ++ String c s ++ w2 = String d r)
      by (destruct w1; simpl; eauto).
    destruct E as (d & r & E). rewrite E in *. now rewrite T. }
  assert (K : Sync.parseRURI (w1 ++ s ++ w2) = Sync.parseRURI s)
    by (unfold Sync.parseRURI; now rewrite T).
  split; [|split; [|split; [exact G | exact K]]].
  - intros P. rewrite G by (intros ->; discriminate). rewrite T.
    revert P. unfold Ruri.parseRURI. destruct s as [|c s]; [discriminate|].
    destruct (negb _); [discriminate|].
    destruct (exec true RURI_REGEX _); [|discriminate].
    destruct (port_out_of_range _); [discriminate|].
    cbn [parsed]. intros [= <-]. split; reflexivity.
  - intros P. rewrite K, T. split; [exact P|].
    revert P. unfold Sync.parseRURI.
    destruct (exec true RURI_REGEX _); [|discriminate].
    now intros [= <-].
Qed.

Lemma parse_trims_first_witness :
  Ruri.parseRURI ("  " ++ arm_bot ++ " ")
  = accepted {| raw := arm_bot; registry := "example.com";
                manufacturer := "acme"; model := "arm-bot";
                deviceId := "deadbeef"; port := None; capability := None |}
  /\ arm_bot = trim ("  " ++ arm_bot ++ " ").
Proof.
  apply (proj1 (parse_trims_first "  " arm_bot " "
                  {| raw := arm_bot; registry := "example.com";
                     manufacturer := "acme"; model := "arm-bot";
                     deviceId := "deadbeef"; port := None;
                     capability := None |} eq_refl eq_refl)).
  vm_compute. reflexivity.
Defined.

(** * Further properties of the code *)

(** ** The two parsers *)

Section Parsers.

Lemma port_range_agrees (m : Caps) :
  port_out_of_range m
  = match port_of m with
    | Some n => (n <? 1)%Z || (n >? 65535)%Z
    | None => false
    end.
Proof.
  unfold port_out_of_range, port_of.
  destruct (capture 5 m) as [[|a d]|]; reflexivity.
Qed.

(** What the script's parser returns, in terms of the cut of the trimmed
    text into the pieces of the grammar. *)
Lemma script_parse_inv (s : string) (p : ParsedRURI) :
  Sync.parseRURI s = Some p ->
  exists pre x,
    trim s = assemble pre x /\ case_variant "rcan://" pre = true
    /\ pieces_ok x
    /\ p = {| raw := trim s;
              registry := pc_registry x;
              manufacturer := pc_manufacturer x;
              model := pc_model x;
              deviceId := pc_device x;
              port := port_of (captures_of x);
              capability := capability_of (captures_of x) |}.
Proof.
  unfold Sync.parseRURI.
  destruct (exec true RURI_REGEX (trim s)) as [m|] eqn:E; [|discriminate].
  intros [= <-].
  apply exec_inv in E as (pre & x & E & V & X & ->).
  exists pre, x. split; [exact E|]. split; [exact V|]. split; [exact X|].
  destruct (capture_pieces x) as (C1 & C2 & C3 & C4 & _).
  unfold group. now rewrite C1, C2, C3, C4.
Qed.

Lemma library_parse_inv (s : string) (p : ParsedRURI) :
  parsed (Ruri.parseRURI s) = Some p ->
  Sync.parseRURI s = Some p
  /\ startsWith (trim s) "rcan://" = true
  /\ match port p with
     | Some n => (1 <= n <= 65535)%Z
     | None => True
     end.
Proof.
  unfold Ruri.parseRURI, Sync.parseRURI.
  destruct s as [|c s]; [discriminate|].
  destruct (startsWith (trim (String c s)) "rcan://") eqn:S; [|discriminate].
  cbn [negb].
  destruct (exec true RURI_REGEX (trim (String c s))) as [m|]; [|discriminate].
  rewrite port_range_agrees.
  destruct (port_of m) as [n|] eqn:P.
  - destruct ((n <? 1)%Z || (n >? 65535)%Z) eqn:R; [discriminate|].
    cbn [parsed]. intros [= <-]. cbn [port].
    apply orb_false_iff in R as [R1 R2].
    apply Z.ltb_ge in R1. rewrite Z.gtb_ltb in R2. apply Z.ltb_ge in R2.
    repeat split; auto.
  - cbn [parsed]. intros [= <-]. cbn [port]. auto.
Qed.

Lemma variant_scheme (pre rest : string) :
  case_variant "rcan://" pre = true ->
  startsWith (pre ++ rest) "rcan://" = true ->
  pre = "rcan://".
Proof.
  intros V S.
  do 7 (apply variant_cons_l in V as (? & ? & -> & _ & V)).
  apply variant_nil_l in V as ->.
  cbn [append startsWith] in S.
  repeat (apply andb_true_iff in S as [?%Ascii.eqb_eq S]; subst).
  reflexivity.
Qed.

Lemma port_text_value (d : string) :
  port_shape d ->
  exists n, parseInt d = Some (Z.of_N n) /\ (n < 10 ^ 5)%N /\ n = dval d 0.
Proof.
  intros [D L]. rewrite all_member_true_digit in D.
  exists (dval d 0). repeat split.
  - apply parseInt_digits; auto.
    intros ->. simpl in L. lia.
  - pose proof (dval_bound d D) as B.
    eapply N.lt_le_trans; [exact B|].
    apply N.pow_le_mono_r; lia.
Qed.

End Parsers.

(** X1: the script's parser and the library's agree wherever the library
    accepts.  Whatever the script's parser rejects the library rejects;
    what the script's parser accepts the library accepts with the same
    value, unless its scheme check or its port check refuses it. *)
Theorem library_and_script_parsers_agree (s : string) :
  match Sync.parseRURI s with
  | None => valid (Ruri.parseRURI s) = false
  | Some p =>
      Ruri.parseRURI s
      = if negb (startsWith (trim s) "rcan://")
        then failure "RURI must start with rcan://"
        else if match port p with
                | Some n => (n <? 1)%Z || (n >? 65535)%Z
                | None => false
                end
             then failure "Port must be between 1 and 65535"
             else accepted p
  end.
Proof.
  unfold Sync.parseRURI, Ruri.parseRURI.
  destruct s as [|c s].
  - vm_compute. reflexivity.
  - destruct (exec true RURI_REGEX (trim (String c s))) as [m|] eqn:E.
    + cbn [port]. rewrite <- port_range_agrees.
      destruct (negb _); [reflexivity|].
      destruct (port_out_of_range m); reflexivity.
    + destruct (negb _); reflexivity.
Qed.

(** X2: nothing of the input is lost.  The raw text of an accepted
    identifier is the trimmed input, and it is the scheme followed by the
    four components between slashes, the digits of the port after a
    colon, and the capability, with or without a slash before it; the
    device id has 8 or 36 characters. *)
Theorem parsed_components_cover_raw (s : string) (p : ParsedRURI) :
  parsed (Ruri.parseRURI s) = Some p ->
  raw p = trim s
  /\ (exists ptext ctext,
        raw p = "rcan://" ++ registry p ++ "/" ++ manufacturer p ++ "/"
                ++ model p ++ "/" ++ deviceId p ++ ptext ++ ctext
        /\ match port p with
           | None => ptext = EmptyString
           | Some n =>
               exists d, ptext = ":" ++ d /\ parseInt d = Some n
                         /\ all_chars is_digit d = true
                         /\ 1 <= String.length d <= 5
           end
        /\ match capability p with
           | None => ctext = EmptyString
           | Some c => ctext = c \/ ctext = "/" ++ c
           end)
  /\ (String.length (deviceId p) = 8 \/ String.length (deviceId p) = 36).
Proof.
  intros H. apply library_parse_inv in H as (H & S & _).
  apply script_parse_inv in H as (pre & x & E & V & X & ->).
  cbn [raw registry manufacturer model deviceId port capability].
  rewrite E in S. unfold assemble in S.
  apply variant_scheme in S; auto. subst pre.
  destruct (capture_pieces x) as (_ & _ & _ & _ & C5 & C6).
  destruct X as (_ & _ & _ & Dv & Po & Co).
  split; [reflexivity|]. split.
  - exists (opt_text ":" (pc_port x)), (opt_text EmptyString (pc_path x)).
    split; [rewrite E; reflexivity|].
    unfold port_of, capability_of. rewrite C5, C6. split.
    + destruct (pc_port x) as [d|]; [|reflexivity].
      pose proof (Po d eq_refl) as Sh.
      destruct (port_text_value d Sh) as (n & PI & _ & _).
      destruct Sh as [D L]. rewrite all_member_true_digit in D.
      destruct d as [|a d]; [simpl in L; lia|].
      rewrite PI. exists (String a d). auto.
    + destruct (pc_path x) as [c|]; [|reflexivity].
      destruct (Co c eq_refl) as [N | (c' & -> & N)].
      * destruct N as (a & r & -> & A & _).
        assert (a <> "/"%char) by (intros ->; discriminate).
        rewrite strip_slash_other by assumption. now left.
      * cbn [strip_slash]. destruct N as (a & r & -> & _). now right.
  - destruct Dv as (h & t & -> & [L _] & [-> | T]).
    + left. now rewrite append_nil_r.
    + right. rewrite length_append, L, (uuid_tail_length t T). reflexivity.
Qed.

Lemma parsed_components_cover_raw_witness :
  raw {| raw := arm_bot; registry := "example.com"; manufacturer := "acme";
         model := "arm-bot"; deviceId := "deadbeef"; port := None;
         capability := None |} = trim arm_bot.
Proof.
  apply (parsed_components_cover_raw arm_bot). vm_compute. reflexivity.
Defined.

(** X3: the bounds of the port.  The library's parser returns ports from
    1 to 65535 only; the script's parser, which has no range check,
    returns any port of up to five digits, 0 and 99999 included. *)
Theorem port_bounds (s : string) (p : ParsedRURI) (n : Z) :
  port p = Some n ->
  (parsed (Ruri.parseRURI s) = Some p -> (1 <= n <= 65535)%Z)
  /\ (Sync.parseRURI s = Some p -> (0 <= n <= 99999)%Z)
  /\ option_map port
       (Sync.parseRURI "rcan://example.com/acme/arm-bot/deadbeef:0")
     = Some (Some 0%Z)
  /\ option_map port
       (Sync.parseRURI "rcan://example.com/acme/arm-bot/deadbeef:99999")
     = Some (Some 99999%Z).
Proof.
  intros P. split; [|split; [|split; vm_compute; reflexivity]].
  - intros H. apply library_parse_inv in H as (_ & _ & R).
    now rewrite P in R.
  - intros H. apply script_parse_inv in H as (pre & x & _ & _ & X & ->).
    cbn [port] in P.
    destruct (capture_pieces x) as (_ & _ & _ & _ & C5 & _).
    destruct X as (_ & _ & _ & _ & Po & _).
    unfold port_of in P. rewrite C5 in P.
    destruct (pc_port x) as [d|]; [|discriminate].
    destruct (port_text_value d (Po d eq_refl)) as (k & PI & B & _).
    destruct d as [|a d]; [discriminate|].
    rewrite PI in P. injection P as <-.
    change (10 ^ 5)%N with 100000%N in B. lia.
Qed.

Lemma port_bounds_witness : (1 <= 8080 <= 65535)%Z /\ (0 <= 8080 <= 99999)%Z.
Proof.
  pose proof (port_bounds "rcan://example.com/acme/arm-bot/deadbeef:8080"
                {| raw := "rcan://example.com/acme/arm-bot/deadbeef:8080";
                   registry := "example.com"; manufacturer := "acme";
                   model := "arm-bot"; deviceId := "deadbeef";
                   port := Some 8080%Z; capability := None |}
                8080%Z eq_refl) as (A & B & _).
  split; [apply A | apply B]; vm_compute; reflexivity.
Defined.

(** X4: [buildRURI] is injective on valid component sets: two valid sets
    that serialise to the same string are the same set. *)
Theorem buildRURI_injective (c c' : RURIParts) :
  valid_parts c = true -> valid_parts c' = true ->
  buildRURI c = buildRURI c' -> c = c'.
Proof.
  intros V V' E.
  pose proof (parse_build c V) as P. pose proof (parse_build c' V') as P'.
  assert (Q : forall t d,
             option_map parts_of (parsed (accepted (parsed_as t d))) = Some d)
    by (intros ? []; reflexivity).
  rewrite E, P' in P.
  apply (f_equal (fun r => option_map parts_of (parsed r))) in P.
  rewrite !Q in P. now injection P.
Qed.

Lemma buildRURI_injective_witness : example_parts = example_parts.
Proof.
  apply buildRURI_injective; reflexivity.
Defined.
Section Urls.

Lemma Z_to_string_inj (a b : Z) :
  (0 <= a)%Z -> (0 <= b)%Z -> Z_to_string a = Z_to_string b -> a = b.
Proof.
  intros A B E.
  rewrite <- (Z2N.id a A), <- (Z2N.id b B) in E |- *.
  rewrite !Z_to_string_of_N in E.
  apply (f_equal (fun t => dval t 0)) in E.
  rewrite !N_to_string_value in E. now rewrite E.
Qed.

Lemma Z_to_string_digits (a : Z) :
  (0 <= a)%Z -> all_chars is_digit (Z_to_string a) = true.
Proof.
  intros A. rewrite <- (Z2N.id a A), Z_to_string_of_N.
  apply N_to_string_digits.
Qed.

Lemma manifest_url_script (p : ParsedRURI) :
  manifest_url p = Sync.ruriToHttpUrl p.
Proof. reflexivity. Qed.

Lemma manifest_url_shape (p : ParsedRURI) :
  manifest_url p
  = (if String.eqb (registry p) "localhost" then "http" else "https")
    ++ "://" ++ registry p ++ ":" ++ Z_to_string (effective_port p)
    ++ "/.well-known/rcan-manifest.json".
Proof.
  unfold manifest_url, effective_port.
  destruct (port p) as [[|n|n]|]; reflexivity.
Qed.

Lemma dot_dash_not_colon c :
  member true alnum_dot_dash c = true -> c <> ":"%char.
Proof. intros H ->. discriminate. Qed.

Lemma manifest_url_inj (p q : ParsedRURI) :
  all_chars (member true alnum_dot_dash) (registry p) = true ->
  all_chars (member true alnum_dot_dash) (registry q) = true ->
  (0 <= effective_port p)%Z -> (0 <= effective_port q)%Z ->
  manifest_url p = manifest_url q ->
  registry p = registry q /\ effective_port p = effective_port q.
Proof.
  intros Rp Rq Pp Pq. rewrite !manifest_url_shape.
  set (a := Z_to_string (effective_port p)).
  set (b := Z_to_string (effective_port q)).
  set (suffix := "/.well-known/rcan-manifest.json").
  intros E.
  assert (T : registry p ++ ":" ++ a ++ suffix
              = registry q ++ ":" ++ b ++ suffix).
  { destruct (String.eqb (registry p) "localhost") eqn:Lp;
      destruct (String.eqb (registry q) "localhost") eqn:Lq.
    - cbn [append] in E. now injection E.
    - apply String.eqb_eq in Lp. rewrite Lp in E.
      cbn [append] in E. discriminate E.
    - apply String.eqb_eq in Lq. rewrite Lq in E.
      cbn [append] in E. discriminate E.
    - cbn [append] in E. now injection E. }
  apply span_unique with (p := member true alnum_dot_dash) in T
    as [R T]; auto.
  split; [exact R|].
  cbn [append] in T. injection T as T.
  apply append_inv_tail in T.
  now apply Z_to_string_inj.
Qed.

End Urls.

(** X5: the manifest URL of an accepted identifier names the registry and
    the port and nothing else.  The library builds it whenever the
    identifier parses and returns [null] otherwise; two accepted
    identifiers have the same URL exactly when they have the same
    registry and the same port, an absent port counting as 8080; the
    script builds the same URL from the same parsed value. *)
Theorem manifest_url_names_registry_and_port (s s' : string) (p p' : ParsedRURI) :
  parsed (Ruri.parseRURI s) = Some p ->
  parsed (Ruri.parseRURI s') = Some p' ->
  Ruri.ruriToHttpUrl (inl s) = Some (Sync.ruriToHttpUrl p)
  /\ Ruri.ruriToHttpUrl (inr p) = Some (Sync.ruriToHttpUrl p)
  /\ (Ruri.ruriToHttpUrl (inl s) = Ruri.ruriToHttpUrl (inl s')
      <-> registry p = registry p' /\ effective_port p = effective_port p')
  /\ (forall t, parsed (Ruri.parseRURI t) = None ->
                Ruri.ruriToHttpUrl (inl t) = None).
Proof.
  intros H H'. unfold Ruri.ruriToHttpUrl. rewrite H, H'.
  split; [reflexivity|]. split; [reflexivity|]. split.
  - assert (K : forall t q, parsed (Ruri.parseRURI t) = Some q ->
                  all_chars (member true alnum_dot_dash) (registry q) = true
                  /\ (0 <= effective_port q)%Z).
    { intros t q G. apply library_parse_inv in G as (G & _ & R).
      apply script_parse_inv in G as (pre & x & _ & _ & X & ->).
      cbn [registry port] in *. split.
      - destruct X as (Rg & _). apply label_chars; auto.
        apply alnum_in_dot_dash.
      - unfold effective_port. cbn [port].
        destruct (port_of (captures_of x)) as [[|n|n]|]; lia. }
    destruct (K s p H) as [A B], (K s' p' H') as [A' B'].
    split.
    + intros [= E]. now apply manifest_url_inj.
    + intros [R P]. f_equal. rewrite !manifest_url_shape. now rewrite R, P.
  - intros t ->. reflexivity.
Qed.

Lemma manifest_url_names_registry_and_port_witness :
  Ruri.ruriToHttpUrl (inl "rcan://localhost/acme/arm-bot/deadbeef")
  = Ruri.ruriToHttpUrl (inl "rcan://localhost/acme/arm/cafef00d:8080/grasp").
Proof.
  eapply (manifest_url_names_registry_and_port
            "rcan://localhost/acme/arm-bot/deadbeef"
            "rcan://localhost/acme/arm/cafef00d:8080/grasp");
    vm_compute; try reflexivity.
  split; reflexivity.
Defined.

(** ** Manifests *)

Ltac scalar :=
  match goal with
  | H : ?v = JUndefined \/ _ |- ?v = JUndefined \/ _ => destruct H; auto
  end.

Ltac bind_step :=
  match goal with
  | |- exists ls, bind ?e _ = Ok ls =>
      let v := fresh "v" in
      let E := fresh "E" in
      assert (exists v, e = Ok v) as [v E];
      [ | rewrite E; cbn [bind] ]
  end.

Section Manifests.

Variable today : string.
Variable positive_numeral : string -> bool.

Lemma get_record (fields : list (string * JsValue)) (key : string) :
  get (JObj fields) key = Ok (get_opt (JObj fields) key).
Proof. reflexivity. Qed.

Lemma optional_inv (p : JsValue -> bool) (v : JsValue) :
  optional p v = true -> v = JUndefined \/ p v = true.
Proof. destruct v; auto. Qed.

Lemma is_string_inv (v : JsValue) : is_string v = true -> exists s, v = JStr s.
Proof. destruct v; try discriminate. eauto. Qed.

Lemma is_record_inv (v : JsValue) :
  is_record v = true -> exists fields, v = JObj fields.
Proof. destruct v; try discriminate. eauto. Qed.

Lemma is_number_inv (v : JsValue) : is_number v = true -> exists x, v = JNum x.
Proof. destruct v; try discriminate. eauto. Qed.

Lemma is_strings_inv (v : JsValue) :
  is_strings v = true ->
  exists items, v = JArr items /\ forallb is_string items = true.
Proof. destruct v; try discriminate. eauto. Qed.

Lemma one_of_inv (l : list string) (v : JsValue) :
  one_of l v = true -> exists s, v = JStr s.
Proof. destruct v; try discriminate. eauto. Qed.

(** A scalar renders without throwing. *)
Lemma when_set_scalar (label : string) (quoted : bool) (v : JsValue) :
  v = JUndefined \/ is_string v = true \/ is_number v = true ->
  exists l, when_set label quoted v = Ok l.
Proof.
  unfold when_set.
  intros [-> | [(s & ->)%is_string_inv | (x & ->)%is_number_inv]];
    destruct (truthy _); cbn [to_string bind]; eauto.
Qed.

Lemma mapM_strings (f : string -> string) (items : list JsValue) :
  forallb is_string items = true ->
  exists ls, mapM (fun x => s <- to_string x ;; Ok (f s)) items = Ok ls.
Proof.
  induction items as [|x items IH]; cbn [forallb mapM]; [eauto|].
  intros [(s & ->)%is_string_inv F]%andb_true_iff.
  destruct (IH F) as [ls E]. cbn [to_string bind]. rewrite E.
  cbn [bind]. eauto.
Qed.

Lemma list_block_strings (label : string) (v : JsValue) :
  optional is_strings v = true ->
  exists l, list_block positive_numeral label v = Ok l.
Proof.
  intros [-> | (items & -> & F)%is_strings_inv]%optional_inv;
    [cbn; eauto|].
  unfold list_block, guarded_items. cbn [truthy get bind].
  rewrite String.eqb_refl. cbn [positive bind num_of_Z num_sign].
  destruct (Z.of_nat (List.length items) ?= 0)%Z; cbn [bind]; eauto.
  destruct items as [|x items]; [eauto|].
  destruct (mapM_strings (fun s => "    - " ++ dq ++ s ++ dq) _ F) as [ls E].
  rewrite E. cbn [bind]. eauto.
Qed.

Lemma spread_strings (v : JsValue) :
  optional is_strings v = true ->
  exists items,
    (if truthy v then spread v else Ok []) = Ok items
    /\ forallb is_string items = true.
Proof.
  intros [-> | (items & -> & F)%is_strings_inv]%optional_inv; cbn; eauto.
Qed.



Lemma typed_manifest_renders (m : JsValue) (rrn : string) :
  RobotManifest m = true ->
  exists ls, yaml_lines today positive_numeral m rrn = Ok ls.
Proof.
  intros C. unfold RobotManifest in C.
  repeat (apply andb_true_iff in C as [C ?]).
  apply is_record_inv in C as [fields ->].
  unfold yaml_lines. rewrite !get_record.
  repeat match goal with
         | H : is_string ?v = true |- _ =>
             apply is_string_inv in H as [? H]; rewrite H
         end.
  cbn [bind to_string].
  destruct (spread_strings _ H3) as (items & Sp & F). clear H3.
  repeat match goal with
         | H : optional _ _ = true |- _ => apply optional_inv in H
         end.
  bind_step.
  { destruct H5 as [-> | [? ->]%is_string_inv];
      cbn [truthy to_string]; [eauto|]. destruct (negb _); eauto. }
  set (links := get_opt (JObj fields) "links") in *.
  assert (L : forall k, In k ["urdf"; "github"; "website"] ->
                        forall label,
                        exists l, when_set label true (get_opt links k) = Ok l).
  { intros k K label. apply when_set_scalar.
    destruct H0 as [-> | H0]; [now left|].
    repeat (apply andb_true_iff in H0 as [H0 ?]).
    repeat match goal with
           | H : optional _ _ = true |- _ => apply optional_inv in H
           end.
    cbn [In] in K. destruct K as [<- | [<- | [<- | []]]]; scalar. }
  bind_step; [apply L; cbn; auto|].
  bind_step; [apply L; cbn; auto|].
  bind_step; [apply L; cbn; auto|].
  clear L.
  set (specs := get_opt (JObj fields) "specs") in *.
  bind_step.
  { destruct H1 as [-> | H1]; [cbn; eauto|].
    repeat (apply andb_true_iff in H1 as [H1 ?]).
    destruct (truthy specs); [|eauto].
    repeat match goal with
           | H : optional is_string _ = true |- _ => apply optional_inv in H
           | H : optional is_number _ = true |- _ => apply optional_inv in H
           end.
    bind_step; [apply when_set_scalar; scalar|].
    bind_step; [apply when_set_scalar; scalar|].
    bind_step; [apply when_set_scalar; scalar|].
    bind_step; [apply when_set_scalar; scalar|].
    bind_step; [now apply list_block_strings|].
    bind_step; [now apply list_block_strings|].
    eauto. }
  set (owner := get_opt (JObj fields) "owner") in *.
  bind_step.
  { destruct H as [-> | H]; [cbn; eauto|].
    repeat (apply andb_true_iff in H as [H ?]).
    apply is_record_inv in H as [ofields ->].
    cbn [truthy]. rewrite !get_record.
    repeat match goal with
           | H : is_string _ = true |- _ =>
               apply is_string_inv in H as [? ->]
           | H : one_of _ _ = true |- _ => apply one_of_inv in H as [? ->]
           end.
    cbn [bind to_string]. eauto. }
  rewrite Sp. cbn [bind].
  destruct (mapM_strings (fun s => "  - " ++ dq ++ s ++ dq)
              (JStr "rcan-synced" :: items)) as [tags Et]; [exact F|].
  rewrite Et. cbn [bind]. eauto.
Qed.

Lemma typed_manifest_validates (m : JsValue) :
  RobotManifest m = true -> validateManifest m = true.
Proof.
  intros C. unfold RobotManifest in C.
  repeat (apply andb_true_iff in C as [C ?]).
  apply is_record_inv in C as [fields ->].
  unfold validateManifest. cbn [truthy is_object negb orb].
  repeat match goal with
         | H : is_string ?v = true |- _ => rewrite H; clear H
         end.
  reflexivity.
Qed.

Lemma typed_manifest_spreads (m : JsValue) :
  RobotManifest m = true ->
  exists items,
    (if truthy (get_opt m "capabilities")
     then spread (get_opt m "capabilities") else Ok []) = Ok items.
Proof.
  intros C. unfold RobotManifest in C.
  repeat (apply andb_true_iff in C as [C ?]).
  destruct (spread_strings (get_opt m "capabilities")) as (items & E & _);
    eauto.
Qed.

(** What the library's conversion returns for a validated manifest. *)
Lemma validated_registry_data (m : JsValue) (rrn : string) :
  validateManifest m = true ->
  manifestToRegistryData today m rrn
  = (tags <- (if truthy (get_opt m "capabilities")
              then spread (get_opt m "capabilities") else Ok []) ;;
     Ok (JObj
        [("rrn", JStr rrn);
         ("name", get_opt m "name");
         ("manufacturer", get_opt m "manufacturer");
         ("model", get_opt m "model");
         ("description",
          if truthy (get_opt m "description") then get_opt m "description"
          else match get_opt m "ruri" with
               | JStr r => JStr ("Robot registered via RCAN protocol from " ++ r)
               | _ => JUndefined
               end);
         ("status", JStr (if strict_eq_string (get_opt m "status") "offline"
                          then "retired" else "active"));
         ("ruri", get_opt m "ruri");
         ("urdf_url", get_opt (get_opt m "links") "urdf");
         ("github_url", get_opt (get_opt m "links") "github");
         ("website", get_opt (get_opt m "links") "website");
         ("specs", if truthy (get_opt m "specs")
                   then JObj [("weight_kg", get_opt (get_opt m "specs") "weight_kg");
                              ("dimensions", get_opt (get_opt m "specs") "dimensions");
                              ("dof", get_opt (get_opt m "specs") "dof");
                              ("sensors", get_opt (get_opt m "specs") "sensors");
                              ("compute", get_opt (get_opt m "specs") "compute");
                              ("ros_version", get_opt (get_opt m "specs") "ros_version")]
                   else JUndefined);
         ("owner", if truthy (get_opt m "owner")
                   then JObj [("name", get_opt (get_opt m "owner") "name");
                              ("type", get_opt (get_opt m "owner") "type")]
                   else JUndefined);
         ("tags", JArr (JStr "rcan-registered" :: tags));
         ("submitted_by", JStr "rcan-auto-register");
         ("submitted_date", JStr today)])).
Proof.
  intros V. apply validateManifest_spec in V
    as (fields & r & n & mf & md & -> & R & Nm & Mf & Md).
  unfold manifestToRegistryData. rewrite !get_record.
  assert (Er : get_opt (JObj fields) "ruri" = JStr r)
    by (unfold get_opt, get; now rewrite R).
  rewrite Er. cbn [bind parse_field to_string].
  destruct (truthy (get_opt (JObj fields) "description")); reflexivity.
Qed.

End Manifests.

(** X6: the library's conversion of a validated manifest.  For a manifest
    that [validateManifest] accepts, [manifestToRegistryData] throws only
    when [capabilities] is a truthy value that cannot be spread;
    otherwise it returns a record with the given identifier, the
    manifest's name and its [ruri] as received, whether that string
    parses or not, and the tags led by [rcan-registered]. *)
Theorem validated_manifest_converts (today : string) (m : JsValue)
        (rrn : string) :
  validateManifest m = true ->
  match (if truthy (get_opt m "capabilities")
         then spread (get_opt m "capabilities") else Ok []) with
  | Ok tags =>
      exists fields,
        manifestToRegistryData today m rrn = Ok (JObj fields)
        /\ lookup "rrn" fields = Some (JStr rrn)
        /\ lookup "name" fields = Some (get_opt m "name")
        /\ lookup "ruri" fields = Some (get_opt m "ruri")
        /\ lookup "tags" fields = Some (JArr (JStr "rcan-registered" :: tags))
        /\ lookup "submitted_date" fields = Some (JStr today)
  | Throw e => manifestToRegistryData today m rrn = Throw e
  end.
Proof.
  intros V. rewrite (validated_registry_data today m rrn V).
  destruct (if truthy (get_opt m "capabilities") then _ else _) as [tags|e];
    cbn [bind]; [|reflexivity].
  eexists. split; [reflexivity|]. repeat split; reflexivity.
Qed.

Lemma validated_manifest_converts_witness :
  exists fields,
    manifestToRegistryData "2026-01-02" arm_bot_manifest "RRN-00000001"
    = Ok (JObj fields)
    /\ lookup "rrn" fields = Some (JStr "RRN-00000001")
    /\ lookup "name" fields = Some (JStr "ArmBot")
    /\ lookup "ruri" fields = Some (JStr arm_bot)
    /\ lookup "tags" fields
       = Some (JArr [JStr "rcan-registered"; JStr "grasp"])
    /\ lookup "submitted_date" fields = Some (JStr "2026-01-02").
Proof.
  exact (validated_manifest_converts "2026-01-02" arm_bot_manifest
           "RRN-00000001" eq_refl).
Defined.

(** X7: a manifest of the declared interface passes everywhere.  A value
    that conforms to [RobotManifest] is accepted by [validateManifest],
    rendered by [manifestToYaml] and converted by
    [manifestToRegistryData] without an exception, and a sync that
    fetches it never fails; the type guard alone does not give that: the
    manifest [loose_manifest] passes it and cannot be rendered. *)
Theorem typed_manifest_never_throws
        (fetch : string -> Result JsValue) (today : string)
        (pn : string -> bool) (m : JsValue) (rrn : string) :
  RobotManifest m = true ->
  validateManifest m = true
  /\ (exists y, manifestToYaml today pn m rrn = Ok y)
  /\ (exists fields, manifestToRegistryData today m rrn = Ok (JObj fields))
  /\ (forall ruri p st dryRun,
        Sync.parseRURI ruri = Some p ->
        fetch (Sync.ruriToHttpUrl p) = Ok m ->
        exists y,
          syncRURI fetch today pn ruri st dryRun
          = if dryRun
            then (st, DryRun (found (findExistingByRURI st ruri))
                             (chosen st ruri) y)
            else (writeFileSync st (chosen st ruri ++ ".yaml") y,
                  Written (found (findExistingByRURI st ruri))
                          (chosen st ruri)))
  /\ validateManifest loose_manifest = true
  /\ manifestToYaml today pn loose_manifest rrn = Throw TypeError.
Proof.
  intros C.
  assert (Y : forall r, exists y, manifestToYaml today pn m r = Ok y).
  { intros r. destruct (typed_manifest_renders today pn m r C) as [ls E].
    unfold manifestToYaml. rewrite E. cbn [bind]. eauto. }
  pose proof (typed_manifest_validates m C) as V.
  split; [exact V|]. split; [apply Y|]. split; [|split; [|split]].
  - rewrite (validated_registry_data today m rrn V).
    destruct (typed_manifest_spreads m C) as [items ->]. cbn [bind]. eauto.
  - intros ruri p st dryRun P F.
    pose proof (sync_cases fetch today pn ruri st dryRun) as S.
    rewrite P, F in S. cbv zeta in S.
    destruct (Y (chosen st ruri)) as [y E]. rewrite E in S.
    exists y. exact S.
  - reflexivity.
  - reflexivity.
Qed.

Lemma typed_manifest_never_throws_witness :
  validateManifest arm_bot_manifest = true.
Proof.
  apply (typed_manifest_never_throws (fun _ => Ok arm_bot_manifest)
           "2026-01-02" (fun _ => false) arm_bot_manifest "RRN-00000001").
  reflexivity.
Defined.

(** ** The allocator *)

Section Allocator.

Lemma rrn_inj (j k : N) : rrn j = rrn k -> j = k.
Proof.
  unfold rrn. intros E. cbn [append] in E. injection E as E.
  apply (f_equal (fun t => dval t 0)) in E.
  now rewrite !padded_value in E.
Qed.

Lemma rrn_file_inj (j k : N) : rrn_file j = rrn_file k -> j = k.
Proof.
  unfold rrn_file. intros E. apply append_inv_tail in E. now apply rrn_inj.
Qed.

(** The highest sequence number of a directory, 0 when it holds no
    record file. *)
Lemma rrn_max_exists (st : Store) :
  exists n,
    (forall k, (k < 10 ^ 8)%N -> In (rrn_file k) (readdirSync st) -> (k <= n)%N)
    /\ (n = 0%N \/ ((n < 10 ^ 8)%N /\ In (rrn_file n) (readdirSync st))).
Proof.
  induction st as [|[f c] st (n & Le & Mx)].
  - exists 0%N. split; [intros k _ []|now left].
  - cbn [readdirSync map fst] in *.
    destruct (is_rrn_file f) eqn:R.
    + apply rrn_file_char in R as (j & J & ->).
      destruct (N.le_gt_cases j n) as [Jn | Jn].
      * exists n. split.
        -- intros k K [E | I]; [apply rrn_file_inj in E; subst; lia | auto].
        -- destruct Mx as [-> | [B I]]; [left; reflexivity | right].
           split; [exact B | now right].
      * exists j. split.
        -- intros k K [E | I]; [apply rrn_file_inj in E; subst; lia|].
           specialize (Le k K I). lia.
        -- right. split; [exact J | now left].
    + exists n. split.
      * intros k K [E | I]; [|auto].
        subst f. destruct (rrn_file_matches k K) as [T _]. congruence.
      * destruct Mx as [-> | [B I]]; [now left | right].
        split; [exact B | now right].
Qed.

(** Below the last eight-digit number the allocator returns a number of
    eight digits that no file of the directory carries. *)
Lemma getNextRRN_fresh (st : Store) :
  ~ In (rrn_file 99999999) (readdirSync st) ->
  exists k, (1 <= k < 10 ^ 8)%N /\ getNextRRN st = rrn k
            /\ ~ In (rrn_file k) (readdirSync st)
            /\ (forall j, (j < 10 ^ 8)%N -> In (rrn_file j) (readdirSync st) ->
                          (j < k)%N).
Proof.
  intros Top. destruct (rrn_max_exists st) as (n & Le & Mx).
  assert (B : (n + 1 < 10 ^ 8)%N).
  { destruct Mx as [-> | [B I]]; [reflexivity|].
    destruct (N.eq_dec n 99999999) as [-> | D]; [contradiction|].
    change (10 ^ 8)%N with 100000000%N in *. lia. }
  exists (n + 1)%N. split; [lia|]. split; [now apply getNextRRN_max|].
  split.
  - intros I. specialize (Le _ B I). lia.
  - intros j J I. specialize (Le j J I). lia.
Qed.

End Allocator.

(** X8: allocation below the bound.  In a directory without the file of
    the identifier 99999999, [getNextRRN] returns an eight-digit
    identifier above every one in use, whose file does not exist yet;
    writing that file adds its name, and no other, to the listing, which
    stays in the order of the names when it was, and leaves the content
    of every other file as it was; the next allocation returns the
    successor. *)
Theorem allocation_is_fresh_and_successive (st : Store) (y : string) :
  ~ In (rrn_file 99999999) (readdirSync st) ->
  exists k,
    (1 <= k < 10 ^ 8)%N
    /\ getNextRRN st = rrn k
    /\ ~ In (getNextRRN st ++ ".yaml") (readdirSync st)
    /\ (forall j, (j < 10 ^ 8)%N -> In (rrn_file j) (readdirSync st) ->
                  (j < k)%N)
    /\ (forall f,
          In f (readdirSync (writeFileSync st (getNextRRN st ++ ".yaml") y))
          <-> f = getNextRRN st ++ ".yaml" \/ In f (readdirSync st))
    /\ List.length (writeFileSync st (getNextRRN st ++ ".yaml") y)
       = S (List.length st)
    /\ (sorted (readdirSync st) = true ->
        sorted (readdirSync (writeFileSync st (getNextRRN st ++ ".yaml") y))
        = true)
    /\ (forall f,
          readFileSync (writeFileSync st (getNextRRN st ++ ".yaml") y) f
          = if String.eqb (getNextRRN st ++ ".yaml") f
            then Some y else readFileSync st f)
    /\ getNextRRN (writeFileSync st (getNextRRN st ++ ".yaml") y)
       = rrn (k + 1).
Proof.
  intros Top. destruct (getNextRRN_fresh st Top) as (k & K & E & Fr & Lt).
  exists k. rewrite E. fold (rrn_file k).
  split; [exact K|]. split; [reflexivity|]. split; [exact Fr|].
  split; [exact Lt|].
  split; [intros f; apply writeFileSync_names_in|].
  split; [rewrite (writeFileSync_absent _ _ _ Fr); apply insert_length|].
  split; [apply writeFileSync_sorted|].
  split; [intros f; apply readFileSync_write|].
  apply getNextRRN_max.
  - intros j J I. apply writeFileSync_names_in in I as [I | I].
    + apply rrn_file_inj in I. lia.
    + specialize (Lt j J I). lia.
  - right. split; [lia|]. apply writeFileSync_names_in. now left.
Qed.

Lemma allocation_is_fresh_and_successive_witness :
  exists k,
    (1 <= k < 10 ^ 8)%N
    /\ getNextRRN example_store = rrn k
    /\ ~ In (getNextRRN example_store ++ ".yaml") (readdirSync example_store)
    /\ (forall j, (j < 10 ^ 8)%N ->
                  In (rrn_file j) (readdirSync example_store) -> (j < k)%N)
    /\ (forall f,
          In f (readdirSync
                  (writeFileSync example_store
                     (getNextRRN example_store ++ ".yaml") "d"))
          <-> f = getNextRRN example_store ++ ".yaml"
              \/ In f (readdirSync example_store))
    /\ List.length
         (writeFileSync example_store (getNextRRN example_store ++ ".yaml") "d")
       = S (List.length example_store)
    /\ (sorted (readdirSync example_store) = true ->
        sorted (readdirSync
                  (writeFileSync example_store
                     (getNextRRN example_store ++ ".yaml") "d")) = true)
    /\ (forall f,
          readFileSync
            (writeFileSync example_store
               (getNextRRN example_store ++ ".yaml") "d") f
          = if String.eqb (getNextRRN example_store ++ ".yaml") f
            then Some "d" else readFileSync example_store f)
    /\ getNextRRN
         (writeFileSync example_store (getNextRRN example_store ++ ".yaml") "d")
       = rrn (k + 1).
Proof.
  apply (allocation_is_fresh_and_successive example_store "d").
  cbn. intros [E | [E | [E | []]]]; discriminate E.
Defined.

(** X9: allocation at the bound.  Once the file of the identifier
    99999999 exists, [getNextRRN] returns [RRN-100000000], of nine
    digits; the file of that identifier is not a record file for the
    allocator, so that writing it changes nothing: the next allocation
    returns the same identifier again. *)
Theorem allocation_sticks_at_the_bound (st : Store) (y : string) :
  In "RRN-99999999.yaml" (readdirSync st) ->
  getNextRRN st = "RRN-100000000"
  /\ is_rrn_file "RRN-100000000.yaml" = false
  /\ getNextRRN (writeFileSync st "RRN-100000000.yaml" y) = "RRN-100000000".
Proof.
  intros Top.
  assert (G : forall st', In (rrn_file 99999999) (readdirSync st') ->
                          getNextRRN st' = rrn (99999999 + 1)).
  { intros st' I. apply getNextRRN_max.
    - intros k K _. change (10 ^ 8)%N with 100000000%N in K. lia.
    - right. split; [reflexivity | exact I]. }
  split; [apply (G st Top)|]. split; [reflexivity|].
  apply G. apply writeFileSync_names_in. now right.
Qed.

Lemma allocation_sticks_at_the_bound_witness :
  getNextRRN [("RRN-99999999.yaml", "a")] = "RRN-100000000".
Proof.
  apply (allocation_sticks_at_the_bound [("RRN-99999999.yaml", "a")] "b").
  cbn. now left.
Defined.

(** ** One synchronisation *)

Section OneSync.

Variable fetch : string -> Result JsValue.
Variable today : string.
Variable positive_numeral : string -> bool.

(** The directory a call leaves is the one it found, or that with one
    file written. *)
Lemma sync_store (ruri : string) (st : Store) (dryRun : bool) :
  fst (syncRURI fetch today positive_numeral ruri st dryRun) = st
  \/ exists y,
       dryRun = false
       /\ fst (syncRURI fetch today positive_numeral ruri st dryRun)
          = writeFileSync st (chosen st ruri ++ ".yaml") y.
Proof.
  pose proof (sync_cases fetch today positive_numeral ruri st dryRun) as S.
  destruct (Sync.parseRURI ruri) as [p|]; [|rewrite S; now left].
  destruct (fetch (Sync.ruriToHttpUrl p)) as [m|e]; [|rewrite S; now left].
  cbv zeta in S.
  destruct (manifestToYaml _ _ m _) as [y|e]; [|rewrite S; now left].
  rewrite S. destruct dryRun; [now left | right].
  exists y. split; reflexivity.
Qed.

End OneSync.

(** X10: what one call of [syncRURI] can do to the directory.  It writes
    at most one file, whose name ends in [.yaml]: every other file reads
    as before, no file is removed, no name but that of the written file
    is added, and a listing in the order of the names stays so. *)
Theorem sync_touches_one_yaml_file
        (fetch : string -> Result JsValue) (today : string)
        (pn : string -> bool) (ruri : string) (st : Store) (dryRun : bool) :
  exists target,
    endsWith target ".yaml" = true
    /\ (forall f, f <> target ->
                  readFileSync (fst (syncRURI fetch today pn ruri st dryRun)) f
                  = readFileSync st f)
    /\ (forall f, In f (readdirSync st) ->
                  In f (readdirSync (fst (syncRURI fetch today pn ruri st dryRun))))
    /\ (forall f,
          In f (readdirSync (fst (syncRURI fetch today pn ruri st dryRun))) ->
          f = target \/ In f (readdirSync st))
    /\ List.length (fst (syncRURI fetch today pn ruri st dryRun))
       <= S (List.length st)
    /\ (sorted (readdirSync st) = true ->
        sorted (readdirSync (fst (syncRURI fetch today pn ruri st dryRun)))
        = true).
Proof.
  destruct (sync_store fetch today pn ruri st dryRun) as [-> | (y & _ & ->)].
  - exists ".yaml". repeat split; auto.
  - exists (chosen st ruri ++ ".yaml"). split; [apply endsWith_append|].
    split; [|split; [|split; [|split]]].
    + intros f D. rewrite readFileSync_write.
      destruct (String.eqb _ f) eqn:E; [|reflexivity].
      apply String.eqb_eq in E. congruence.
    + intros f I. apply writeFileSync_names_in. now right.
    + intros f I. now apply writeFileSync_names_in in I.
    + rewrite writeFileSync_length. destruct (existsb _ _); lia.
    + apply writeFileSync_sorted.
Qed.

(** X11: the two reports of a write are truthful in a well-formed
    directory below the bound of the allocator.  A sync reported as a
    creation found no record of the target, took the identifier from the
    allocator and added its file, which did not exist, to the directory;
    a sync reported as an update overwrote the file of the identifier
    the lookup returned and left the listing as it was.  Either way the
    file of the reported identifier holds the rendering of the manifest
    fetched for the target, and every other file reads as before. *)
Theorem sync_reports_are_truthful
        (fetch : string -> Result JsValue) (today : string)
        (pn : string -> bool) (ruri : string) (st st' : Store)
        (update : bool) (rrn : string) :
  store_ok st ->
  ~ In (rrn_file 99999999) (readdirSync st) ->
  syncRURI fetch today pn ruri st false = (st', Written update rrn) ->
  exists p m y,
    Sync.parseRURI ruri = Some p
    /\ fetch (Sync.ruriToHttpUrl p) = Ok m
    /\ manifestToYaml today pn m rrn = Ok y
    /\ readFileSync st' (rrn ++ ".yaml") = Some y
    /\ (forall f, f <> rrn ++ ".yaml" ->
                  readFileSync st' f = readFileSync st f)
    /\ if update
       then findExistingByRURI st ruri = Some rrn
            /\ In (rrn ++ ".yaml") (readdirSync st)
            /\ readdirSync st' = readdirSync st
       else findExistingByRURI st ruri = None
            /\ rrn = getNextRRN st
            /\ ~ In (rrn ++ ".yaml") (readdirSync st)
            /\ (forall f, In f (readdirSync st')
                          <-> f = rrn ++ ".yaml" \/ In f (readdirSync st))
            /\ List.length st' = S (List.length st).
Proof.
  intros Ok Top H.
  apply sync_written_inv in H as (p & m & y & P & F & Y & -> & -> & ->).
  exists p, m, y. split; [exact P|]. split; [exact F|]. split; [exact Y|].
  split.
  { rewrite readFileSync_write, String.eqb_refl. reflexivity. }
  split.
  { intros f D. rewrite readFileSync_write.
    destruct (String.eqb _ f) eqn:E; [|reflexivity].
    apply String.eqb_eq in E. congruence. }
  unfold chosen.
  destruct (findExistingByRURI st ruri) as [e|] eqn:Fx.
  - destruct (findExisting_name st ruri e Ok Fx) as [Ne I].
    destruct e as [|a e]; [congruence|]. cbn [found].
    split; [reflexivity|]. split; [exact I|].
    now apply writeFileSync_names_same.
  - cbn [found]. split; [reflexivity|]. split; [reflexivity|].
    destruct (getNextRRN_fresh st Top) as (k & _ & E & Fr & _).
    rewrite E. fold (rrn_file k). split; [exact Fr|].
    split; [intros f; apply writeFileSync_names_in|].
    rewrite (writeFileSync_absent _ _ _ Fr). apply insert_length.
Qed.

Lemma sync_reports_are_truthful_witness :
  exists p m y,
    Sync.parseRURI arm_bot = Some p
    /\ (fun _ : string => Ok arm_bot_manifest) (Sync.ruriToHttpUrl p) = Ok m
    /\ manifestToYaml "2026-01-02" (fun _ => false) m "RRN-00000001" = Ok y
    /\ readFileSync [("RRN-00000001.yaml", arm_bot_yaml "2026-01-02")]
         "RRN-00000001.yaml" = Some y
    /\ (forall f, f <> "RRN-00000001.yaml" ->
                  readFileSync [("RRN-00000001.yaml", arm_bot_yaml "2026-01-02")]
                    f = readFileSync [] f)
    /\ findExistingByRURI [] arm_bot = None
    /\ "RRN-00000001" = getNextRRN []
    /\ ~ In "RRN-00000001.yaml" (readdirSync [])
    /\ (forall f,
          In f (readdirSync
                  [("RRN-00000001.yaml", arm_bot_yaml "2026-01-02")])
          <-> f = "RRN-00000001.yaml" \/ In f (readdirSync []))
    /\ List.length [("RRN-00000001.yaml", arm_bot_yaml "2026-01-02")]
       = S (List.length (@nil (string * string))).
Proof.
  apply (sync_reports_are_truthful (fun _ => Ok arm_bot_manifest)
           "2026-01-02" (fun _ => false) arm_bot [] _ false "RRN-00000001").
  - split; [constructor | reflexivity].
  - intros [].
  - vm_compute. reflexivity.
Defined.

(** X12: [fetchManifest] under [syncRURI].  A request that fails is
    reported with its error; a response that is not [ok] is reported as
    [HTTP], its status and its status text, whatever its body holds; in
    both cases nothing is written.  A response that is [ok] is handled
    as its parsed body alone would be. *)
Theorem fetch_failures_are_reported
        (http : string -> Result HttpResponse) (today : string)
        (pn : string -> bool) (ruri : string) (st : Store) (dryRun : bool)
        (p : ParsedRURI) :
  Sync.parseRURI ruri = Some p ->
  match http (Sync.ruriToHttpUrl p) with
  | Throw e =>
      syncRURI (fetchManifest http) today pn ruri st dryRun = (st, Failed e)
  | Ok response =>
      if ok response
      then syncRURI (fetchManifest http) today pn ruri st dryRun
           = syncRURI (fun _ => json response) today pn ruri st dryRun
      else syncRURI (fetchManifest http) today pn ruri st dryRun
           = (st, Failed (FetchError
                            ("HTTP " ++ N_to_string (status response) ++ ": "
                             ++ statusText response)))
  end.
Proof.
  intros P.
  pose proof (sync_cases (fetchManifest http) today pn ruri st dryRun) as S.
  rewrite P in S.
  assert (F : fetchManifest http (Sync.ruriToHttpUrl p)
              = match http (Sync.ruriToHttpUrl p) with
                | Throw e => Throw e
                | Ok r =>
                    if ok r then json r
                    else Throw (FetchError
                                  ("HTTP " ++ N_to_string (status r) ++ ": "
                                   ++ statusText r))
                end).
  { unfold fetchManifest.
    destruct (http _) as [r|]; cbn [bind]; [destruct (ok r)|]; reflexivity. }
  rewrite F in S. clear F.
  destruct (http (Sync.ruriToHttpUrl p)) as [r|e]; [|exact S].
  destruct (ok r); [|exact S].
  pose proof (sync_cases (fun _ => json r) today pn ruri st dryRun) as T.
  rewrite P in T.
  destruct (json r) as [m|e]; [|now rewrite S, T].
  cbv zeta in S, T.
  destruct (manifestToYaml _ _ m _); now rewrite S, T.
Qed.

Lemma fetch_failures_are_reported_witness :
  syncRURI
    (fetchManifest
       (fun _ => Ok {| ok := false; status := 404; statusText := "Not Found";
                       json := Ok arm_bot_manifest |}))
    "2026-01-02" (fun _ => false) arm_bot example_store false
  = (example_store, Failed (FetchError "HTTP 404: Not Found")).
Proof.
  eapply (fetch_failures_are_reported
            (fun _ => Ok {| ok := false; status := 404;
                            statusText := "Not Found";
                            json := Ok arm_bot_manifest |})
            "2026-01-02" (fun _ => false) arm_bot example_store false).
  vm_compute. reflexivity.
Defined.

(** ** The entry point *)

Section EntryPoint.

Variable fetch : string -> Result JsValue.
Variable today : string.
Variable positive_numeral : string -> bool.


Lemma scan_sync (file : string) (rest : list string) (st : Store)
      (dryRun : bool) (content ruri : string) :
  readFileSync st file = Some content ->
  scan_target content = Some ruri ->
  let call := syncRURI fetch today positive_numeral ruri st dryRun in
  scan fetch today positive_numeral (file :: rest) st dryRun
  = {| directory := directory (scan fetch today positive_numeral rest
                                 (fst call) dryRun);
       reports := snd call :: reports (scan fetch today positive_numeral rest
                                         (fst call) dryRun);
       exit := exit (scan fetch today positive_numeral rest (fst call) dryRun) |}.
Proof.
  intros R T. cbn [scan]. rewrite R, T.
  destruct (syncRURI fetch today positive_numeral ruri st dryRun).
  reflexivity.
Qed.



Lemma after_flag_absent (flag : string) (args tail : list string) :
  has_flag flag args = false ->
  after_flag flag (args ++ tail) = after_flag flag tail
  /\ after_flag flag args = None.
Proof.
  induction args as [|a args IH]; cbn [has_flag existsb app after_flag];
    [auto|].
  intros [A H]%orb_false_iff. rewrite String.eqb_sym, A. now apply IH.
Qed.

End EntryPoint.

(** X13: a dry run of the script.  With [--dry-run] among the arguments,
    wherever it stands, [main] leaves the robots directory as it found
    it, whether it syncs one target or scans the records, and no call
    reports a write. *)
Theorem main_dry_run_writes_nothing
        (fetch : string -> Result JsValue) (today : string)
        (pn : string -> bool) (args : list string) (robotsDir : option Store) :
  has_flag "--dry-run" args = true ->
  directory (main fetch today pn args robotsDir) = robotsDir
  /\ Forall (fun outcome =>
               match outcome with
               | Written _ _ => False
               | _ => True
               end) (reports (main fetch today pn args robotsDir)).
Proof.
  intros D. unfold main. rewrite D.
  destruct robotsDir as [st|]; [|split; [reflexivity | constructor]].
  assert (S : forall ruri st0,
             fst (syncRURI fetch today pn ruri st0 true) = st0
             /\ match snd (syncRURI fetch today pn ruri st0 true) with
                | Written _ _ => False
                | _ => True
                end).
  { intros ruri st0.
    pose proof (sync_cases fetch today pn ruri st0 true) as S.
    destruct (Sync.parseRURI ruri) as [p|]; [|rewrite S; cbn; auto].
    destruct (fetch _) as [m|e]; [|rewrite S; cbn; auto].
    cbv zeta in S.
    destruct (manifestToYaml _ _ m _); rewrite S; cbn; auto. }
  assert (L : forall files st0,
             directory (scan fetch today pn files st0 true) = Some st0
             /\ Forall (fun outcome =>
                          match outcome with
                          | Written _ _ => False
                          | _ => True
                          end) (reports (scan fetch today pn files st0 true))).
  { induction files as [|file rest IH]; intros st0; cbn [scan].
    - split; [reflexivity | constructor].
    - destruct (readFileSync st0 file) as [content|];
        [|split; [reflexivity | constructor]].
      destruct (scan_target content) as [ruri|]; [|apply IH].
      destruct (S ruri st0) as [S1 S2].
      destruct (syncRURI fetch today pn ruri st0 true) as [st1 o].
      cbn [fst snd] in S1, S2. subst st1.
      cbn [directory reports]. destruct (IH st0) as [I1 I2].
      split; [exact I1 | now constructor]. }
  destruct (after_flag "--ruri" args) as [[|a r]|]; try apply L.
  destruct (S (String a r) st) as [S1 S2].
  destruct (syncRURI fetch today pn (String a r) st true) as [st1 o].
  cbn [fst snd] in S1, S2. subst st1.
  split; [reflexivity | now repeat constructor].
Qed.

Lemma main_dry_run_writes_nothing_witness :
  directory (main (fun _ => Ok arm_bot_manifest) "2026-01-02" (fun _ => false)
               ["--ruri"; arm_bot; "--dry-run"] (Some example_store))
  = Some example_store.
Proof.
  apply (main_dry_run_writes_nothing (fun _ => Ok arm_bot_manifest)
           "2026-01-02" (fun _ => false) ["--ruri"; arm_bot; "--dry-run"]
           (Some example_store)).
  reflexivity.
Defined.




(** ** The scan of the records *)

Section Scan.

Lemma member_space c : member false space c = is_space c.
Proof. by_cases_on c. Qed.

Lemma member_not_quote c :
  member false not_quote c = negb (Ascii.eqb c "034").
Proof. by_cases_on c. Qed.

Lemma all_member_space (s : string) :
  all_chars (member false space) s = blank s.
Proof.
  unfold blank. induction s as [|c s IH]; cbn [all_chars]; [reflexivity|].
  now rewrite member_space, IH.
Qed.

Lemma all_member_not_quote (s : string) :
  all_chars (member false not_quote) s = quote_free s.
Proof.
  unfold quote_free. induction s as [|c s IH]; cbn [all_chars]; [reflexivity|].
  now rewrite member_not_quote, IH.
Qed.

Lemma same_text_exact (p t : string) : same_text false p t = true -> t = p.
Proof.
  revert t. induction p as [|a p IH]; intros [|b t]; cbn [same_text];
    try discriminate; [reflexivity|].
  intros [E H]%andb_true_iff. cbn [same_char] in E.
  apply Ascii.eqb_eq in E. subst b. now rewrite (IH t H).
Qed.

Lemma same_text_refl (p : string) : same_text false p p = true.
Proof.
  induction p as [|a p IH]; cbn [same_text same_char]; [reflexivity|].
  now rewrite Ascii.eqb_refl, IH.
Qed.

(** What the pattern of the scan matches at a given place. *)
Lemma ruri_line_inv (n : nat) (s s' : string) (caps : Caps) :
  matches false n RURI_LINE s s' [] caps ->
  exists ws w,
    s = "ruri:" ++ ws ++ dq ++ "rcan://" ++ w ++ dq ++ s'
    /\ blank ws = true /\ quote_free w = true /\ w <> EmptyString
    /\ caps = [(1, "rcan://" ++ w)].
Proof.
  unfold RURI_LINE. intros M.
  apply lit_inv in M as (pre & s1 & -> & ->%same_text_exact & M).
  cbn [seq matches] in M.
  destruct M as (s2 & c2 & (ws & -> & Ws & ->) & s3 & c3
                 & (q & -> & Q & ->) & s4 & c4 & (c5 & G & ->)
                 & (q' & -> & Q' & ->)).
  cbn [same_char] in Q, Q'. apply Ascii.eqb_eq in Q, Q'. subst q q'.
  apply lit_inv in G as (pre & s5 & E & ->%same_text_exact & G).
  cbn [seq matches] in G.
  destruct G as (s6 & c6 & (a & -> & A & ->) & (w & -> & W & ->)).
  subst s3. exists ws, (String a w).
  rewrite all_member_space in Ws.
  split; [reflexivity|]. split; [exact Ws|]. split; [|split].
  - unfold quote_free. cbn [all_chars].
    rewrite <- member_not_quote, A. cbn [andb].
    now rewrite <- all_member_not_quote.
  - discriminate.
  - f_equal. f_equal.
    replace ("rcan://" ++ String a (w ++ String "034" s'))
      with (("rcan://" ++ String a w) ++ String "034" s')
      by (now rewrite append_assoc).
    apply consumed_append.
Qed.

Lemma ruri_line_intro (n : nat) (ws w post : string) :
  blank ws = true -> quote_free w = true -> w <> EmptyString ->
  matches false n RURI_LINE
    ("ruri:" ++ ws ++ dq ++ "rcan://" ++ w ++ dq ++ post) post []
    [(1, "rcan://" ++ w)].
Proof.
  intros Ws W Ne. unfold RURI_LINE.
  apply lit_intro; [apply same_text_refl|].
  cbn [seq matches].
  exists (dq ++ "rcan://" ++ w ++ dq ++ post), [].
  split; [exists ws; rewrite all_member_space; auto|].
  exists ("rcan://" ++ w ++ dq ++ post), [].
  split; [exists "034"%char; auto|].
  exists (dq ++ post), [(1, "rcan://" ++ w)].
  split; [|exists "034"%char; auto].
  exists []. split.
  - apply lit_intro; [apply same_text_refl|].
    cbn [seq matches].
    destruct w as [|a w]; [congruence|].
    unfold quote_free in W. cbn [all_chars] in W.
    apply andb_true_iff in W as [A W].
    exists (w ++ dq ++ post), []. split.
    + exists a. rewrite member_not_quote. auto.
    + exists w. rewrite all_member_not_quote. auto.
  - f_equal. f_equal.
    replace ("rcan://" ++ w ++ dq ++ post)
      with (("rcan://" ++ w) ++ dq ++ post)
      by (now rewrite append_assoc).
    symmetry. apply consumed_append.
Qed.

(** [search] returns what the matcher finds at the first place where it
    finds anything. *)
Lemma search_leftmost ic n (r : regex) (s : string) (caps : Caps) :
  search ic n r s = Some caps ->
  exists pre s1,
    s = pre ++ s1
    /\ run ic n r s1 [] (fun _ c => Some c) = Some caps
    /\ forall pre' s2,
         s = pre' ++ s2 -> String.length pre' < String.length pre ->
         run ic n r s2 [] (fun _ c => Some c) = None.
Proof.
  induction s as [|a s IH]; cbn [search].
  - destruct (run ic n r EmptyString [] _) eqn:R; [|discriminate].
    intros [= <-]. exists EmptyString, EmptyString.
    repeat split; auto. cbn [String.length]. intros; lia.
  - destruct (run ic n r (String a s) [] _) eqn:R.
    + intros [= <-]. exists EmptyString, (String a s).
      repeat split; auto. cbn [String.length]. intros; lia.
    + intros H. destruct (IH H) as (pre & s1 & -> & R1 & Lm).
      exists (String a pre), s1. repeat split; auto.
      intros [|b pre'] s2 E L.
      * cbn [append] in E. now subst s2.
      * cbn [append] in E. injection E as <- E.
        apply (Lm pre' s2 E). cbn [String.length] in L. lia.
Qed.

Lemma search_finds ic n (r : regex) (pre s1 : string) (caps : Caps) :
  run ic n r s1 [] (fun _ c => Some c) = Some caps ->
  exists caps', search ic n r (pre ++ s1) = Some caps'.
Proof.
  intros R. induction pre as [|a pre IH]; cbn [append].
  - destruct s1; cbn [search]; rewrite R; eauto.
  - cbn [search]. destruct (run ic n r (String a (pre ++ s1)) [] _); eauto.
Qed.

(** The text [ruri:] does not overlap itself. *)
Lemma marker_no_overlap (u rest1 rest2 : string) :
  "ruri:" ++ rest1 = u ++ "ruri:" ++ rest2 ->
  u = EmptyString \/ exists v, u = "ruri:" ++ v.
Proof.
  intros E.
  destruct u as [|a1 [|a2 [|a3 [|a4 [|a5 v]]]]]; cbn [append] in E;
    try (left; reflexivity); try discriminate E.
  right. exists v. cbn [append]. injection E as <- <- <- <- <- _.
  reflexivity.
Qed.

Lemma prefix_split (a b c d : string) :
  a ++ b = c ++ d -> String.length a <= String.length c ->
  exists u, c = a ++ u /\ b = u ++ d.
Proof.
  revert c. induction a as [|x a IH]; intros c E L.
  - exists c. auto.
  - destruct c as [|y c]; [cbn [String.length] in L; lia|].
    cbn [append] in E. injection E as <- E.
    cbn [String.length] in L.
    destruct (IH c E) as (u & -> & ->); [lia|].
    exists u. auto.
Qed.

End Scan.

(** X16: what the scan takes for a target.  A target read from a record
    is a text of the record that stands between double quotes after
    [ruri:] and white space; it begins with [rcan://], goes on for at
    least one more character and holds no double quote. *)
Theorem scan_target_is_quoted (content ruri : string) :
  scan_target content = Some ruri ->
  exists pre ws post,
    content = pre ++ "ruri:" ++ ws ++ dq ++ ruri ++ dq ++ post
    /\ blank ws = true
    /\ startsWith ruri "rcan://" = true
    /\ 7 < String.length ruri
    /\ quote_free ruri = true.
Proof.
  unfold scan_target, exec.
  destruct (search false _ RURI_LINE content) as [m|] eqn:S; [|discriminate].
  apply search_sound in S as (pre & s1 & s' & -> & M).
  apply ruri_line_inv in M as (ws & w & -> & Ws & W & Ne & ->).
  cbn [capture Nat.eqb]. intros [= <-].
  exists pre, ws, s'. split; [reflexivity|].
  split; [exact Ws|]. split; [reflexivity|]. split.
  - destruct w as [|a w]; [congruence|]. cbn [append String.length]. lia.
  - unfold quote_free in *. cbn. exact W.
Qed.

Lemma scan_target_is_quoted_witness :
  exists pre ws post,
    arm_bot_yaml "2026-01-02"
    = pre ++ "ruri:" ++ ws ++ dq ++ arm_bot ++ dq ++ post
    /\ blank ws = true
    /\ startsWith arm_bot "rcan://" = true
    /\ 7 < String.length arm_bot
    /\ quote_free arm_bot = true.
Proof.
  apply (scan_target_is_quoted (arm_bot_yaml "2026-01-02") arm_bot).
  vm_compute. reflexivity.
Defined.

(** The scan reads the identifier of the first line that holds the
    text [ruri:]. *)
Lemma scan_reads_line (pre ruri post : string) :
  includes pre "ruri:" = false ->
  startsWith ruri "rcan://" = true ->
  7 < String.length ruri ->
  quote_free ruri = true ->
  scan_target (pre ++ ruri_line ruri ++ post) = Some ruri.
Proof.
  intros Pre St Ln Q.
  apply startsWith_inv in St.
  set (w := drop (String.length "rcan://") ruri) in *. clearbody w.
  assert (Wq : quote_free w = true).
  { unfold quote_free in *. rewrite St in Q. cbn in Q. exact Q. }
  assert (Wn : w <> EmptyString).
  { intros E. rewrite E in St. rewrite St in Ln. cbn in Ln. lia. }
  set (content := pre ++ ruri_line ruri ++ post).
  assert (Shape : ruri_line ruri ++ post
                  = "ruri:" ++ " " ++ dq ++ "rcan://" ++ w ++ dq ++ post).
  { unfold ruri_line. rewrite St at 1. now rewrite !append_assoc. }
  pose proof (ruri_line_intro (String.length content) " " w post eq_refl Wq Wn)
    as M.
  rewrite <- Shape in M.
  destruct (run_complete false _ RURI_LINE _ _ [] _ (fun _ c => Some c) _ M
              eq_refl) as [res R].
  destruct (search_finds false _ RURI_LINE pre _ res R) as [caps S].
  fold content in S.
  unfold scan_target, exec. rewrite S.
  apply search_leftmost in S as (pre' & s1 & E & R1 & Lm).
  apply run_sound in R1 as (s' & caps' & M1 & [= ->]).
  apply ruri_line_inv in M1 as (ws & w1 & -> & Ws & W1 & _ & ->).
  assert (L : String.length pre' <= String.length pre).
  { destruct (Nat.le_gt_cases (String.length pre') (String.length pre))
      as [L | L]; [exact L|].
    rewrite (Lm pre (ruri_line ruri ++ post) eq_refl L) in R. discriminate. }
  unfold content in E. rewrite Shape in E. symmetry in E.
  destruct (prefix_split _ _ _ _ E L) as (u & -> & E1).
  apply marker_no_overlap in E1 as E2.
  destruct E2 as [-> | [v ->]].
  - cbn [append] in E1. injection E1 as E1.
    apply (span_unique is_space ws _ " " _) in E1 as [_ E1]; auto.
    injection E1 as E1.
    apply (span_unique (fun c => negb (Ascii.eqb c "034")) w1 _ w _) in E1
      as [-> _]; auto.
    cbn [capture Nat.eqb]. rewrite <- St.
    destruct ruri; [cbn in Ln; lia | reflexivity].
  - rewrite includes_append in Pre. discriminate.
Qed.


(** X17: the scan reads back what a sync wrote.  In a record where
    nothing before the line of the identifier holds the text [ruri:], the
    scan finds the identifier of that line, provided it begins with
    [rcan://], goes on, and holds no double quote.  The pattern of the
    scan is wider than that of the lookup: a record whose line has two
    spaces after the colon is scanned, its target is not found among
    the records, and the scan adds a second record for it. *)
Theorem scan_reads_back_the_ruri_line (pre ruri post : string) :
  includes pre "ruri:" = false ->
  startsWith ruri "rcan://" = true ->
  7 < String.length ruri ->
  quote_free ruri = true ->
  scan_target (pre ++ ruri_line ruri ++ post) = Some ruri
  /\ (let st := [("RRN-00000001.yaml",
                  "ruri:  " ++ dq ++ arm_bot ++ dq ++ nl)] in
      findExistingByRURI st arm_bot = None
      /\ option_map readdirSync
           (directory (main (fun _ => Ok arm_bot_manifest) "2026-01-02"
                         (fun _ => false) [] (Some st)))
         = Some ["RRN-00000001.yaml"; "RRN-00000002.yaml"]).
Proof.
  intros Pre St Ln Q.
  split; [now apply scan_reads_line | split; vm_compute; reflexivity].
Qed.

Lemma scan_reads_back_the_ruri_line_witness :
  scan_target (arm_bot_yaml "2026-01-02") = Some arm_bot.
Proof.
  apply (scan_reads_back_the_ruri_line
           (join nl (firstn 8 (arm_bot_lines "2026-01-02")) ++ nl)
           arm_bot
           (nl ++ join nl (skipn 9 (arm_bot_lines "2026-01-02")) ++ nl));
    vm_compute; try reflexivity.
  lia.
Defined.

(** ** The badge endpoint *)

Section BadgeFacts.

Import Badge.

Lemma includes_skip (a s p : string) :
  includes s p = true -> includes (a ++ s) p = true.
Proof.
  intros H. induction a as [|c a IH]; cbn [append includes]; [exact H|].
  rewrite IH. apply orb_true_r.
Qed.

Lemma find_some_rrn (robots : list CollectionEntry) (x : string) :
  match find (fun r => String.eqb (rrn (data r)) x) robots with
  | Some found => In found robots /\ rrn (data found) = x
  | None => forall r, In r robots -> rrn (data r) <> x
  end.
Proof.
  destruct (find _ robots) as [found|] eqn:F.
  - apply find_some in F as [I E]. apply String.eqb_eq in E. auto.
  - intros r I E. apply (find_none _ _ F) in I.
    apply String.eqb_neq in I. contradiction.
Qed.


End BadgeFacts.



(** X19: when the badge is not found.  [GET] answers 404, with the body
    [Robot not found], exactly when no robot is passed along and no
    robot of the collection carries the rrn of the request; every other
    request is answered 200 with the SVG content type. *)
Theorem badge_not_found
        (robots : list Badge.CollectionEntry) (ctx : Badge.APIContext) :
  (Badge.code (Badge.GET robots ctx) = 404%N
   <-> Badge.props_robot ctx = None
       /\ forall r, In r robots ->
                    Badge.params_rrn ctx <> Some (Badge.rrn (Badge.data r)))
  /\ (Badge.code (Badge.GET robots ctx) = 404%N ->
      Badge.GET robots ctx
      = {| Badge.body := "Robot not found"; Badge.code := 404;
           Badge.headers := [] |})
  /\ (Badge.code (Badge.GET robots ctx) <> 404%N ->
      Badge.code (Badge.GET robots ctx) = 200%N
      /\ In ("Content-Type", "image/svg+xml")
            (Badge.headers (Badge.GET robots ctx))).
Proof.
  unfold Badge.GET.
  destruct (Badge.props_robot ctx) as [robot|].
  { cbn. repeat split; try discriminate; auto. intros [[=] _]. }
  destruct (Badge.params_rrn ctx) as [x|].
  - pose proof (find_some_rrn robots x) as F.
    destruct (find _ robots) as [found|]; cbn.
    + destruct F as [Fi Fe]. repeat split; try discriminate; auto.
      intros [_ H]. exfalso. apply (H found Fi). now rewrite Fe.
    + repeat split; auto; try congruence.
      intros r I [= E]. now apply (F r I).
  - assert (F : find (fun _ : Badge.CollectionEntry => false) robots = None).
    { induction robots as [|e robots IH]; [reflexivity | exact IH]. }
    rewrite F. cbn. repeat split; auto; try congruence.
Qed.

(** X20: the defaults of the query.  A request without [style] and
    [label], or with both empty, is answered as one that asks for the
    style [flat] and the label [RCAN]; so is a request for any style
    other than [flat-square] and [plastic]; and of a parameter that
    comes twice the first value counts. *)
Theorem badge_query_defaults
        (robots : list Badge.CollectionEntry) (rrn : option string)
        (props : option Badge.RobotData) (query : list (string * string)) :
  In (Badge.searchParams_get query "label")
     [None; Some EmptyString; Some "RCAN"] ->
  (forall s, Badge.searchParams_get query "style" = Some s ->
             s <> "flat-square" /\ s <> "plastic") ->
  Badge.GET robots {| Badge.params_rrn := rrn;
                      Badge.searchParams := query;
                      Badge.props_robot := props |}
  = Badge.GET robots {| Badge.params_rrn := rrn;
                        Badge.searchParams := [("style", "flat");
                                               ("label", "RCAN")];
                        Badge.props_robot := props |}
  /\ (forall k v w rest,
        Badge.searchParams_get ((k, v) :: (k, w) :: rest) k = Some v).
Proof.
  intros L S. split.
  - assert (E : forall robot,
               Badge.generateBadgeSVG robot (Badge.style_of query)
                 (Badge.label_of query)
               = Badge.generateBadgeSVG robot "flat" (Some "RCAN")).
    { intros robot. unfold Badge.style_of, Badge.label_of.
      assert (G : forall style,
                 style <> "flat-square" -> style <> "plastic" ->
                 forall l, In l [None; Some EmptyString; Some "RCAN"] ->
                 Badge.generateBadgeSVG robot style l
                 = Badge.generateBadgeSVG robot "flat" (Some "RCAN")).
      { intros style F P l Hl. unfold Badge.generateBadgeSVG.
        apply String.eqb_neq in F, P. rewrite F, P.
        cbn [In] in Hl. destruct Hl as [<- | [<- | [<- | []]]]; reflexivity. }
      apply G.
      - destruct (Badge.searchParams_get query "style") as [[|a s]|];
          [discriminate | now apply S | discriminate].
      - destruct (Badge.searchParams_get query "style") as [[|a s]|];
          [discriminate | now apply S | discriminate].
      - destruct (Badge.searchParams_get query "label") as [[|b l]|];
          [cbn; auto | exact L | cbn; auto]. }
    unfold Badge.GET.
    cbn [Badge.props_robot Badge.params_rrn Badge.searchParams].
    destruct props as [robot|].
    + rewrite E. reflexivity.
    + destruct (find _ robots); [rewrite E|]; reflexivity.
  - intros k v w rest. unfold Badge.searchParams_get. cbn [Badge.assoc].
    now rewrite String.eqb_refl.
Qed.

Lemma badge_query_defaults_witness :
  Badge.GET [] {| Badge.params_rrn := None;
                  Badge.searchParams := [("style", "round")];
                  Badge.props_robot := Some {| Badge.rrn := "RRN-00000001";
                                               Badge.name := "ArmBot";
                                               Badge.status := "active" |} |}
  = Badge.GET [] {| Badge.params_rrn := None;
                    Badge.searchParams := [("style", "flat"); ("label", "RCAN")];
                    Badge.props_robot := Some {| Badge.rrn := "RRN-00000001";
                                                 Badge.name := "ArmBot";
                                                 Badge.status := "active" |} |}.
Proof.
  apply (badge_query_defaults [] None
           (Some {| Badge.rrn := "RRN-00000001"; Badge.name := "ArmBot";
                    Badge.status := "active" |})
           [("style", "round")]).
  - cbn. auto.
  - cbn. intros s [= <-]. split; discriminate.
Defined.

Lemma includes_here2 (a b rest : string) :
  includes (a ++ b ++ rest) (a ++ b) = true.
Proof. rewrite <- append_assoc. apply includes_here. Qed.

Lemma includes_here4 (a b c d rest : string) :
  includes (a ++ b ++ c ++ d ++ rest) (a ++ b ++ c ++ d) = true.
Proof.
  replace (a ++ b ++ c ++ d ++ rest) with ((a ++ b ++ c ++ d) ++ rest)
    by (now rewrite !append_assoc).
  apply includes_here.
Qed.

Ltac find_piece :=
  repeat match goal with
         | |- includes (Badge.attr "fill" ?x ++ _) (Badge.attr "fill" ?x ++ _)
              = true =>
             first [ apply includes_here2 | apply includes_here4 ]
         | |- _ => apply includes_skip
         end.

(** X21: the colours of the badge.  The status is painted with the
    colours the table gives it, background on its rectangle and text
    colour on its text; a status that the table does not list is
    painted as [active], unless it is the name of a member that the
    table inherits from [Object.prototype], where both colours come out
    as the text [undefined]. *)
Theorem badge_colours (robot : Badge.RobotData) (style : string)
        (label : option string) :
  let svg := Badge.generateBadgeSVG robot style label in
  let status := Badge.status robot in
  let painted (bg text : string) :=
    includes svg (Badge.attr "fill" bg ++ "/>") = true
    /\ includes svg (Badge.attr "fill" text ++ ">" ++ status ++ "</text>")
       = true in
  match Badge.assoc status Badge.statusColors with
  | Some colors => painted (Badge.bg colors) (Badge.text colors)
  | None =>
      if existsb (String.eqb status) Badge.inherited
      then painted "undefined" "undefined"
      else painted "#22c55e" "#ffffff"
  end.
Proof.
  intros svg status painted. subst svg painted.
  unfold Badge.generateBadgeSVG, Badge.statusColors_at. fold status.
  cbv zeta.
  destruct (Badge.assoc status Badge.statusColors) as [colors|].
  - cbn [Badge.bg_of Badge.text_of]. split; find_piece.
  - destruct (existsb (String.eqb status) Badge.inherited).
    + cbn [Badge.bg_of Badge.text_of]. split; find_piece.
    + cbn [Badge.bg_of Badge.text_of Badge.active Badge.bg Badge.text].
      split; find_piece.
Qed.

(** ** Records and the scan *)

Section Records.

(** A character that does not occur in [p] cuts every occurrence of
    [p]. *)
Lemma startsWith_sep (c : ascii) (p : string) :
  all_chars (fun x => negb (Ascii.eqb x c)) p = true ->
  p <> EmptyString ->
  forall a b, startsWith (a ++ String c b) p = startsWith a p.
Proof.
  induction p as [|y p IH]; [congruence|].
  intros [Y P]%andb_true_iff _ [|x a] b; cbn [append startsWith].
  - apply negb_true_iff in Y. now rewrite Y.
  - destruct p as [|z p]; [reflexivity|].
    rewrite IH; auto. discriminate.
Qed.

Lemma includes_sep (c : ascii) (p : string) :
  all_chars (fun x => negb (Ascii.eqb x c)) p = true ->
  p <> EmptyString ->
  forall a b, includes (a ++ String c b) p = includes a p || includes b p.
Proof.
  intros P Ne a b. induction a as [|x a IH]; cbn [append].
  - change (includes (String c b) p)
      with (startsWith (String c b) p || includes b p).
    change (String c b) with (EmptyString ++ String c b) at 1.
    rewrite (startsWith_sep c p P Ne).
    destruct p; [congruence | reflexivity].
  - change (includes (String x (a ++ String c b)) p)
      with (startsWith (String x a ++ String c b) p
            || includes (a ++ String c b) p).
    rewrite (startsWith_sep c p P Ne), IH.
    change (includes (String x a) p)
      with (startsWith (String x a) p || includes a p).
    now rewrite orb_assoc.
Qed.

Lemma free_sep (c : ascii) (a b : string) :
  all_chars (fun x => negb (Ascii.eqb x c)) "ruri:" = true ->
  marker_free (a ++ String c b) = marker_free a && marker_free b.
Proof.
  intros P. unfold marker_free.
  rewrite (includes_sep c "ruri:" P); [|discriminate].
  apply negb_orb.
Qed.

Lemma free_quoted (label s : string) :
  marker_free label = true -> marker_free s = true ->
  marker_free (label ++ dq ++ s ++ dq) = true.
Proof.
  intros L S. unfold dq. cbn [append].
  rewrite (free_sep "034" label), (free_sep "034" s), L, S; reflexivity.
Qed.

Lemma free_spaced (label s : string) :
  marker_free label = true -> marker_free s = true ->
  marker_free (label ++ String " " s) = true.
Proof.
  intros L S. rewrite (free_sep " " label), L, S; reflexivity.
Qed.

Lemma join_free (lines : list string) :
  all_free lines -> marker_free (join nl lines ++ nl) = true.
Proof.
  unfold all_free.
  induction 1 as [|l [|l' rest] F _ IH].
  - reflexivity.
  - cbn [join]. unfold nl. now rewrite (free_sep "010" l), F.
  - change (join nl (l :: l' :: rest))
      with (l ++ nl ++ join nl (l' :: rest)).
    rewrite !append_assoc. unfold nl at 1. cbn [append].
    rewrite (free_sep "010" l), F, IH; reflexivity.
Qed.

Lemma startsWith_app_l (p : string) :
  forall a b, startsWith a p = true -> startsWith (a ++ b) p = true.
Proof.
  induction p as [|y p IH]; intros [|x a] b; cbn [append startsWith];
    try discriminate; auto.
  intros [-> S]%andb_true_iff. now rewrite (IH a b S).
Qed.

Lemma includes_app_l (a b p : string) :
  includes a p = true -> includes (a ++ b) p = true.
Proof.
  induction a as [|x a IH].
  - cbn [includes]. destruct p; [|discriminate]. intros _.
    destruct b; reflexivity.
  - intros I.
    change (includes (String x a) p)
      with (startsWith (String x a) p || includes a p) in I.
    change (includes (String x a ++ b) p)
      with (startsWith (String x a ++ b) p || includes (a ++ b) p).
    apply orb_true_iff in I as [S | I].
    + now rewrite (startsWith_app_l _ _ b S).
    + rewrite (IH I). apply orb_true_r.
Qed.

Lemma free_prefix (a b : string) :
  marker_free (a ++ b) = true -> marker_free a = true.
Proof.
  unfold marker_free. intros H.
  destruct (includes a "ruri:") eqn:I; [|reflexivity].
  now rewrite (includes_app_l a b _ I) in H.
Qed.



Variable today : string.
Variable positive_numeral : string -> bool.

#[local] Hint Constructors Forall : core.
#[local] Hint Unfold all_free : core.

Lemma when_set_free (label : string) (v : JsValue) :
  v = JUndefined \/ is_string v = true \/ is_number v = true ->
  rendered_free v = true -> marker_free label = true ->
  exists l, when_set label true v = Ok l /\ all_free l.
Proof.
  unfold when_set, all_free.
  intros [-> | [(s & ->)%is_string_inv | (x & ->)%is_number_inv]] R L;
    destruct (truthy _); cbn [to_string bind]; eauto;
    eexists; (split; [reflexivity|]); repeat constructor;
    now apply free_quoted.
Qed.

Lemma when_set_free_bare (label : string) (v : JsValue) :
  v = JUndefined \/ is_string v = true \/ is_number v = true ->
  rendered_free v = true -> marker_free label = true ->
  exists l, when_set (label ++ " ") false v = Ok l /\ all_free l.
Proof.
  unfold when_set, all_free.
  intros [-> | [(s & ->)%is_string_inv | (x & ->)%is_number_inv]] R L;
    destruct (truthy _); cbn [to_string bind]; eauto;
    eexists; (split; [reflexivity|]); repeat constructor;
    rewrite append_assoc; now apply free_spaced.
Qed.

Lemma mapM_free (prefix : string) (items : list JsValue) :
  forallb is_string items = true ->
  rendered_free (JArr items) = true -> marker_free prefix = true ->
  exists ls,
    mapM (fun x => s <- to_string x ;; Ok (prefix ++ dq ++ s ++ dq)) items
    = Ok ls
    /\ all_free ls.
Proof.
  intros S R P. cbn [rendered_free] in R. unfold all_free.
  induction items as [|x items IH]; cbn [forallb mapM] in *; [eauto|].
  apply andb_true_iff in S as [(s & ->)%is_string_inv S].
  apply andb_true_iff in R as [Rx R].
  destruct (IH S R) as (ls & E & F). cbn [to_string bind]. rewrite E.
  cbn [bind]. eexists. split; [reflexivity|].
  constructor; [now apply free_quoted | exact F].
Qed.

Lemma list_block_free (label : string) (v : JsValue) :
  optional is_strings v = true ->
  rendered_free v = true -> marker_free label = true ->
  exists l, list_block positive_numeral label v = Ok l /\ all_free l.
Proof.
  unfold all_free.
  intros [-> | (items & -> & S)%is_strings_inv]%optional_inv R L;
    [cbn; eauto|].
  unfold list_block, guarded_items. cbn [truthy get bind].
  rewrite String.eqb_refl. cbn [positive bind num_of_Z num_sign].
  destruct (Z.of_nat (List.length items) ?= 0)%Z; cbn [bind]; eauto.
  destruct items as [|x items]; [eauto|].
  destruct (mapM_free "    - " _ S R eq_refl) as (ls & E & F).
  unfold all_free in F.
  rewrite E. cbn [bind]. eexists. split; [reflexivity|].
  now constructor.
Qed.

Ltac free_step P :=
  match goal with
  | |- exists ls, bind ?e _ = Ok ls /\ _ =>
      let v := fresh "v" in
      let E := fresh "E" in
      let F := fresh "F" in
      assert (exists v, e = Ok v /\ P v) as (v & E & F);
      [ | rewrite E; cbn [bind] ]
  end.

(** The lines of the record of a plain manifest: those before the line
    of the identifier do not hold the text [ruri:]. *)
Lemma plain_manifest_lines (m : JsValue) (rrn : string) :
  plain_manifest m = true -> marker_free rrn = true ->
  exists ruri,
    get_opt m "ruri" = JStr ruri /\ scannable ruri = true
    /\ exists ls,
         yaml_lines today positive_numeral m rrn = Ok ls
         /\ exists before after,
              ls = (before ++ ruri_line ruri :: after)%list
              /\ before <> [] /\ all_free before.
Proof.
  unfold all_free.
  unfold plain_manifest. intros [[C Fr]%andb_true_iff Sc]%andb_true_iff Frrn.
  destruct (get_opt m "ruri") as [| | | |ruri| |] eqn:Er; try discriminate.
  exists ruri. split; [reflexivity|]. split; [exact Sc|].
  unfold RobotManifest in C.
  repeat (apply andb_true_iff in C as [C ?]).
  apply is_record_inv in C as [fields ->].
  unfold leading_values in Fr. cbn [forallb] in Fr.
  repeat (apply andb_true_iff in Fr as [? Fr]). clear Fr.
  unfold yaml_lines. rewrite !get_record. rewrite Er.
  repeat match goal with
         | H : is_string ?v = true |- _ =>
             let s := fresh "s" in
             let E := fresh "E" in
             destruct (is_string_inv _ H) as [s E]; rewrite E in *; clear H
         end.
  injection Er as Er. subst.
  cbn [bind to_string].
  match goal with H : optional is_strings (get_opt _ "capabilities") = true |- _ =>
    destruct (spread_strings _ H) as (items & Sp & Fi); clear H
  end.
  free_step (fun d => marker_free d = true).
  { match goal with H : optional is_string (get_opt _ "description") = true |- _ =>
      apply optional_inv in H as [Ed | [d Ed]%is_string_inv]
    end; rewrite Ed in *; cbn [truthy to_string].
    - eexists. split; reflexivity.
    - destruct (negb _); eexists; (split; [reflexivity|]);
        [assumption | reflexivity]. }
  set (links := get_opt (JObj fields) "links") in *.
  assert (L : forall k, In k ["urdf"; "github"; "website"] ->
                        (get_opt links k = JUndefined
                         \/ is_string (get_opt links k) = true
                         \/ is_number (get_opt links k) = true)).
  { intros k K.
    match goal with H : optional _ links = true |- _ =>
      apply optional_inv in H as [-> | H]; [now left|];
      repeat (apply andb_true_iff in H as [H ?])
    end.
    repeat match goal with
           | H : optional _ _ = true |- _ => apply optional_inv in H
           end.
    cbn [In] in K. destruct K as [<- | [<- | [<- | []]]]; scalar. }
  free_step (fun l => all_free l).
  { apply when_set_free; auto. apply L. cbn. auto. }
  free_step (fun l => all_free l).
  { apply when_set_free; auto. apply L. cbn. auto. }
  free_step (fun l => all_free l).
  { apply when_set_free; auto. apply L. cbn. auto. }
  clear L.
  set (specs := get_opt (JObj fields) "specs") in *.
  free_step (fun l => all_free l).
  { match goal with H : optional _ specs = true |- _ =>
      apply optional_inv in H as [-> | H]; [cbn; eauto|];
      repeat (apply andb_true_iff in H as [H ?])
    end.
    destruct (truthy specs); [|eauto].
    repeat match goal with
           | H : optional is_string _ = true |- _ => apply optional_inv in H
           | H : optional is_number _ = true |- _ => apply optional_inv in H
           end.
    assert (exists l, when_set "  weight_kg: " false (get_opt specs "weight_kg")
                      = Ok l /\ all_free l) as (l1 & -> & G1).
    { apply (when_set_free_bare "  weight_kg:"); auto. scalar. }
    assert (exists l, when_set "  dimensions: " true (get_opt specs "dimensions")
                      = Ok l /\ all_free l) as (l2 & -> & G2).
    { apply when_set_free; auto. scalar. }
    assert (exists l, when_set "  dof: " false (get_opt specs "dof")
                      = Ok l /\ all_free l) as (l3 & -> & G3).
    { apply (when_set_free_bare "  dof:"); auto. scalar. }
    assert (exists l, when_set "  compute: " true (get_opt specs "compute")
                      = Ok l /\ all_free l) as (l4 & -> & G4).
    { apply when_set_free; auto. scalar. }
    destruct (list_block_free "  ros_version:" (get_opt specs "ros_version"))
      as (l5 & -> & G5); auto.
    destruct (list_block_free "  sensors:" (get_opt specs "sensors"))
      as (l6 & -> & G6); auto.
    cbn [bind]. eexists. split; [reflexivity|].
    repeat (apply Forall_app; split); auto; now repeat constructor. }
  set (owner := get_opt (JObj fields) "owner") in *.
  free_step (fun l => all_free l).
  { match goal with H : optional _ owner = true |- _ =>
      apply optional_inv in H as [-> | H]; [cbn; eauto|];
      repeat (apply andb_true_iff in H as [H ?])
    end.
    match goal with H : is_record owner = true |- _ =>
      apply is_record_inv in H as [ofields Eo]
    end.
    rewrite Eo in *. cbn [truthy]. rewrite !get_record.
    repeat match goal with
           | H : is_string ?v = true |- _ =>
               let s := fresh "s" in
               let E := fresh "E" in
               destruct (is_string_inv _ H) as [s E]; rewrite E in *; clear H
           | H : one_of _ ?v = true |- _ =>
               let s := fresh "s" in
               let E := fresh "E" in
               destruct (one_of_inv _ _ H) as [s E]; rewrite E in *; clear H
           end.
    cbn [bind to_string]. eexists. split; [reflexivity|].
    repeat constructor; now apply free_quoted. }
  rewrite Sp. cbn [bind].
  destruct (mapM_strings (fun s => "  - " ++ dq ++ s ++ dq)
              (JStr "rcan-synced" :: items)) as [tags Et]; [exact Fi|].
  rewrite Et. cbn [bind].
  eexists. split; [reflexivity|].
  match goal with
  | |- exists before after, (?head ++ ?a ++ ?b ++ ?c ++ ?d ++ ?e ++ ?f
                             ++ (_ :: ?foot) ++ ?t)%list = _ /\ _ =>
      exists (head ++ a ++ b ++ c ++ d ++ e ++ f)%list, (foot ++ t)%list
  end.
  split; [|split].
  - repeat first [ progress cbn [app] | rewrite <- app_assoc ]. reflexivity.
  - discriminate.
  - repeat (apply Forall_app; split); auto.
    repeat constructor; try (now apply free_quoted); try reflexivity.
    apply free_quoted; [reflexivity|].
    destruct (strict_eq_string _ _); reflexivity.
Qed.



Lemma join_head (sep x : string) (after : list string) :
  exists tail, join sep (x :: after) = x ++ tail.
Proof.
  destruct after as [|a after].
  - exists EmptyString. cbn [join]. now rewrite append_nil_r.
  - exists (sep ++ join sep (a :: after)). reflexivity.
Qed.

Lemma scannable_inv (ruri : string) :
  scannable ruri = true ->
  startsWith ruri "rcan://" = true /\ 7 < String.length ruri
  /\ quote_free ruri = true.
Proof.
  unfold scannable. intros [[S L]%andb_true_iff Q]%andb_true_iff.
  apply Nat.ltb_lt in L. auto.
Qed.

(** The record of a plain manifest shows the identifier of the manifest
    to the scan and to the lookup. *)
Lemma plain_manifest_record (m : JsValue) (rrn : string) :
  plain_manifest m = true -> marker_free rrn = true ->
  exists ruri y,
    get_opt m "ruri" = JStr ruri /\ scannable ruri = true
    /\ manifestToYaml today positive_numeral m rrn = Ok y
    /\ scan_target y = Some ruri
    /\ includes y (ruri_line ruri) = true.
Proof.
  intros P F.
  destruct (plain_manifest_lines m rrn P F)
    as (ruri & Er & Sc & ls & El & before & after & -> & Ne & Fb).
  unfold manifestToYaml. rewrite El. cbn [bind].
  exists ruri. eexists. split; [exact Er|]. split; [exact Sc|].
  split; [reflexivity|].
  rewrite (join_app nl _ before after Ne).
  destruct (join_head nl (ruri_line ruri) after) as [tail ->].
  replace ((join nl before ++ nl ++ ruri_line ruri ++ tail) ++ nl)
    with ((join nl before ++ nl) ++ ruri_line ruri ++ (tail ++ nl))
    by (now rewrite !append_assoc).
  split.
  - destruct (scannable_inv ruri Sc) as (S & L & Q).
    apply scan_reads_line; auto.
    pose proof (join_free before Fb) as J. unfold marker_free in J.
    now apply negb_true_iff in J.
  - apply includes_append.
Qed.

End Records.

(** X22: the record of a manifest is read back.  For a manifest of the
    interface whose identifier begins with [rcan://], goes on and holds
    no double quote, and whose values rendered before the identifier do
    not hold the text [ruri:], the record that [manifestToYaml] writes
    shows that identifier to the scan of [main] and to
    [findExistingByRURI]. *)
Theorem plain_manifest_is_read_back
        (today : string) (pn : string -> bool) (m : JsValue) (rrn : string) :
  plain_manifest m = true -> marker_free rrn = true ->
  exists ruri y,
    get m "ruri" = Ok (JStr ruri)
    /\ manifestToYaml today pn m rrn = Ok y
    /\ scan_target y = Some ruri
    /\ forall file, endsWith file ".yaml" = true ->
                    findExistingByRURI [(file, y)] ruri
                    = Some (replace file ".yaml" EmptyString).
Proof.
  intros P F.
  destruct (plain_manifest_record today pn m rrn P F)
    as (ruri & y & Er & _ & Ey & St & I).
  exists ruri, y. split; [|split; [exact Ey | split; [exact St|]]].
  - unfold plain_manifest in P.
    apply andb_true_iff in P as [[C _]%andb_true_iff _].
    unfold RobotManifest in C.
    repeat (apply andb_true_iff in C as [C _]).
    apply is_record_inv in C as [fields ->].
    rewrite get_record. now rewrite Er.
  - intros file E. unfold findExistingByRURI.
    cbn [filter fst]. rewrite E. cbn [first_with]. now rewrite I.
Qed.

Lemma plain_manifest_is_read_back_witness :
  exists ruri y,
    get arm_bot_manifest "ruri" = Ok (JStr ruri)
    /\ manifestToYaml "2026-01-02" (fun _ => false) arm_bot_manifest
         "RRN-00000001" = Ok y
    /\ scan_target y = Some ruri
    /\ forall file, endsWith file ".yaml" = true ->
                    findExistingByRURI [(file, y)] ruri
                    = Some (replace file ".yaml" EmptyString).
Proof.
  apply (plain_manifest_is_read_back "2026-01-02" (fun _ => false)
           arm_bot_manifest "RRN-00000001");
    vm_compute; reflexivity.
Defined.

(** ** A scan over records of plain manifests *)

Lemma readFileSync_some_In (st : Store) (f c : string) :
  readFileSync st f = Some c -> In (f, c) st.
Proof.
  unfold readFileSync.
  destruct (find _ st) as [[g d]|] eqn:F; [|discriminate].
  intros [= <-]. apply find_some in F as [I E].
  cbn [fst snd] in *. apply String.eqb_eq in E. now subst g.
Qed.

Lemma first_with_exists (needle g c : string) (l : Store) :
  In (g, c) l -> includes c needle = true ->
  exists e, first_with needle l = Some e.
Proof.
  induction l as [|[h d] l IH]; [intros []|]. cbn [first_with].
  intros [[= -> ->] | I] N.
  - rewrite N. eauto.
  - destruct (includes d needle); eauto.
Qed.

Section StableScan.

Variable fetch : string -> Result JsValue.
Variable today : string.
Variable positive_numeral : string -> bool.

Hypothesis plain :
  forall url m, fetch url = Ok m -> plain_manifest m = true.

(** One call for a target read from a record of the directory. *)
Lemma sync_in_place (st : Store) (file content ruri : string) (dryRun : bool) :
  scan_ready st ->
  In (file, content) st -> endsWith file ".yaml" = true ->
  scan_target content = Some ruri ->
  scan_ready (fst (syncRURI fetch today positive_numeral ruri st dryRun))
  /\ readdirSync (fst (syncRURI fetch today positive_numeral ruri st dryRun))
     = readdirSync st
  /\ no_creation (snd (syncRURI fetch today positive_numeral ruri st dryRun)).
Proof.
  intros (Ok & Names & Canon) I Y T.
  pose proof (Canon file content I Y ruri T) as Inc.
  destruct (first_with_exists (ruri_line ruri) file content
              (filter is_yaml st)) as [e F]; [|exact Inc|].
  { apply filter_In. split; [exact I | exact Y]. }
  assert (F' : findExistingByRURI st ruri = Some e) by exact F.
  destruct (findExisting_name st ruri e Ok F') as [Ne Ie].
  destruct (chosen_of_found st ruri e F' Ne) as [Ch Fo].
  pose proof (sync_cases fetch today positive_numeral ruri st dryRun) as S.
  assert (Same : scan_ready st) by (repeat split; auto; apply Ok).
  destruct (Sync.parseRURI ruri) as [p|];
    [|rewrite S; cbn [fst snd no_creation]; auto].
  destruct (fetch (Sync.ruriToHttpUrl p)) as [m|err] eqn:Fe;
    [|rewrite S; cbn [fst snd no_creation]; auto].
  cbv zeta in S. rewrite Ch, Fo in S.
  assert (Fe' : marker_free e = true).
  { apply (free_prefix e ".yaml").
    rewrite Forall_forall in Names. now apply Names. }
  destruct (plain_manifest_record today positive_numeral m e (plain _ _ Fe) Fe')
    as (r & y & _ & _ & Ey & Sy & Iy).
  rewrite Ey in S. rewrite S.
  destruct dryRun; cbn [fst snd no_creation]; [auto|].
  pose proof (writeFileSync_names_same st (e ++ ".yaml") y Ie) as Nm.
  split; [|auto]. unfold scan_ready. rewrite Nm.
  split; [|split; [exact Names|]].
  - destruct Ok as [Nd Rn]. split; rewrite Nm; assumption.
  - intros f c Hin Hy.
    apply writeFileSync_In in Hin as [[= -> ->] | Hin]; [|eauto].
    intros r' Hr. rewrite Sy in Hr. injection Hr as <-. exact Iy.
Qed.

Lemma scan_in_place (files : list string) (dryRun : bool) :
  forall st,
    scan_ready st ->
    (forall f, In f files ->
               In f (readdirSync st) /\ endsWith f ".yaml" = true) ->
    exists st',
      directory (scan fetch today positive_numeral files st dryRun) = Some st'
      /\ readdirSync st' = readdirSync st
      /\ scan_ready st'
      /\ Forall no_creation
           (reports (scan fetch today positive_numeral files st dryRun)).
Proof.
  induction files as [|file rest IH]; intros st R I.
  - exists st. cbn. auto.
  - destruct (I file (or_introl eq_refl)) as [If Yf].
    destruct (proj1 (readFileSync_In st file) If) as [content Rd].
    destruct (scan_target content) as [ruri|] eqn:T.
    + rewrite (scan_sync fetch today positive_numeral file rest st dryRun
                 content ruri Rd T).
      cbn [directory reports].
      destruct (sync_in_place st file content ruri dryRun R
                  (readFileSync_some_In _ _ _ Rd) Yf T) as (R1 & N1 & C1).
      destruct (IH _ R1) as (st' & D & N & R' & C).
      { intros f F. rewrite N1. apply I. now right. }
      exists st'. split; [exact D|]. split; [congruence|].
      split; [exact R'|]. now constructor.
    + cbn [scan]. rewrite Rd, T. apply IH; auto.
      intros f F. apply I. now right.
Qed.

End StableScan.

(** X23: a scan over records of plain manifests creates nothing.  In a
    well-formed directory whose file names do not hold the text [ruri:]
    and whose records show the scan the very line the lookup searches
    for, when every manifest the network serves is plain, a run of the
    script without [--ruri] leaves the listing of the directory as it
    was: every write is reported as an update, and the directory it
    leaves is again such a directory. *)
Theorem scan_creates_no_record
        (fetch : string -> Result JsValue) (today : string)
        (pn : string -> bool) (args : list string) (st : Store) :
  has_flag "--ruri" args = false ->
  scan_ready st ->
  (forall url m, fetch url = Ok m -> plain_manifest m = true) ->
  exists st',
    directory (main fetch today pn args (Some st)) = Some st'
    /\ readdirSync st' = readdirSync st
    /\ scan_ready st'
    /\ Forall no_creation (reports (main fetch today pn args (Some st))).
Proof.
  intros A R P. unfold main.
  destruct (after_flag_absent "--ruri" args [] A) as [_ ->].
  apply scan_in_place; auto.
  intros f F. apply filter_In in F. exact F.
Qed.

Lemma scan_creates_no_record_witness :
  exists st',
    directory (main (fun _ => Ok arm_bot_manifest) "2026-01-03"
                 (fun _ => false) []
                 (Some [("RRN-00000001.yaml", arm_bot_yaml "2026-01-02")]))
    = Some st'
    /\ readdirSync st' = ["RRN-00000001.yaml"]
    /\ scan_ready st'
    /\ Forall no_creation
         (reports (main (fun _ => Ok arm_bot_manifest) "2026-01-03"
                     (fun _ => false) []
                     (Some [("RRN-00000001.yaml", arm_bot_yaml "2026-01-02")]))).
Proof.
  apply (scan_creates_no_record (fun _ => Ok arm_bot_manifest) "2026-01-03"
           (fun _ => false) []
           [("RRN-00000001.yaml", arm_bot_yaml "2026-01-02")]).
  - reflexivity.
  - split; [split; [repeat constructor; intros [] | reflexivity]|].
    split; [repeat constructor|].
    intros f c [[= <- <-] | []] _ ruri Target.
    vm_compute in Target. injection Target as E. subst ruri.
    vm_compute. reflexivity.
  - intros url m [= <-]. vm_compute. reflexivity.
Defined.

(** ** Rendering without escaping *)

Section Escaping.

Variable today : string.
Variable positive_numeral : string -> bool.

(** The first two lines of every record. *)
Lemma record_head (m : JsValue) (rrn y : string) :
  manifestToYaml today positive_numeral m rrn = Ok y ->
  exists name rest,
    (v <- get m "name" ;; to_string v) = Ok name
    /\ y = ("rrn: " ++ dq ++ rrn ++ dq) ++ nl
           ++ ("name: " ++ dq ++ name ++ dq) ++ nl ++ rest.
Proof.
  unfold manifestToYaml. intros H.
  destruct (yaml_lines today positive_numeral m rrn) as [ls|] eqn:L;
    [|discriminate].
  cbn [bind] in H. injection H as <-.
  unfold yaml_lines in L.
  repeat match type of L with
         | bind ?r _ = Ok _ =>
             let E := fresh "E" in
             destruct r eqn:E; cbn [bind] in L; [|discriminate]
         end.
  assert (Ok_inj : forall (A : Type) (u v : A), Ok u = Ok v -> u = v)
    by (intros A u v X; now injection X).
  apply Ok_inj in L. subst ls. cbn [app].
  eexists. eexists. split; [reflexivity|].
  cbn [join]. rewrite !append_assoc. reflexivity.
Qed.

End Escaping.

(** X24: [manifestToYaml] escapes nothing.  A name that closes its
    quotes and goes on, on a new line, with the line of another
    identifier is written as it is, and the record then shows that
    other identifier, not the manifest's own, to the scan of [main] and
    to [findExistingByRURI]. *)
Theorem unescaped_name_plants_a_target
        (today : string) (pn : string -> bool) (m : JsValue)
        (rrn y a planted : string) :
  get m "name" = Ok (JStr (planting_name a planted)) ->
  manifestToYaml today pn m rrn = Ok y ->
  marker_free rrn = true -> marker_free a = true ->
  scannable planted = true ->
  scan_target y = Some planted
  /\ forall file, endsWith file ".yaml" = true ->
                  findExistingByRURI [(file, y)] planted
                  = Some (replace file ".yaml" EmptyString).
Proof.
  intros N Y Fr Fa Sc.
  destruct (record_head today pn m rrn y Y) as (name & rest & En & ->).
  rewrite N in En. cbn [bind to_string] in En. injection En as <-.
  set (pre := ("rrn: " ++ dq ++ rrn ++ dq) ++ nl
              ++ ("name: " ++ dq ++ a ++ dq) ++ nl).
  assert (E : ("rrn: " ++ dq ++ rrn ++ dq) ++ nl
              ++ ("name: " ++ dq ++ planting_name a planted ++ dq) ++ nl
              ++ rest
              = pre ++ ruri_line planted ++ nl ++ rest).
  { unfold pre, planting_name, ruri_line. now rewrite !append_assoc. }
  rewrite E.
  assert (P : includes pre "ruri:" = false).
  { pose proof (join_free ["rrn: " ++ dq ++ rrn ++ dq;
                           "name: " ++ dq ++ a ++ dq]) as J.
    cbn [join] in J. rewrite !append_assoc in J.
    unfold pre. rewrite !append_assoc.
    apply negb_true_iff. apply J.
    repeat constructor; now apply free_quoted. }
  destruct (scannable_inv planted Sc) as (S & L & Q).
  split.
  - now apply scan_reads_line.
  - intros file F. unfold findExistingByRURI. cbn [filter fst]. rewrite F.
    cbn [first_with]. now rewrite includes_append.
Qed.

Lemma unescaped_name_plants_a_target_witness :
  exists y,
    manifestToYaml "2026-01-02" (fun _ => false) planting_manifest
      "RRN-00000001" = Ok y
    /\ scan_target y = Some "rcan://example.org/evil/bot/0badcafe".
Proof.
  eexists. split; [vm_compute; reflexivity|].
  apply (unescaped_name_plants_a_target "2026-01-02" (fun _ => false)
           planting_manifest "RRN-00000001" _ "ArmBot"
           "rcan://example.org/evil/bot/0badcafe");
    vm_compute; reflexivity.
Defined.

